(** * neuro-reversi: the rules engine, the evaluator, the search and the
      learning store, embedded from the TypeScript sources

    Sources embedded here:
    - [src/types.ts], [src/constants.ts]
    - [src/services/gameLogic.ts]
    - [src/services/learningService.ts] (the localStorage revision)
    - the IndexedDB revision of the learning service (its [pruneMemory] and
      [saveBrain], in module [IDB]), which the repository holds as a second
      copy; the rest of that revision is the same code.

    Conventions of the embedding.
    - A [Disk] is ['Black' | 'White' | null]: [option Color], [None] is [null].
    - A [Board] is [Disk[][]]: a list of rows.  Every board the program
      builds is 8 x 8 ([createInitialBoard], [applyMove] keep the shape);
      [wf_board] states it.  Reads outside the grid (which the sources only
      perform on ill-shaped boards, where JavaScript yields [undefined] or
      throws) default to [null] in the value-level functions; the
      store-level functions report them as [TypeError] or [Unmodelled].
    - Arrays are shared mutable objects.  Where a function copies and
      writes ([applyMove], [trainBrain]) it is embedded statement by
      statement over a store of arrays ([applyMoveM], [trainBrainM]);
      functions that only read take the value.  [applyMove] is the value
      [applyMoveM] computes ([applyMoveM_spec]).
    - A JavaScript number is an exact rational ([Q]) where it can be
      fractional (weights, scores) and an integer ([Z]) where the program
      only ever counts; rounding, NaN and the infinities of IEEE doubles are
      outside the model, apart from the two infinities the search uses as
      initial bounds ([ext]).
    - A [while] loop is a function with fuel; nine tests of the guard
      always suffice on the board ([scanLine_fuel], [flipLine_fuel]).
    - [Math.random()] and [Date.now()] are oracles indexed by the call
      number.

    The file has the embedding first, then the definitions the statements
    need, then the facts, and last the properties of the specification,
    C1 to C10. *)

From Stdlib Require Import ZArith QArith Qabs Lqa Lia.
From stdpp Require Import base decidable option list gmap strings numbers
  sorting pretty.

Local Open Scope Z_scope.

(** ** types.ts *)

Inductive Color := Black | White.

#[global] Instance Color_eq_dec : EqDecision Color.
Proof. solve_decision. Defined.

(** [Disk = 'Black' | 'White' | null] *)
Definition Disk := option Color.

Definition Board := list (list Disk).

(** [Coordinate] and [Move] are the same interface [{row, col}]. *)
Record Coordinate := mkCoord { row : Z; col : Z }.
Abbreviation Move := Coordinate (only parsing).

#[global] Instance Coordinate_eq_dec : EqDecision Coordinate.
Proof. solve_decision. Defined.

(** ** constants.ts *)

Definition BOARD_SIZE : Z := 8.

Definition INITIAL_WEIGHTS : list (list Q) :=
  map (map inject_Z)
  [ [ 500; -100;  50;  10;  10;  50; -100;  500];
    [-100; -500; -10;  -5;  -5; -10; -500; -100];
    [  50;  -10;  20;   5;   5;  20;  -10;   50];
    [  10;   -5;   5;   1;   1;   5;   -5;   10];
    [  10;   -5;   5;   1;   1;   5;   -5;   10];
    [  50;  -10;  20;   5;   5;  20;  -10;   50];
    [-100; -500; -10;  -5;  -5; -10; -500; -100];
    [ 500; -100;  50;  10;  10;  50; -100;  500] ].

(** ** Grids: [T[][]] read and written by index *)

Section Grid.
Context {A : Type}.

(** A grid of the shape every board and weight matrix of the program has. *)
Definition wf_grid (g : list (list A)) : Prop :=
  length g = 8%nat ∧ Forall (λ r, length r = 8%nat) g.

(** [0 <= r < BOARD_SIZE && 0 <= c < BOARD_SIZE], the loop guard. *)
Definition inBoard (r c : Z) : bool :=
  (0 <=? r) && (r <? BOARD_SIZE) && (0 <=? c) && (c <? BOARD_SIZE).

(** [g[r][c]], with [dflt] where JavaScript has no element. *)
Definition gridAt (dflt : A) (g : list (list A)) (r c : Z) : A :=
  if (0 <=? r) && (0 <=? c) then
    match g !! Z.to_nat r with
    | Some line => default dflt (line !! Z.to_nat c)
    | None => dflt
    end
  else dflt.

(** [g[r][c] = v] on a copy; nothing changes where the index is outside
    the grid (JavaScript throws or grows the row there: see [writeCell]). *)
Definition gridSet (g : list (list A)) (r c : Z) (v : A) : list (list A) :=
  if (0 <=? r) && (0 <=? c) then
    alter (λ line, <[Z.to_nat c := v]> line) (Z.to_nat r) g
  else g.
End Grid.

Definition wf_board (b : Board) : Prop := wf_grid b.

(** [board[r][c]] *)
Definition cellAt (board : Board) (r c : Z) : Disk := gridAt None board r c.

(** The cells of the grid in the order of the nested [for] loops
    [for (r...) for (c...)]. *)
Definition range8 : list Z := seqZ 0 BOARD_SIZE.

Definition allCells : list Coordinate :=
  r ← range8; c ← range8; [mkCoord r c].

(** ** gameLogic.ts *)

Definition DIRECTIONS : list (Z * Z) :=
  [ (-1, 0); (1, 0); (0, -1); (0, 1);
    (-1, -1); (-1, 1); (1, -1); (1, 1) ].

Definition createInitialBoard : Board :=
  let board := replicate 8 (replicate 8 (None : Disk)) in
  let center := BOARD_SIZE / 2 in
  let board := gridSet board (center - 1) (center - 1) (Some White) in
  let board := gridSet board center center (Some White) in
  let board := gridSet board (center - 1) center (Some Black) in
  gridSet board center (center - 1) (Some Black).

(** The [while] loop of [isValidMove] in one direction.  [true] is the
    [return true] inside the loop; [false] is leaving the loop (by [break]
    or by its guard), after which the [for] goes on to the next direction.
    Every iteration moves one step away along the direction, so nine tests of
    the guard suffice on an 8 x 8 board ([scanLine_fuel]). *)
Fixpoint scanLine (fuel : nat) (board : Board) (color : Disk)
    (dRow dCol r c : Z) (hasOpponent : bool) : bool :=
  match fuel with
  | O => false
  | S fuel' =>
    if inBoard r c then
      let cell := cellAt board r c in
      if bool_decide (cell = None) then false
      else if bool_decide (cell ≠ color) then
        scanLine fuel' board color dRow dCol (r + dRow) (c + dCol) true
      else if hasOpponent then true
      else false
    else false
  end.

Definition LOOP_FUEL : nat := 9.

Definition isValidMove (board : Board) (color : Disk) (row col : Z) : bool :=
  if bool_decide (cellAt board row col ≠ None) then false
  else
    existsb (λ d : Z * Z,
               scanLine LOOP_FUEL board color d.1 d.2
                        (row + d.1) (col + d.2) false)
            DIRECTIONS.

Definition getValidMoves (board : Board) (color : Disk) : list Coordinate :=
  filter (λ m, isValidMove board color m.(row) m.(col) = true) allCells.

(** The [while] loop of [applyMove] in one direction, on the value of
    [newBoard].  [disksToFlip] grows by [push]; when a disk of [color] ends
    the run, the collected disks are turned over. *)
Fixpoint flipLine (fuel : nat) (newBoard : Board) (color : Disk)
    (dRow dCol r c : Z) (disksToFlip : list Coordinate) : Board :=
  match fuel with
  | O => newBoard
  | S fuel' =>
    if inBoard r c then
      let cell := cellAt newBoard r c in
      if bool_decide (cell = None) then newBoard
      else if bool_decide (cell ≠ color) then
        flipLine fuel' newBoard color dRow dCol (r + dRow) (c + dCol)
                 (disksToFlip ++ [mkCoord r c])
      else if (0 <? length disksToFlip)%nat then
        foldl (λ b pos, gridSet b pos.(row) pos.(col) color)
              newBoard disksToFlip
      else newBoard
    else newBoard
  end.

(** [applyMove] as a function on board values: what the caller receives.
    The statement-by-statement version on the store is [applyMoveM] below,
    and [applyMoveM_spec] relates the two. *)
Definition applyMove (board : Board) (color : Disk) (row col : Z) : Board :=
  let newBoard := gridSet board row col color in
  foldl (λ nb (d : Z * Z),
           flipLine LOOP_FUEL nb color d.1 d.2 (row + d.1) (col + d.2) [])
        newBoard DIRECTIONS.

(** [board.flat().forEach(...)]: the disks of each colour. *)
Definition countScore (board : Board) : Z * Z :=
  foldl (λ (acc : Z * Z) (cell : Disk),
           let acc := if bool_decide (cell = Some Black)
                      then (acc.1 + 1, acc.2) else acc in
           if bool_decide (cell = Some White)
           then (acc.1, acc.2 + 1) else acc)
        (0, 0) (concat board).

Definition checkGameOver (board : Board) : bool :=
  let blackMoves := getValidMoves board (Some Black) in
  let whiteMoves := getValidMoves board (Some White) in
  bool_decide (length blackMoves = 0%nat) && bool_decide (length whiteMoves = 0%nat).

(** ** The store: arrays as shared mutable objects

    A [T[][]] value is a reference to an outer array of references to rows.
    [rowsOf] holds the rows, [gridsOf] the outer arrays.  An operation
    returns, throws a [TypeError] (reading or writing an element of
    [undefined]), or steps outside what is modelled (an [undefined] element
    value, a write that would grow an array). *)

Definition loc := positive.

Record store (A : Type) := mkStore {
  rowsOf : gmap loc (list A);
  gridsOf : gmap loc (list loc)
}.
Arguments mkStore {A} _ _.
Arguments rowsOf {A} _.
Arguments gridsOf {A} _.

Inductive outcome (A X : Type) :=
| Done (x : X) (s : store A)
| TypeError (s : store A)
| Unmodelled.
Arguments Done {A X} _ _.
Arguments TypeError {A X} _.
Arguments Unmodelled {A X}.

Definition M (A X : Type) : Type := store A → outcome A X.

Definition ret {A X} (x : X) : M A X := λ s, Done x s.

Definition bind {A X Y} (m : M A X) (k : X → M A Y) : M A Y :=
  λ s, match m s with
       | Done x s' => k x s'
       | TypeError s' => TypeError s'
       | Unmodelled => Unmodelled
       end.

Notation "'let*' x ':=' m 'in' k" := (bind m (λ x, k))
  (at level 10, x name, m at level 100, k at level 200, only parsing).
Notation "m ';;' k" := (bind m (λ _, k))
  (at level 100, k at level 200, right associativity, only parsing).

Section StoreOps.
Context {A : Type}.

(** [[...line]] or an array literal: a new row object. *)
Definition allocRow (line : list A) : M A loc := λ s,
  let l := fresh (dom (rowsOf s)) in
  Done l (mkStore (<[l := line]> (rowsOf s)) (gridsOf s)).

(** A new outer array. *)
Definition allocGrid (ls : list loc) : M A loc := λ s,
  let g := fresh (dom (gridsOf s)) in
  Done g (mkStore (rowsOf s) (<[g := ls]> (gridsOf s))).

Definition readRows (g : loc) : M A (list loc) := λ s,
  match gridsOf s !! g with
  | Some ls => Done ls s
  | None => Unmodelled
  end.

Definition readLine (l : loc) : M A (list A) := λ s,
  match rowsOf s !! l with
  | Some line => Done line s
  | None => Unmodelled
  end.

Fixpoint mapS {X Y} (f : X → M A Y) (xs : list X) : M A (list Y) :=
  match xs with
  | [] => ret []
  | x :: xs' => let* y := f x in let* ys := mapS f xs' in ret (y :: ys)
  end.

Fixpoint forEachS {X} (f : X → M A unit) (xs : list X) : M A unit :=
  match xs with
  | [] => ret ()
  | x :: xs' => f x;; forEachS f xs'
  end.

(** [g.map(r => [...r])]: new rows and a new outer array. *)
Definition copyGrid (g : loc) : M A loc :=
  let* ls := readRows g in
  let* ls' := mapS (λ l, let* line := readLine l in allocRow line) ls in
  allocGrid ls'.

(** [g[r][c]] *)
Definition readCell (g : loc) (r c : Z) : M A A := λ s,
  match gridsOf s !! g with
  | None => Unmodelled
  | Some ls =>
    match (if 0 <=? r then ls !! Z.to_nat r else None) with
    | None => TypeError s
    | Some l =>
      match rowsOf s !! l with
      | None => Unmodelled
      | Some line =>
        match (if 0 <=? c then line !! Z.to_nat c else None) with
        | None => Unmodelled
        | Some v => Done v s
        end
      end
    end
  end.

(** [g[r][c] = v] *)
Definition writeCell (g : loc) (r c : Z) (v : A) : M A unit := λ s,
  match gridsOf s !! g with
  | None => Unmodelled
  | Some ls =>
    match (if 0 <=? r then ls !! Z.to_nat r else None) with
    | None => TypeError s
    | Some l =>
      match rowsOf s !! l with
      | None => Unmodelled
      | Some line =>
        if (0 <=? c) && (Z.to_nat c <? length line)%nat then
          Done () (mkStore (<[l := <[Z.to_nat c := v]> line]> (rowsOf s))
                           (gridsOf s))
        else Unmodelled
      end
    end
  end.

(** The value a reference denotes in a store. *)
Definition gridVal (s : store A) (g : loc) : option (list (list A)) :=
  ls ← gridsOf s !! g; mapM (λ l, rowsOf s !! l) ls.
End StoreOps.

(** ** gameLogic.ts, [applyMove] statement by statement on the store *)

Fixpoint flipLineM (fuel : nat) (newBoard : loc) (color : Disk)
    (dRow dCol r c : Z) (disksToFlip : list Coordinate) : M Disk unit :=
  match fuel with
  | O => ret ()
  | S fuel' =>
    if inBoard r c then
      let* cell := readCell newBoard r c in
      if bool_decide (cell = None) then ret ()
      else if bool_decide (cell ≠ color) then
        flipLineM fuel' newBoard color dRow dCol (r + dRow) (c + dCol)
                  (disksToFlip ++ [mkCoord r c])
      else if (0 <? length disksToFlip)%nat then
        forEachS (λ pos, writeCell newBoard pos.(row) pos.(col) color)
                 disksToFlip
      else ret ()
    else ret ()
  end.

Definition applyMoveM (board : loc) (color : Disk) (row col : Z) : M Disk loc :=
  let* newBoard := copyGrid board in
  writeCell newBoard row col color;;
  forEachS (λ d : Z * Z,
              flipLineM LOOP_FUEL newBoard color d.1 d.2
                        (row + d.1) (col + d.2) [])
           DIRECTIONS;;
  ret newBoard.

(** ** learningService.ts: data *)

(** [LearnedMove extends Move]: [{row, col, score, timestamp}]. *)
Record LearnedMove := mkLearned {
  lrow : Z;
  lcol : Z;
  score : Z;
  timestamp : Z
}.

(** [Record<string, LearnedMove>]: the properties in the order of
    [Object.keys] (insertion order: a board hash is never an array index). *)
Definition Memory := list (string * LearnedMove).

Definition memGet (mem : Memory) (k : string) : option LearnedMove :=
  (λ e, e.2.2) <$> list_find (λ e : string * LearnedMove, e.1 = k) mem.

(** [mem[k] = v]: an existing property keeps its place, a new one goes last. *)
Fixpoint memSet (mem : Memory) (k : string) (v : LearnedMove) : Memory :=
  match mem with
  | [] => [(k, v)]
  | (k', v') :: rest =>
    if bool_decide (k' = k) then (k, v) :: rest
    else (k', v') :: memSet rest k v
  end.

(** [LearningData]; [W] is what stands for the weight matrix: its value
    ([list (list Q)]) where it is only read, a reference where it is
    copied and written. *)
Record LearningData (W : Type) := mkData {
  memory : Memory;
  weights : W;
  totalGames : Z;
  wins : Z;
  losses : Z;
  experience : Z;
  maxMemoryLimit : Z
}.
Arguments mkData {W} _ _ _ _ _ _ _.
Arguments memory {W} _.
Arguments weights {W} _.
Arguments totalGames {W} _.
Arguments wins {W} _.
Arguments losses {W} _.
Arguments experience {W} _.
Arguments maxMemoryLimit {W} _.

Definition DEFAULT_MEMORY_LIMIT : Z := 5000.

(** [Array.prototype.sort] is stable; with a consistent comparator its
    result is the stable ordering, computed here by insertion.
    [before a b] is [compare(a, b) <= 0]. *)
Section Sort.
Context {X : Type} (before : X → X → bool).

Fixpoint insertSorted (x : X) (l : list X) : list X :=
  match l with
  | [] => [x]
  | y :: l' => if before x y then x :: y :: l' else y :: insertSorted x l'
  end.

Definition stableSort (l : list X) : list X := foldr insertSorted [] l.
End Sort.

(** The comparator of the pruning sort:
    [if (a.score !== b.score) return b.score - a.score;
     return b.timestamp - a.timestamp]. *)
Definition pruneCompare (a b : string * LearnedMove) : Z :=
  if bool_decide (a.2.(score) ≠ b.2.(score)) then b.2.(score) - a.2.(score)
  else b.2.(timestamp) - a.2.(timestamp).

Definition pruneBefore (a b : string * LearnedMove) : bool :=
  pruneCompare a b <=? 0.

(** [keys.map(k => ({ key: k, ...data.memory[k] }))] *)
Definition entriesOf (mem : Memory) : list (string * LearnedMove) :=
  omap (λ k, (λ v, (k, v)) <$> memGet mem k) mem.*1.

(** The loop that fills [newMemory] from the first [limit] sorted entries. *)
Definition keepTop (limit : Z) (entries : list (string * LearnedMove))
  : Memory :=
  foldl (λ newMemory (entry : string * LearnedMove),
           memSet newMemory entry.1
                  (mkLearned entry.2.(lrow) entry.2.(lcol)
                             entry.2.(score) entry.2.(timestamp)))
        [] (take (Z.to_nat limit) entries).

(** [saveBrain] of src/services/learningService.ts.  The result is the
    object after the call, which is what [localStorage.setItem] receives.
    [Math.floor(maxLimit * 0.9)] is taken exactly. *)
Definition saveBrain {W} (data : LearningData W) : LearningData W :=
  let keys := data.(memory).*1 in
  let maxLimit := if bool_decide (data.(maxMemoryLimit) = 0)
                  then DEFAULT_MEMORY_LIMIT else data.(maxMemoryLimit) in
  let keepCount := (maxLimit * 9) `div` 10 in
  if Z.of_nat (length keys) >? maxLimit then
    let entries := entriesOf data.(memory) in
    let entries := stableSort pruneBefore entries in
    let limit := Z.min (Z.of_nat (length entries)) keepCount in
    let newMemory := keepTop limit entries in
    mkData newMemory data.(weights) data.(totalGames) data.(wins)
           data.(losses) data.(experience) data.(maxMemoryLimit)
  else data.

(** The IndexedDB revision: [pruneMemory] and the [saveBrain] that calls it
    once the store is 10% over the limit.  [currentLimit * 1.1] is taken
    exactly.  The loop of [pruneMemory] reads [entries[i]] for [i < limit];
    it is only reached with more than [limit] entries. *)
Module IDB.
Definition pruneMemory {W} (data : LearningData W) (limit : Z)
  : LearningData W :=
  let keys := data.(memory).*1 in
  if Z.of_nat (length keys) <=? limit then data
  else
    let entries := entriesOf data.(memory) in
    let entries := stableSort pruneBefore entries in
    let newMemory := keepTop limit entries in
    mkData newMemory data.(weights) data.(totalGames) data.(wins)
           data.(losses) data.(experience) data.(maxMemoryLimit).

Definition saveBrain {W} (data : LearningData W) : LearningData W :=
  let currentLimit := if bool_decide (data.(maxMemoryLimit) = 0)
                      then DEFAULT_MEMORY_LIMIT else data.(maxMemoryLimit) in
  if 10 * Z.of_nat (length data.(memory).*1) >? 11 * currentLimit
  then pruneMemory data currentLimit
  else data.

(** [setMemoryLimit(limit)], the other caller of [pruneMemory]; [data] is
    what [loadBrain] returned, the result what [saveBrain] receives and
    writes. *)
Definition setMemoryLimit {W} (data : LearningData W) (limit : Z)
  : LearningData W :=
  let data := mkData data.(memory) data.(weights) data.(totalGames)
                     data.(wins) data.(losses) data.(experience) limit in
  let data := if Z.of_nat (length data.(memory).*1) >? limit
              then pruneMemory data limit else data in
  saveBrain data.
End IDB.

(** [setMemoryLimit(limit)] of src/services/learningService.ts, on the data
    [loadBrain] returned: the new limit, then [saveBrain]. *)
Definition setMemoryLimit {W} (data : LearningData W) (limit : Z)
  : LearningData W :=
  saveBrain (mkData data.(memory) data.(weights) data.(totalGames)
                    data.(wins) data.(losses) data.(experience) limit).

Definition diskChar (c : Disk) : string :=
  match c with
  | None => "_"
  | Some Black => "B"
  | Some White => "W"
  end.

Definition getBoardHash (board : Board) : string :=
  String.concat EmptyString
    (map (λ line, String.concat EmptyString (map diskChar line)) board).

(** ** learningService.ts: the evaluator and the search *)

Definition corners : list (Z * Z) := [ (0, 0); (0, 7); (7, 0); (7, 7) ].

Definition isRiskyMove (board : Board) (row col : Z) : bool :=
  if ((row =? 0) || (row =? 7)) && ((col =? 0) || (col =? 7)) then false
  else
    existsb (λ corner : Z * Z,
               if bool_decide (cellAt board corner.1 corner.2 = None) then
                 let dr := Z.abs (corner.1 - row) in
                 let dc := Z.abs (corner.2 - col) in
                 ((dr =? 1) && (dc =? 1))
                 || ((dr =? 1) && (dc =? 0)) || ((dr =? 0) && (dc =? 1))
               else false)
            corners.

(** [color === 'Black' ? 'White' : 'Black'] *)
Definition opponentOf (color : Disk) : Disk :=
  if bool_decide (color = Some Black) then Some White else Some Black.

(** [learnedWeights[r][c]] *)
Definition weightAt (learnedWeights : list (list Q)) (r c : Z) : Q :=
  gridAt 0%Q learnedWeights r c.

(** The three counters of the first loop of [evaluateBoard]. *)
Record Counts := mkCounts { emptyCount : Z; myDisks : Z; oppDisks : Z }.

Definition countCells (board : Board) (color : Disk) : Counts :=
  foldl (λ n (pos : Coordinate),
           let cell := cellAt board pos.(row) pos.(col) in
           if bool_decide (cell = None)
           then mkCounts (n.(emptyCount) + 1) n.(myDisks) n.(oppDisks)
           else if bool_decide (cell = color)
           then mkCounts n.(emptyCount) (n.(myDisks) + 1) n.(oppDisks)
           else mkCounts n.(emptyCount) n.(myDisks) (n.(oppDisks) + 1))
        (mkCounts 0 0 0) allCells.

(** Step 2 of [evaluateBoard]: the corner loop. *)
Definition cornerScore (board : Board) (color : Disk) (score : Q) : Q :=
  foldl (λ score (rc : Z * Z),
           if bool_decide (cellAt board rc.1 rc.2 = color)
           then (score + 2000)%Q
           else if bool_decide (cellAt board rc.1 rc.2 = opponentOf color)
           then (score - 2000)%Q
           else score)
        score corners.

(** Step 3: the mobility term. *)
Definition mobilityScore (board : Board) (color : Disk) (score : Q) : Q :=
  let myMoveCount := Z.of_nat (length (getValidMoves board color)) in
  let oppMoveCount :=
    Z.of_nat (length (getValidMoves board (opponentOf color))) in
  (score + inject_Z ((myMoveCount - oppMoveCount) * 50))%Q.

(** Step 4: the positional weights; [positionStep] is the body of the
    loops. *)
Definition positionStep (board : Board) (color : Disk)
    (learnedWeights : list (list Q)) (score : Q) (pos : Coordinate) : Q :=
  let cell := cellAt board pos.(row) pos.(col) in
  if bool_decide (cell = color)
  then (score + weightAt learnedWeights pos.(row) pos.(col))%Q
  else if bool_decide (cell = opponentOf color)
  then (score - weightAt learnedWeights pos.(row) pos.(col))%Q
  else score.

Definition positionScore (board : Board) (color : Disk)
    (learnedWeights : list (list Q)) (score : Q) : Q :=
  foldl (positionStep board color learnedWeights) score allCells.

Definition evaluateBoard (board : Board) (color : Disk)
    (learnedWeights : list (list Q)) : Q :=
  let n := countCells board color in
  if n.(emptyCount) =? 0 then
    inject_Z ((n.(myDisks) - n.(oppDisks)) * 10000)
  else
    let score := 0%Q in
    let score := cornerScore board color score in
    let score := mobilityScore board color score in
    positionScore board color learnedWeights score.

(** [x > y] and [x < y] on numbers *)
Definition Qgt_bool (x y : Q) : bool := negb (Qle_bool x y).
Definition Qlt_bool (x y : Q) : bool := negb (Qle_bool y x).

(** Numbers with the two infinities the search starts from. *)
Inductive ext := NegInf | Fin (q : Q) | PosInf.

(** [a <= b] *)
Definition ext_le (a b : ext) : bool :=
  match a, b with
  | NegInf, _ => true
  | _, PosInf => true
  | Fin x, Fin y => Qle_bool x y
  | _, _ => false
  end.

(** [a > b] *)
Definition ext_gt (a b : ext) : bool := negb (ext_le a b).

(** [a === b] on numbers *)
Definition ext_eq (a b : ext) : bool := ext_le a b && ext_le b a.

(** [Math.max(a, b)] and [Math.min(a, b)] *)
Definition ext_max (a b : ext) : ext := if ext_le a b then b else a.
Definition ext_min (a b : ext) : ext := if ext_le a b then a else b.

(** The move-ordering comparator [(a, b) => wb - wa], as [compare <= 0]. *)
Definition orderBefore (learnedWeights : list (list Q)) (a b : Coordinate)
  : bool :=
  Qle_bool (weightAt learnedWeights b.(row) b.(col)
            - weightAt learnedWeights a.(row) a.(col))%Q 0%Q.

(** The two loops of [minimax] over the ordered moves, with their early
    exit [if (beta <= alpha) break].  [search] is the recursive call
    [minimax(nextBoard, depth - 1, alpha, beta, ...)]. *)
Fixpoint maxLoop (search : Board → ext → ext → ext) (board : Board)
    (myColor : Disk) (beta : ext) (moves : list Coordinate)
    (maxEval alpha : ext) : ext :=
  match moves with
  | [] => maxEval
  | move :: rest =>
    let nextBoard := applyMove board myColor move.(row) move.(col) in
    let evalScore := search nextBoard alpha beta in
    let maxEval := ext_max maxEval evalScore in
    let alpha := ext_max alpha evalScore in
    if ext_le beta alpha then maxEval
    else maxLoop search board myColor beta rest maxEval alpha
  end.

Fixpoint minLoop (search : Board → ext → ext → ext) (board : Board)
    (opponent : Disk) (alpha : ext) (moves : list Coordinate)
    (minEval beta : ext) : ext :=
  match moves with
  | [] => minEval
  | move :: rest =>
    let nextBoard := applyMove board opponent move.(row) move.(col) in
    let evalScore := search nextBoard alpha beta in
    let minEval := ext_min minEval evalScore in
    let beta := ext_min beta evalScore in
    if ext_le beta alpha then minEval
    else minLoop search board opponent alpha rest minEval beta
  end.

Fixpoint minimax (depth : nat) (board : Board) (alpha beta : ext)
    (maximizingPlayer : bool) (myColor : Disk)
    (learnedWeights : list (list Q)) : ext :=
  match depth with
  | O => Fin (evaluateBoard board myColor learnedWeights)
  | S depth' =>
    let opponent := opponentOf myColor in
    let currentColor := if maximizingPlayer then myColor else opponent in
    let validMoves := getValidMoves board currentColor in
    if bool_decide (length validMoves = 0%nat) then
      let oppMoves :=
        getValidMoves board (if maximizingPlayer then opponent else myColor) in
      if bool_decide (length oppMoves = 0%nat) then
        let counts := countScore board in
        let myCount := if bool_decide (myColor = Some Black)
                       then counts.1 else counts.2 in
        let oppCount := if bool_decide (myColor = Some Black)
                        then counts.2 else counts.1 in
        Fin (inject_Z ((myCount - oppCount) * 100000))
      else
        minimax depth' board alpha beta (negb maximizingPlayer) myColor
                learnedWeights
    else
      let validMoves := stableSort (orderBefore learnedWeights) validMoves in
      if maximizingPlayer then
        maxLoop (λ nextBoard alpha beta,
                   minimax depth' nextBoard alpha beta false myColor
                           learnedWeights)
                board myColor beta validMoves NegInf alpha
      else
        minLoop (λ nextBoard alpha beta,
                   minimax depth' nextBoard alpha beta true myColor
                           learnedWeights)
                board opponent alpha validMoves PosInf beta
  end.

(** [m.row === x.row && m.col === x.col] somewhere in [moves] *)
Definition someMove (moves : list Coordinate) (r c : Z) : bool :=
  existsb (λ m, (m.(row) =? r) && (m.(col) =? c)) moves.

(** The depth chosen from the number of empty cells. *)
Definition searchDepth (emptyCount : Z) : nat :=
  if emptyCount <=? 12 then 12%nat
  else if emptyCount <=? 16 then 6%nat
  else 4%nat.

(** [board.flat().filter(c => c === null).length] *)
Definition countEmpty (board : Board) : Z :=
  Z.of_nat (length (filter (λ c : Disk, c = None) (concat board))).

(** The root loop of [getBestMove].  [score] is the search value of a
    candidate; [rand] is [Math.random], [calls] the number of draws so far. *)
Fixpoint rootLoop (scoreOf : Coordinate → ext) (rand : nat → Q)
    (candidateMoves : list Coordinate) (bestMove : Coordinate)
    (maxScore : ext) (calls : nat) : Coordinate :=
  match candidateMoves with
  | [] => bestMove
  | move :: rest =>
    let score := scoreOf move in
    if ext_gt score maxScore then
      rootLoop scoreOf rand rest move score calls
    else if ext_eq score maxScore then
      if Qgt_bool (rand calls) (1 # 2) then
        rootLoop scoreOf rand rest move maxScore (S calls)
      else rootLoop scoreOf rand rest bestMove maxScore (S calls)
    else rootLoop scoreOf rand rest bestMove maxScore calls
  end.

(** [aiColor], inferred from the first supplied move. *)
Definition inferColor (board : Board) (first : Coordinate) : Disk :=
  let testBlackMoves := getValidMoves board (Some Black) in
  if someMove testBlackMoves first.(row) first.(col)
  then Some Black else Some White.

(** The candidates after the risk filter. *)
Definition candidatesOf (board : Board) (validMoves : list Coordinate)
    (depth : nat) : list Coordinate :=
  let safeMoves :=
    filter (λ m, isRiskyMove board m.(row) m.(col) = false) validMoves in
  if (0 <? length safeMoves)%nat && (depth <? 10)%nat
  then safeMoves else validMoves.

(** The search value of a root move. *)
Definition rootScore (board : Board) (aiColor : Disk) (depth : nat)
    (learnedWeights : list (list Q)) (move : Coordinate) : ext :=
  let nextBoard := applyMove board aiColor move.(row) move.(col) in
  minimax (depth - 1) nextBoard NegInf PosInf false aiColor learnedWeights.

(** Step 1 of [getBestMove]: the remembered move, if the memory has one
    for this board, it is among [validMoves], and the brain is young or the
    entry has a positive score. *)
Definition rememberedMove (board : Board) (validMoves : list Coordinate)
    (data : LearningData (list (list Q))) : option Coordinate :=
  let hash := getBoardHash board in
  match memGet data.(memory) hash with
  | Some memEntry =>
    if someMove validMoves memEntry.(lrow) memEntry.(lcol)
       && ((data.(totalGames) <? 50) || (0 <? memEntry.(score)))
    then Some (mkCoord memEntry.(lrow) memEntry.(lcol))
    else None
  | None => None
  end.

(** [getBestMove(board, validMoves, injectedBrain)].  With no supplied move
    there is no [validMoves[0]] and no move comes back ([None]). *)
Definition getBestMove (rand : nat → Q) (board : Board)
    (validMoves : list Coordinate) (data : LearningData (list (list Q)))
  : option Coordinate :=
  match validMoves with
  | [] => None
  | first :: _ =>
    let aiColor := inferColor board first in
    match rememberedMove board validMoves data with
    | Some move => Some move
    | None =>
      let depth := searchDepth (countEmpty board) in
      let candidateMoves := candidatesOf board validMoves depth in
      Some (rootLoop (rootScore board aiColor depth data.(weights)) rand
                     candidateMoves first NegInf 0)
    end
  end.

(** ** learningService.ts: [trainBrain] *)

(** An entry of the game history: [{board, move, color}].  The board is a
    snapshot ([JSON.parse(JSON.stringify(board))]), a value of its own. *)
Record Turn := mkTurn { board : Board; move : Coordinate; color : Disk }.

(** [w[r][c] += 0.5] and [w[r][c] -= 0.25] *)
Definition addHalf (w : loc) (r c : Z) : M Q unit :=
  let* x := readCell w r c in writeCell w r c (x + (1 # 2))%Q.

Definition subQuarter (w : loc) (r c : Z) : M Q unit :=
  let* x := readCell w r c in writeCell w r c (x - (1 # 4))%Q.

(** The body of the clamping loops. *)
Definition clampCell (w : loc) (r c : Z) : M Q unit :=
  (let* x := readCell w r c in
   if Qgt_bool x 600 then writeCell w r c 600%Q else ret ());;
  (let* x := readCell w r c in
   if Qlt_bool x (-600) then writeCell w r c (-600)%Q else ret ()).

(** [gameHistory.slice(15, -8)] *)
Definition midGameOf (gameHistory : list Turn) : list Turn :=
  drop 15 (take (length gameHistory - 8) gameHistory).

(** The memory update over the mid-game turns; [now] is [Date.now], the
    second component counts its calls. *)
Definition reinforce (now : nat → Z) (winner : Disk) (midGame : list Turn)
    (mem : Memory) : Memory :=
  (foldl (λ (acc : Memory * nat) (turn : Turn),
            if bool_decide (turn.(color) = winner) then
              let hash := getBoardHash turn.(board) in
              let fresh_entry :=
                mkLearned turn.(move).(row) turn.(move).(col) 1 (now acc.2) in
              match memGet acc.1 hash with
              | Some existing =>
                if (existing.(lrow) =? turn.(move).(row))
                   && (existing.(lcol) =? turn.(move).(col))
                then (memSet acc.1 hash
                             (mkLearned existing.(lrow) existing.(lcol)
                                        (existing.(score) + 1) (now acc.2)),
                      S acc.2)
                else (memSet acc.1 hash fresh_entry, S acc.2)
              | None => (memSet acc.1 hash fresh_entry, S acc.2)
              end
            else acc)
         (mem, 0%nat) midGame).1.

(** [trainBrain(currentData, gameHistory, winner)] on the store of weight
    matrices.  [currentData.weights] is a reference; the result holds the
    reference of the copy the function works on. *)
Definition trainBrainM (now : nat → Z) (currentData : LearningData loc)
    (gameHistory : list Turn) (winner : Disk) : M Q (LearningData loc) :=
  let* w := copyGrid currentData.(weights) in
  let newData :=
    mkData currentData.(memory) w currentData.(totalGames)
           currentData.(wins) currentData.(losses) currentData.(experience)
           currentData.(maxMemoryLimit) in
  if bool_decide (winner = None) then ret newData
  else
    forEachS (λ turn : Turn,
                if bool_decide (turn.(color) = winner)
                then addHalf w turn.(move).(row) turn.(move).(col)
                else subQuarter w turn.(move).(row) turn.(move).(col))
             gameHistory;;
    forEachS (λ pos : Coordinate, clampCell w pos.(row) pos.(col)) allCells;;
    let mem :=
      if (20 <? length gameHistory)%nat
      then reinforce now winner (midGameOf gameHistory) newData.(memory)
      else newData.(memory) in
    ret (mkData mem w (newData.(totalGames) + 1) (newData.(wins) + 1)
                newData.(losses) (newData.(experience) + 150)
                newData.(maxMemoryLimit)).

(** * Definitions used by the statements and the proofs *)

(** ** Properties of stores *)

Section StoreProps.
Context {A : Type}.
Implicit Types (s : store A) (g l : loc) (b : list (list A)).

(** Every object of [s] is in [s'], with the contents it had. *)
Definition preserved s s' : Prop :=
  rowsOf s ⊆ rowsOf s' ∧ gridsOf s ⊆ gridsOf s'.

(** [ls] hold the rows of [b] in [s]. *)
Definition holds s (ls : list loc) b : Prop :=
  Forall2 (λ l line, rowsOf s !! l = Some line) ls b.

(** [g] is a grid of value [b] made of rows [ls], and neither [g] nor
    any of [ls] is an object of [s0]: what a call that started in [s0]
    has created, and may write without touching anything of [s0]. *)
Record private (s0 s : store A) (g : loc) (ls : list loc) b : Prop := {
  priv_grid : gridsOf s !! g = Some ls;
  priv_gfresh : gridsOf s0 !! g = None;
  priv_nodup : NoDup ls;
  priv_fresh : ∀ l, l ∈ ls → rowsOf s0 !! l = None;
  priv_rows : holds s ls b;
  priv_keep : preserved s0 s
}.
End StoreProps.

(** ** The words of the specification: legal destinations *)

Definition onBoard (pos : Coordinate) : Prop :=
  inBoard pos.(row) pos.(col) = true.

(** One of the 8 directions: 4 orthogonal, 4 diagonal. *)
Definition isDirection (dRow dCol : Z) : Prop :=
  -1 ≤ dRow ≤ 1 ∧ -1 ≤ dCol ≤ 1 ∧ (dRow ≠ 0 ∨ dCol ≠ 0).

(** A disk of the other colour; a disk of the mover's own colour. *)
Definition opponentDisk (color cell : Disk) : Prop :=
  cell ≠ None ∧ cell ≠ color.

Definition ownDisk (color cell : Disk) : Prop :=
  cell ≠ None ∧ cell = color.

(** From the cell next to [(row, col)] in the direction, [k >= 1]
    contiguous disks of the other colour, all on the board, and right after
    them, still on the board, a disk of the mover's colour. *)
Definition capturingRun (board : Board) (color : Disk)
    (row col dRow dCol : Z) (k : nat) : Prop :=
  (1 ≤ k)%nat
  ∧ (∀ i : nat, (1 ≤ i ≤ k)%nat →
       inBoard (row + Z.of_nat i * dRow) (col + Z.of_nat i * dCol) = true
       ∧ opponentDisk color
           (cellAt board (row + Z.of_nat i * dRow) (col + Z.of_nat i * dCol)))
  ∧ inBoard (row + Z.of_nat (k + 1) * dRow) (col + Z.of_nat (k + 1) * dCol)
    = true
  ∧ ownDisk color
      (cellAt board (row + Z.of_nat (k + 1) * dRow)
              (col + Z.of_nat (k + 1) * dCol)).

Definition legalDestination (board : Board) (color : Disk) (row col : Z)
  : Prop :=
  cellAt board row col = None
  ∧ ∃ dRow dCol k, isDirection dRow dCol
                   ∧ capturingRun board color row col dRow dCol k.

(** What a scan finds: [j] disks of the other colour from [(r, c)] on, then
    one of the mover's colour. *)
Definition scanFinds (board : Board) (color : Disk) (dRow dCol r c : Z)
    (hasOpponent : bool) (j : nat) : Prop :=
  (∀ i : nat, (i < j)%nat →
     inBoard (r + Z.of_nat i * dRow) (c + Z.of_nat i * dCol) = true
     ∧ opponentDisk color
         (cellAt board (r + Z.of_nat i * dRow) (c + Z.of_nat i * dCol)))
  ∧ inBoard (r + Z.of_nat j * dRow) (c + Z.of_nat j * dCol) = true
  ∧ ownDisk color
      (cellAt board (r + Z.of_nat j * dRow) (c + Z.of_nat j * dCol))
  ∧ (hasOpponent = true ∨ (0 < j)%nat).

(** ** Counting disks *)

(** Counting cells: the empty ones, the disks of a colour, the disks of
    the other colour. *)
Fixpoint countZ (p : Disk → bool) (cells : list Disk) : Z :=
  match cells with
  | [] => 0
  | cell :: rest => (if p cell then 1 else 0) + countZ p rest
  end.

Definition isEmpty (cell : Disk) : bool := bool_decide (cell = None).

Definition isDiskOf (color cell : Disk) : bool :=
  bool_decide (cell ≠ None) && bool_decide (cell = color).

Definition isDiskAgainst (color cell : Disk) : bool :=
  bool_decide (cell ≠ None) && bool_decide (cell ≠ color).

Definition emptyCells (cells : list Disk) : Z := countZ isEmpty cells.

Definition disksOf (color : Disk) (cells : list Disk) : Z :=
  countZ (isDiskOf color) cells.

Definition disksAgainst (color : Disk) (cells : list Disk) : Z :=
  countZ (isDiskAgainst color) cells.

(** ** The terms of the evaluation *)

(** Every weight of the grid lies in the clamp range.  The statements
    below take the matrix of the 8 x 8 shape ([wf_grid]), where
    [learnedWeights[r][c]] is a number for every cell of the board. *)
Definition weightsInRange (learnedWeights : list (list Q)) : Prop :=
  ∀ r c, inBoard r c = true →
         (-600 <= weightAt learnedWeights r c <= 600)%Q.

(** A boolean test of [weightsInRange]. *)
Definition weightsInRangeb (learnedWeights : list (list Q)) : bool :=
  forallb (λ pos : Coordinate,
             Qle_bool (-600) (weightAt learnedWeights pos.(row) pos.(col))
             && Qle_bool (weightAt learnedWeights pos.(row) pos.(col)) 600)
          allCells.

(** What stands on the four corners. *)
Definition cornerCells (board : Board) : list Disk :=
  [cellAt board 0 0; cellAt board 0 7; cellAt board 7 0; cellAt board 7 7].

(** The corners that hold a disk of [color] minus the corners that hold a
    disk of the other colour. *)
Definition cornerDiff (board : Board) (color : Disk) : Z :=
  disksOf color (cornerCells board) - disksAgainst color (cornerCells board).

(** The legal moves of [color] minus the legal moves of the other colour. *)
Definition mobilityDiff (board : Board) (color : Disk) : Z :=
  Z.of_nat (length (getValidMoves board color))
  - Z.of_nat (length (getValidMoves board (opponentOf color))).

(** What a cell adds to the positional sum: its weight under a disk of
    [color], minus its weight under a disk of the other colour, nothing when
    it is empty. *)
Definition signedWeight (color cell : Disk) (w : Q) : Q :=
  if isDiskOf color cell then w
  else if isDiskAgainst color cell then (- w)%Q
  else 0%Q.

(** The positional sum: the signed weights of the 64 cells. *)
Definition positionSum (board : Board) (color : Disk)
    (learnedWeights : list (list Q)) : Q :=
  foldr (λ (pos : Coordinate) (sum : Q),
           (signedWeight color (cellAt board pos.(row) pos.(col))
                         (weightAt learnedWeights pos.(row) pos.(col))
            + sum)%Q)
        0%Q allCells.

(** Corner control outweighs mobility and position together. *)
Definition cornerTierClaim : Prop :=
  ∀ board color learnedWeights,
    wf_board board → wf_grid learnedWeights → color ≠ None →
    countEmpty board ≠ 0 → weightsInRange learnedWeights →
    cornerDiff board color ≠ 0 →
    (Qabs (inject_Z (50 * mobilityDiff board color)
           + positionSum board color learnedWeights)
     < Qabs (inject_Z (2000 * cornerDiff board color)))%Q.

(** A decisive full-board score exceeds every score of a board in play. *)
Definition endgameTierClaim : Prop :=
  ∀ full other color learnedWeights,
    wf_board full → countEmpty full = 0 →
    wf_board other → countEmpty other ≠ 0 →
    wf_grid learnedWeights → color ≠ None →
    weightsInRange learnedWeights →
    ¬ (evaluateBoard full color learnedWeights == 0)%Q →
    (Qabs (evaluateBoard other color learnedWeights)
     < Qabs (evaluateBoard full color learnedWeights))%Q.

(** ** Ranking and pruning *)








(** ** Search values, ties and draws *)

Definition isFin (a : ext) : Prop := ∃ q, a = Fin q.

(** The choice among candidates that all tie: every candidate after the
    first replaces the current choice when its draw exceeds 0.5. *)
Fixpoint pickTie (rand : nat → Q) (later : list Coordinate)
    (current : Coordinate) (calls : nat) : Coordinate :=
  match later with
  | [] => current
  | move :: rest =>
    pickTie rand rest (if Qgt_bool (rand calls) (1 # 2) then move else current)
            (S calls)
  end.

(** The outcomes of [n] draws, each above 0.5 or not. *)
Fixpoint boolLists (n : nat) : list (list bool) :=
  match n with
  | O => [[]]
  | S n' => bs ← boolLists n'; [true :: bs; false :: bs]
  end.

(** A [Math.random] whose [i]-th value exceeds 0.5 exactly when [bs] says. *)
Definition randOf (bs : list bool) : nat → Q :=
  λ i, if nth i bs false then 1%Q else 0%Q.

(** In how many of the [2^n] outcomes [f] returns [m]. *)
Definition returnCount (n : nat) (f : (nat → Q) → option Coordinate)
    (m : Coordinate) : nat :=
  length (filter (λ bs, f (randOf bs) = Some m) (boolLists n)).

(** The candidates no candidate outscores, in the order of the list. *)
Definition maximalOf (scoreOf : Coordinate → ext)
    (candidateMoves : list Coordinate) : list Coordinate :=
  filter (λ m, Forall (λ m', ext_le (scoreOf m') (scoreOf m) = true)
                      candidateMoves)
         candidateMoves.

(** The draws the loop makes on [moves] from the running maximum
    [maxScore]: one for every move that ties the running maximum. *)
Fixpoint drawsMade (scoreOf : Coordinate → ext) (moves : list Coordinate)
    (maxScore : ext) : nat :=
  match moves with
  | [] => 0%nat
  | move :: rest =>
    if ext_gt (scoreOf move) maxScore then drawsMade scoreOf rest (scoreOf move)
    else if ext_eq (scoreOf move) maxScore
    then S (drawsMade scoreOf rest maxScore)
    else drawsMade scoreOf rest maxScore
  end.

(** A [Math.random] whose draws number [offset] to [offset + n - 1] are the
    first [n] draws of [rand], the other draws those of [base]. *)
Definition drawsFrom (offset n : nat) (rand base : nat → Q) : nat → Q :=
  λ i, if (offset <=? i)%nat && (i <? offset + n)%nat
       then rand (i - offset)%nat else base i.

(** In how many of the outcomes of the draws the choice among the ties is
    [x]. *)
Definition tieCount (later : list Coordinate) (current x : Coordinate) : nat :=
  length (filter (λ bs, pickTie (randOf bs) later current 0 = x)
                 (boolLists (length later))).

(** ** The weight updates of [trainBrain] on values *)

Definition bumpStep (winner : Disk) (w : list (list Q)) (turn : Turn)
  : list (list Q) :=
  let r := turn.(move).(row) in
  let c := turn.(move).(col) in
  if bool_decide (turn.(color) = winner)
  then gridSet w r c (weightAt w r c + (1 # 2))%Q
  else gridSet w r c (weightAt w r c - (1 # 4))%Q.

Definition clampStep (w : list (list Q)) (pos : Coordinate) : list (list Q) :=
  let r := pos.(row) in
  let c := pos.(col) in
  let w1 := if Qgt_bool (weightAt w r c) 600 then gridSet w r c 600%Q else w in
  if Qlt_bool (weightAt w1 r c) (-600) then gridSet w1 r c (-600)%Q else w1.

(** The two tests of the clamping loop on one number. *)
Definition clamp (x : Q) : Q :=
  if Qgt_bool x 600 then 600%Q
  else if Qlt_bool x (-600) then (-600)%Q
  else x.

(** Moves of the history on a cell: by the winner, and by anyone else. *)
Fixpoint winnerMovesAt (winner : Disk) (gameHistory : list Turn) (r c : Z) : Z :=
  match gameHistory with
  | [] => 0
  | turn :: rest =>
    (if bool_decide (turn.(move) = mkCoord r c)
        && bool_decide (turn.(color) = winner) then 1 else 0)
    + winnerMovesAt winner rest r c
  end.

Fixpoint otherMovesAt (winner : Disk) (gameHistory : list Turn) (r c : Z) : Z :=
  match gameHistory with
  | [] => 0
  | turn :: rest =>
    (if bool_decide (turn.(move) = mkCoord r c)
        && bool_decide (turn.(color) ≠ winner) then 1 else 0)
    + otherMovesAt winner rest r c
  end.

Definition turnOnBoard (turn : Turn) : Prop := onBoard turn.(move).

(** ** Positions, brains and stores used below *)

Definition emptyStore {A} : store A := mkStore ∅ ∅.

(** A grid literal: its rows, then the outer array. *)
Definition newGrid {A} (g : list (list A)) : M A loc :=
  let* ls := mapS allocRow g in allocGrid ls.

(** The store that holds just [g], and the reference to it. *)
Definition storeOf {A} (g : list (list A)) : loc * store A :=
  match newGrid g emptyStore with
  | Done l s => (l, s)
  | _ => (1%positive, emptyStore)
  end.

Definition initialStore : loc * store Disk := storeOf createInitialBoard.

Definition weightStore : loc * store Q := storeOf INITIAL_WEIGHTS.

Definition brain0 : LearningData (list (list Q)) :=
  mkData [] INITIAL_WEIGHTS 0 0 0 0 DEFAULT_MEMORY_LIMIT.

Definition brainRef : LearningData loc :=
  mkData [] weightStore.1 0 0 0 0 DEFAULT_MEMORY_LIMIT.

Definition openingMoves : list Coordinate :=
  getValidMoves createInitialBoard (Some Black).

(** Five rows of Black over three rows of White: 40 against 24. *)
Definition board_40_24 : Board :=
  replicate 5 (replicate 8 (Some Black)) ++ replicate 3 (replicate 8 (Some White)).

(** A full board, 33 Black against 31 White. *)
Definition board_33_31 : Board :=
  replicate 4 (replicate 8 (Some Black))
  ++ [Some Black :: replicate 7 (Some White)]
  ++ replicate 3 (replicate 8 (Some White)).

(** Black on every cell but one. *)
Definition board_63_0 : Board :=
  replicate 7 (replicate 8 (Some Black))
  ++ [replicate 7 (Some Black) ++ [None]].

(** Black on the corner (0,0), on the four X-squares and on the eight
    C-squares; nothing else on the board. *)
Definition board_corner_traded : Board :=
  let B := Some Black in
  let o := (None : Disk) in
  [ [B; B; o; o; o; o; B; o];
    [B; B; o; o; o; o; B; B];
    [o; o; o; o; o; o; o; o];
    [o; o; o; o; o; o; o; o];
    [o; o; o; o; o; o; o; o];
    [o; o; o; o; o; o; o; o];
    [B; B; o; o; o; o; B; B];
    [o; B; o; o; o; o; B; o] ].

(** The position a list of plies leads to from the opening position, and
    the test that every ply is a legal move of its colour, Black first, the
    colours in turn. *)
Definition positionAfter (plies : list (Disk * Coordinate)) : Board :=
  foldl (λ (b : Board) (ply : Disk * Coordinate),
           applyMove b ply.1 ply.2.(row) ply.2.(col))
        createInitialBoard plies.

Fixpoint legalPlay (b : Board) (color : Disk)
    (plies : list (Disk * Coordinate)) {struct plies} : bool :=
  match plies with
  | [] => true
  | ply :: rest =>
    bool_decide (ply.1 = color)
    && isValidMove b color ply.2.(row) ply.2.(col)
    && legalPlay (applyMove b color ply.2.(row) ply.2.(col))
                 (opponentOf color) rest
  end.

(** Six plies after which White holds the corner (7,7). *)
Definition plies_corner_taken : list (Disk * Coordinate) :=
  [ (Some Black, mkCoord 5 4); (Some White, mkCoord 5 5);
    (Some Black, mkCoord 5 6); (Some White, mkCoord 6 6);
    (Some Black, mkCoord 7 6); (Some White, mkCoord 7 7) ].

Definition board_corner_taken : Board := positionAfter plies_corner_taken.

(** Four plies after which Black has four moves: two of the best search
    score, two of a lower one. *)
Definition plies_two_best : list (Disk * Coordinate) :=
  [ (Some Black, mkCoord 2 3); (Some White, mkCoord 2 2);
    (Some Black, mkCoord 4 5); (Some White, mkCoord 5 5) ].

Definition board_two_best : Board := positionAfter plies_two_best.

Definition moves_two_best : list Coordinate :=
  [mkCoord 2 1; mkCoord 3 2; mkCoord 5 4; mkCoord 6 5].

(** Every weight at the upper clamp bound. *)
Definition weights_600 : list (list Q) := replicate 8 (replicate 8 600%Q).

(** Five empty cells left. *)
Definition board_5_empty : Board :=
  replicate 7 (replicate 8 (Some Black))
  ++ [replicate 3 (Some White) ++ replicate 5 None].



(** Three moves of a game Black has won. *)
Definition history3 : list Turn :=
  [ mkTurn createInitialBoard (mkCoord 2 3) (Some Black);
    mkTurn (applyMove createInitialBoard (Some Black) 2 3) (mkCoord 2 2)
           (Some White);
    mkTurn createInitialBoard (mkCoord 2 3) (Some Black) ].

(** ** The disks a move turns over *)

(** [(r, c)] lies in the run of opponent disks that a disk of [color] put on
    [(row, col)] closes in the direction [(dRow, dCol)]. *)
Definition capturedIn (board : Board) (color : Disk)
    (row col dRow dCol r c : Z) : Prop :=
  ∃ k i : nat,
    capturingRun board color row col dRow dCol k
    ∧ (1 ≤ i ≤ k)%nat
    ∧ r = row + Z.of_nat i * dRow ∧ c = col + Z.of_nat i * dCol.

Definition captured (board : Board) (color : Disk) (row col r c : Z) : Prop :=
  ∃ dRow dCol,
    isDirection dRow dCol ∧ capturedIn board color row col dRow dCol r c.

(** The first [j] cells from [(r, c)] on along a direction. *)
Definition lineCells (dRow dCol r c : Z) (j : nat) : list Coordinate :=
  map (λ i : nat, mkCoord (r + Z.of_nat i * dRow) (c + Z.of_nat i * dCol))
      (seq 0 j).

(** Sums over the cells of the board. *)
Fixpoint sumOver {X} (f : X → Z) (l : list X) : Z :=
  match l with
  | [] => 0
  | x :: rest => f x + sumOver f rest
  end.

(** The disk on a cell given as a coordinate. *)
Definition cellOf (board : Board) (pos : Coordinate) : Disk :=
  cellAt board pos.(row) pos.(col).

(** The order of the nested loops of [getValidMoves]. *)
Definition rowMajor (a b : Coordinate) : Prop :=
  a.(row) < b.(row) ∨ (a.(row) = b.(row) ∧ a.(col) < b.(col)).

#[global] Instance rowMajor_dec a b : Decision (rowMajor a b).
Proof. unfold rowMajor. apply _. Defined.

(** * Facts *)

(** ** Facts on grids *)

Section GridFacts.
Context {A : Type}.
Implicit Types (g : list (list A)) (r c : Z).

Lemma inBoard_spec r c :
  inBoard r c = true ↔ 0 ≤ r < 8 ∧ 0 ≤ c < 8.
Proof. unfold inBoard, BOARD_SIZE. lia. Qed.

Lemma wf_grid_lookup g r c :
  wf_grid g → inBoard r c = true →
  ∃ line v, g !! Z.to_nat r = Some line ∧ length line = 8%nat
            ∧ line !! Z.to_nat c = Some v.
Proof.
  intros [Hlen Hrows] [Hr Hc]%inBoard_spec.
  destruct (lookup_lt_is_Some_2 g (Z.to_nat r)) as [line Hline]; [lia|].
  pose proof (Forall_lookup_1 _ _ _ _ Hrows Hline) as Hl. simpl in Hl.
  destruct (lookup_lt_is_Some_2 line (Z.to_nat c)) as [v Hv]; [lia|].
  eauto.
Qed.

Lemma gridSet_wf g r c v : wf_grid g → wf_grid (gridSet g r c v).
Proof.
  intros [Hlen Hrows]. unfold gridSet.
  destruct (_ && _); [|done]. split.
  - by rewrite length_alter.
  - apply Forall_alter; [done|]. intros line _ Hl. by rewrite length_insert.
Qed.

Lemma gridAt_gridSet_eq d g r c v :
  wf_grid g → inBoard r c = true → gridAt d (gridSet g r c v) r c = v.
Proof.
  intros Hwf Hin.
  destruct (wf_grid_lookup g r c Hwf Hin) as (line & x & Hline & Hlen & Hx).
  apply inBoard_spec in Hin as [Hr Hc].
  unfold gridAt, gridSet.
  replace ((0 <=? r) && (0 <=? c)) with true by lia.
  rewrite list_lookup_alter_eq, Hline. simpl.
  rewrite list_lookup_insert_eq; [done|lia].
Qed.

Lemma gridAt_gridSet_ne d g r c r' c' v :
  (r, c) ≠ (r', c') → 0 ≤ r' → 0 ≤ c' →
  gridAt d (gridSet g r c v) r' c' = gridAt d g r' c'.
Proof.
  intros Hne Hr' Hc'. unfold gridAt, gridSet.
  replace ((0 <=? r') && (0 <=? c')) with true by lia.
  destruct ((0 <=? r) && (0 <=? c)) eqn:Hrc; [|done].
  destruct (decide (Z.to_nat r = Z.to_nat r')) as [Heq|Hner].
  - rewrite Heq, list_lookup_alter_eq.
    destruct (g !! Z.to_nat r') as [line|]; [|done]. simpl.
    rewrite list_lookup_insert_ne; [done|].
    intros Hcc. apply Hne. f_equal; lia.
  - by rewrite list_lookup_alter_ne.
Qed.
End GridFacts.

(** ** Facts on the store *)

Section StoreFacts.
Context {A : Type}.
Implicit Types (s : store A) (g l : loc) (b : list (list A)).

Lemma bind_Done {X Y} (m : M A X) (k : X → M A Y) s x s' :
  m s = Done x s' → bind m k s = k x s'.
Proof. unfold bind. by intros ->. Qed.

Lemma preserved_refl s : preserved s s.
Proof. by split. Qed.

Lemma preserved_trans s1 s2 s3 :
  preserved s1 s2 → preserved s2 s3 → preserved s1 s3.
Proof. intros [??] [??]. split; by etrans. Qed.

Lemma gridVal_Some s g b :
  gridVal s g = Some b ↔ ∃ ls, gridsOf s !! g = Some ls ∧ holds s ls b.
Proof.
  unfold gridVal, holds. split.
  - intros H. destruct (gridsOf s !! g) as [ls|] eqn:Hg; [|done].
    simpl in H. apply mapM_Some in H. eauto.
  - intros (ls & -> & H). simpl. by apply mapM_Some.
Qed.

Lemma holds_mono s s' ls b :
  rowsOf s ⊆ rowsOf s' → holds s ls b → holds s' ls b.
Proof.
  unfold holds. intros Hsub H. eapply Forall2_impl; [exact H|].
  intros l line Hl. eapply lookup_weaken; [exact Hl|exact Hsub].
Qed.

Lemma gridVal_preserved s s' g b :
  preserved s s' → gridVal s g = Some b → gridVal s' g = Some b.
Proof.
  intros [Hr Hg] (ls & Hls & Hh)%gridVal_Some. apply gridVal_Some.
  exists ls. split; [by eapply lookup_weaken | by eapply holds_mono].
Qed.

Lemma private_gridVal s0 s g ls b :
  private s0 s g ls b → gridVal s g = Some b.
Proof. intros [? ? ? ? ? ?]. apply gridVal_Some. eauto. Qed.

Lemma copyRows_spec ls b s :
  holds s ls b →
  ∃ ls' s',
    mapS (λ l, let* line := readLine l in allocRow line) ls s = Done ls' s'
    ∧ rowsOf s ⊆ rowsOf s' ∧ gridsOf s' = gridsOf s
    ∧ NoDup ls' ∧ (∀ l, l ∈ ls' → rowsOf s !! l = None)
    ∧ holds s' ls' b.
Proof.
  unfold holds. intros H. revert b s H. induction ls as [|l ls IH]; intros b s H.
  - apply Forall2_nil_inv_l in H as ->. exists [], s.
    split; [done|]. split; [done|]. split; [done|].
    split; [apply NoDup_nil_2|]. split; [|constructor].
    intros l Hl. by apply elem_of_nil in Hl.
  - apply Forall2_cons_inv_l in H as (line & b' & Hl & Hb & ->).
    set (l' := fresh (dom (rowsOf s))).
    set (s1 := mkStore (<[l' := line]> (rowsOf s)) (gridsOf s)).
    assert (Hfresh : rowsOf s !! l' = None).
    { apply not_elem_of_dom. apply is_fresh. }
    assert (Hsub : rowsOf s ⊆ rowsOf s1).
    { simpl. by apply insert_subseteq. }
    destruct (IH b' s1) as (ls' & s' & Hrun & Hsub' & Hg & Hnd & Hfr & Hh).
    { eapply holds_mono; [exact Hsub|exact Hb]. }
    exists (l' :: ls'), s'. split.
    { simpl. erewrite bind_Done; [|erewrite bind_Done; [reflexivity|]].
      - fold l'. fold s1. erewrite bind_Done; [|exact Hrun]. done.
      - unfold readLine. by rewrite Hl. }
    split; [by etrans|]. split; [done|].
    split.
    { constructor; [|done]. intros Hin. apply Hfr in Hin.
      simpl in Hin. by rewrite lookup_insert_eq in Hin. }
    split.
    { intros l0 [->|Hin]%elem_of_cons; [done|].
      apply Hfr in Hin. eapply lookup_weaken_None; eauto. }
    constructor; [|done].
    eapply lookup_weaken; [|exact Hsub']. simpl. by rewrite lookup_insert_eq.
Qed.

Lemma copyGrid_spec s g b :
  gridVal s g = Some b →
  ∃ g' ls' s', copyGrid g s = Done g' s' ∧ private s s' g' ls' b.
Proof.
  intros (ls & Hg & Hh)%gridVal_Some.
  destruct (copyRows_spec ls b s Hh) as (ls' & s1 & Hrun & Hsub & Hgs & Hnd & Hfr & Hh').
  set (g' := fresh (dom (gridsOf s1))).
  exists g', ls', (mkStore (rowsOf s1) (<[g' := ls']> (gridsOf s1))).
  assert (Hgf : gridsOf s1 !! g' = None).
  { apply not_elem_of_dom. apply is_fresh. }
  split.
  { unfold copyGrid. erewrite bind_Done; [|unfold readRows; by rewrite Hg].
    erewrite bind_Done; [|exact Hrun]. done. }
  split; simpl.
  - by rewrite lookup_insert_eq.
  - by rewrite <- Hgs.
  - done.
  - done.
  - done.
  - split; simpl; [done|]. rewrite <- Hgs. by apply insert_subseteq.
Qed.

Lemma private_lookup s0 s g ls b r line :
  private s0 s g ls b → b !! r = Some line →
  ∃ l, ls !! r = Some l ∧ rowsOf s !! l = Some line.
Proof.
  intros Hp Hb. destruct (Forall2_lookup_r _ _ _ _ _ (priv_rows _ _ _ _ _ Hp) Hb)
    as (l & Hl & Hrow). eauto.
Qed.

Lemma readCell_private d s0 s g ls b r c :
  private s0 s g ls b → wf_grid b → inBoard r c = true →
  readCell g r c s = Done (gridAt d b r c) s.
Proof.
  intros Hp Hwf Hin.
  destruct (wf_grid_lookup b r c Hwf Hin) as (line & v & Hline & Hlen & Hv).
  destruct (private_lookup _ _ _ _ _ _ _ Hp Hline) as (l & Hl & Hrow).
  apply inBoard_spec in Hin as [Hr Hc].
  unfold readCell, gridAt. rewrite (priv_grid _ _ _ _ _ Hp).
  replace (0 <=? r) with true by lia. replace (0 <=? c) with true by lia.
  simpl. by rewrite Hl, Hrow, Hline, Hv.
Qed.

Lemma writeCell_private s0 s g ls b r c v :
  private s0 s g ls b → wf_grid b → inBoard r c = true →
  ∃ s', writeCell g r c v s = Done () s'
        ∧ private s0 s' g ls (gridSet b r c v).
Proof.
  intros Hp Hwf Hin.
  destruct (wf_grid_lookup b r c Hwf Hin) as (line & x & Hline & Hlen & Hx).
  destruct (private_lookup _ _ _ _ _ _ _ Hp Hline) as (l & Hl & Hrow).
  apply inBoard_spec in Hin as [Hr Hc].
  destruct Hp as [Hg Hgf Hnd Hfr Hh [Hkr Hkg]].
  eexists. split.
  { unfold writeCell. rewrite Hg.
    replace (0 <=? r) with true by lia. rewrite Hl, Hrow.
    replace ((0 <=? c) && (Z.to_nat c <? length line)%nat) with true; [done|].
    symmetry. apply andb_true_iff. split; [lia|]. apply Nat.ltb_lt. lia. }
  assert (Hlf : rowsOf s0 !! l = None).
  { apply Hfr. eapply list_elem_of_lookup_2; eauto. }
  split; simpl; try done.
  - unfold holds, gridSet. replace ((0 <=? r) && (0 <=? c)) with true by lia.
    apply Forall2_same_length_lookup. split.
    { rewrite length_alter. by eapply Forall2_length. }
    intros i l0 line0 Hl0 Hline0.
    destruct (decide (i = Z.to_nat r)) as [->|Hne].
    + rewrite list_lookup_alter_eq, Hline in Hline0. simpl in Hline0.
      injection Hline0 as <-. rewrite Hl in Hl0. injection Hl0 as <-.
      simpl. by rewrite lookup_insert_eq.
    + rewrite list_lookup_alter_ne in Hline0 by done.
      simpl. rewrite lookup_insert_ne.
      * eapply (Forall2_lookup_lr _ _ _ _ _ _ Hh); eauto.
      * intros <-. apply Hne. eapply NoDup_lookup; eauto.
  - split; simpl; [|done]. by apply insert_subseteq_r.
Qed.
End StoreFacts.

(** ** [applyMoveM] computes [applyMove] on a copy *)

Lemma flipAll_wf (b : Board) color flips :
  wf_board b →
  wf_board (foldl (λ b pos, gridSet b pos.(row) pos.(col) color) b flips).
Proof.
  revert b. induction flips as [|pos flips IH]; intros b Hwf; simpl; [done|].
  apply IH. by apply gridSet_wf.
Qed.

Lemma flipLine_wf fuel (b : Board) color dRow dCol r c flips :
  wf_board b → wf_board (flipLine fuel b color dRow dCol r c flips).
Proof.
  revert r c flips. induction fuel as [|fuel IH]; intros r c flips Hwf; simpl; [done|].
  repeat case_match; auto using flipAll_wf.
Qed.

Lemma applyMove_wf (b : Board) color row col :
  wf_board b → wf_board (applyMove b color row col).
Proof.
  intros Hwf. unfold applyMove.
  assert (Hwf' : wf_board (gridSet b row col color)) by by apply gridSet_wf.
  revert Hwf'. generalize (gridSet b row col color). generalize DIRECTIONS.
  induction l as [|d ds IH]; intros nb Hnb; cbn [foldl]; [done|].
  apply IH. by apply flipLine_wf.
Qed.

Lemma flipAll_private s0 s g ls (b : Board) color flips :
  private s0 s g ls b → wf_board b → Forall onBoard flips →
  ∃ s', forEachS (λ pos, writeCell g pos.(row) pos.(col) color) flips s
        = Done () s'
        ∧ private s0 s' g ls
            (foldl (λ b pos, gridSet b pos.(row) pos.(col) color) b flips).
Proof.
  intros Hp Hwf Hall. revert s b Hp Hwf.
  induction Hall as [|pos flips Hpos Hall IH]; intros s b Hp Hwf; simpl.
  - by exists s.
  - destruct (writeCell_private _ _ _ _ _ _ _ color Hp Hwf Hpos) as (s1 & Hw & Hp1).
    destruct (IH s1 _ Hp1) as (s' & Hrun & Hp'); [by apply gridSet_wf|].
    exists s'. split; [|done]. by erewrite bind_Done.
Qed.

Lemma flipLineM_private fuel s0 s g ls (b : Board) color dRow dCol r c flips :
  private s0 s g ls b → wf_board b → Forall onBoard flips →
  ∃ s', flipLineM fuel g color dRow dCol r c flips s = Done () s'
        ∧ private s0 s' g ls (flipLine fuel b color dRow dCol r c flips).
Proof.
  intros Hp Hwf. revert r c flips.
  induction fuel as [|fuel IH]; intros r c flips Hall; cbn [flipLineM flipLine].
  - by exists s.
  - destruct (inBoard r c) eqn:Hin. 2:{ by exists s. }
    pose proof (readCell_private None _ _ _ _ _ r c Hp Hwf Hin) as Hread.
    rewrite (bind_Done _ _ _ _ _ Hread). fold (cellAt b r c).
    destruct (decide (cellAt b r c = None)) as [Hn|Hn].
    { rewrite !(bool_decide_eq_true_2 _ Hn). by exists s. }
    rewrite !(bool_decide_eq_false_2 _ Hn).
    destruct (decide (cellAt b r c ≠ color)) as [Hc|Hc];
      [rewrite !(bool_decide_eq_true_2 _ Hc)
      |rewrite !(bool_decide_eq_false_2 _ Hc)].
    + apply IH. apply Forall_app. split; [done|]. by constructor.
    + destruct (0 <? length flips)%nat; [|by exists s].
      by apply flipAll_private.
Qed.

Lemma flipDirs_private s0 g ls color row col dirs :
  ∀ s (b : Board),
    private s0 s g ls b → wf_board b →
    ∃ s', forEachS (λ d : Z * Z,
                      flipLineM LOOP_FUEL g color d.1 d.2
                                (row + d.1) (col + d.2) []) dirs s
          = Done () s'
          ∧ private s0 s' g ls
              (foldl (λ nb (d : Z * Z),
                        flipLine LOOP_FUEL nb color d.1 d.2
                                 (row + d.1) (col + d.2) []) b dirs).
Proof.
  induction dirs as [|d dirs IH]; intros s b Hp Hwf; cbn [foldl forEachS].
  - by exists s.
  - destruct (flipLineM_private LOOP_FUEL _ _ _ _ _ color d.1 d.2
                (row + d.1) (col + d.2) [] Hp Hwf) as (s1 & Hrun & Hp1);
      [constructor|].
    destruct (IH s1 _ Hp1) as (s' & Hrun' & Hp'); [by apply flipLine_wf|].
    exists s'. split; [|done]. by erewrite bind_Done.
Qed.

(** On a well-shaped board and a cell of the grid, [applyMoveM] returns a
    reference [newBoard] to a grid made of rows it has created, holding
    [applyMove] of the input's value; every object of the store before the
    call is still there with its contents. *)
Lemma applyMoveM_spec s board (b : Board) color row col :
  gridVal s board = Some b → wf_board b → inBoard row col = true →
  ∃ newBoard ls s',
    applyMoveM board color row col s = Done newBoard s'
    ∧ private s s' newBoard ls (applyMove b color row col).
Proof.
  intros Hval Hwf Hin.
  destruct (copyGrid_spec _ _ _ Hval) as (g' & ls & s1 & Hcopy & Hp1).
  destruct (writeCell_private _ _ _ _ _ _ _ color Hp1 Hwf Hin) as (s2 & Hw & Hp2).
  destruct (flipDirs_private s g' ls color row col DIRECTIONS s2 _ Hp2)
    as (s3 & Hrun & Hp3); [by apply gridSet_wf|].
  exists g', ls, s3. split; [|exact Hp3].
  unfold applyMoveM.
  erewrite bind_Done; [|exact Hcopy].
  erewrite bind_Done; [|exact Hw].
  erewrite bind_Done; [|exact Hrun]. done.
Qed.

(** ** Legal destinations, in the words of the specification *)

Lemma DIRECTIONS_spec dRow dCol :
  (dRow, dCol) ∈ DIRECTIONS ↔ isDirection dRow dCol.
Proof.
  unfold DIRECTIONS, isDirection. rewrite !elem_of_cons, elem_of_nil. split.
  - intros H. repeat destruct H as [H|H]; try done; injection H as -> ->; lia.
  - intros (Hr & Hc & Hne).
    assert (dRow = -1 ∨ dRow = 0 ∨ dRow = 1) as Hr' by lia.
    assert (dCol = -1 ∨ dCol = 0 ∨ dCol = 1) as Hc' by lia.
    destruct Hr' as [-> | [-> | ->]], Hc' as [-> | [-> | ->]]; try lia; tauto.
Qed.

Lemma scanLine_true fuel board color dRow dCol r c hasOpponent :
  scanLine fuel board color dRow dCol r c hasOpponent = true
  ↔ ∃ j, (j < fuel)%nat ∧ scanFinds board color dRow dCol r c hasOpponent j.
Proof.
  revert r c hasOpponent.
  induction fuel as [|fuel IH]; intros r c h; cbn [scanLine].
  { split; [done|]. intros (j & Hj & _). lia. }
  assert (H0 : ∀ d : Z, r + Z.of_nat 0 * d = r) by (intros; lia).
  destruct (inBoard r c) eqn:Hin.
  2:{ split; [done|]. intros (j & _ & Hopp & Hjin & _ & _).
      destruct j as [|j].
      - rewrite !Z.mul_0_l, !Z.add_0_r in Hjin. congruence.
      - destruct (Hopp 0%nat) as [Hi _]; [lia|].
        rewrite !Z.mul_0_l, !Z.add_0_r in Hi. congruence. }
  destruct (decide (cellAt board r c = None)) as [Hn|Hn].
  { rewrite (bool_decide_eq_true_2 _ Hn). split; [done|].
    intros (j & _ & Hopp & _ & Hown & _). destruct j as [|j].
    - rewrite !Z.mul_0_l, !Z.add_0_r in Hown. by destruct Hown.
    - destruct (Hopp 0%nat) as [_ [Ho _]]; [lia|].
      rewrite !Z.mul_0_l, !Z.add_0_r in Ho. done. }
  rewrite (bool_decide_eq_false_2 _ Hn).
  destruct (decide (cellAt board r c ≠ color)) as [Hc|Hc].
  - rewrite (bool_decide_eq_true_2 _ Hc), IH. split.
    + intros (j & Hj & Hopp & Hjin & Hown & _). exists (S j).
      split; [lia|]. split; [|split; [|split]].
      * intros [|i] Hi.
        { rewrite !Z.mul_0_l, !Z.add_0_r. done. }
        replace (r + Z.of_nat (S i) * dRow) with (r + dRow + Z.of_nat i * dRow) by lia.
        replace (c + Z.of_nat (S i) * dCol) with (c + dCol + Z.of_nat i * dCol) by lia.
        apply Hopp. lia.
      * by replace (r + Z.of_nat (S j) * dRow) with (r + dRow + Z.of_nat j * dRow) by lia;
           replace (c + Z.of_nat (S j) * dCol) with (c + dCol + Z.of_nat j * dCol) by lia.
      * by replace (r + Z.of_nat (S j) * dRow) with (r + dRow + Z.of_nat j * dRow) by lia;
           replace (c + Z.of_nat (S j) * dCol) with (c + dCol + Z.of_nat j * dCol) by lia.
      * right. lia.
    + intros (j & Hj & Hopp & Hjin & Hown & _). destruct j as [|j].
      { rewrite !Z.mul_0_l, !Z.add_0_r in Hown. by destruct Hown. }
      exists j. split; [lia|]. split; [|split; [|split]].
      * intros i Hi.
        replace (r + dRow + Z.of_nat i * dRow) with (r + Z.of_nat (S i) * dRow) by lia.
        replace (c + dCol + Z.of_nat i * dCol) with (c + Z.of_nat (S i) * dCol) by lia.
        apply Hopp. lia.
      * by replace (r + dRow + Z.of_nat j * dRow) with (r + Z.of_nat (S j) * dRow) by lia;
           replace (c + dCol + Z.of_nat j * dCol) with (c + Z.of_nat (S j) * dCol) by lia.
      * by replace (r + dRow + Z.of_nat j * dRow) with (r + Z.of_nat (S j) * dRow) by lia;
           replace (c + dCol + Z.of_nat j * dCol) with (c + Z.of_nat (S j) * dCol) by lia.
      * by left.
  - rewrite (bool_decide_eq_false_2 _ Hc). apply dec_stable in Hc.
    split.
    + intros Hh. exists 0%nat. split; [lia|]. split; [|split; [|split]].
      * intros i Hi. lia.
      * by rewrite !Z.mul_0_l, !Z.add_0_r.
      * by rewrite !Z.mul_0_l, !Z.add_0_r.
      * left. by destruct h.
    + intros (j & _ & Hopp & _ & _ & Hh). destruct j as [|j].
      * destruct Hh as [Hh|Hh]; [|lia]. by rewrite Hh.
      * destruct (Hopp 0%nat) as [_ [_ Ho]]; [lia|].
        rewrite !Z.mul_0_l, !Z.add_0_r in Ho. done.
Qed.

(** A run that stays on the board along a direction is shorter than the
    board is wide: the scan never runs out of fuel. *)
Lemma run_short dRow dCol r c (j : nat) :
  isDirection dRow dCol →
  inBoard r c = true → inBoard (r + Z.of_nat j * dRow) (c + Z.of_nat j * dCol) = true →
  (j < 8)%nat.
Proof.
  intros (Hr & Hc & Hne) [? ?]%inBoard_spec [? ?]%inBoard_spec. nia.
Qed.

Lemma scanFinds_short board color dRow dCol r c h j :
  isDirection dRow dCol → scanFinds board color dRow dCol r c h j →
  (j < 8)%nat.
Proof.
  intros Hd (Hopp & Hjin & _ & _). destruct j as [|j]; [lia|].
  destruct (Hopp 0%nat) as [Hin _]; [lia|].
  rewrite !Z.mul_0_l, !Z.add_0_r in Hin. by eapply run_short.
Qed.

(** More fuel than [LOOP_FUEL] changes nothing. *)
Lemma scanLine_fuel fuel board color dRow dCol r c h :
  isDirection dRow dCol → (LOOP_FUEL ≤ fuel)%nat →
  scanLine fuel board color dRow dCol r c h
  = scanLine LOOP_FUEL board color dRow dCol r c h.
Proof.
  intros Hd Hfuel. apply eq_true_iff_eq. rewrite !scanLine_true.
  split; intros (j & Hj & Hf); exists j; (split; [|done]);
    pose proof (scanFinds_short _ _ _ _ _ _ _ _ Hd Hf); unfold LOOP_FUEL in *; lia.
Qed.

Lemma isValidMove_spec board color row col :
  isValidMove board color row col = true ↔ legalDestination board color row col.
Proof.
  unfold isValidMove, legalDestination.
  destruct (decide (cellAt board row col = None)) as [Hn|Hn].
  2:{ rewrite bool_decide_eq_true_2 by done. split; [done|]. by intros [? _]. }
  rewrite bool_decide_eq_false_2 by (intros ?; done).
  rewrite existsb_exists. split.
  - intros ([dRow dCol] & Hd%list_elem_of_In%DIRECTIONS_spec & Hscan).
    split; [done|].
    apply scanLine_true in Hscan as (j & Hj & Hopp & Hjin & Hown & Hh).
    cbn [fst snd] in *. exists dRow, dCol, j.
    split; [done|]. destruct Hh as [|Hj0]; [done|].
    split; [lia|]. split; [|split].
    + intros i Hi. destruct i as [|i]; [lia|].
      replace (row + Z.of_nat (S i) * dRow) with (row + dRow + Z.of_nat i * dRow) by lia.
      replace (col + Z.of_nat (S i) * dCol) with (col + dCol + Z.of_nat i * dCol) by lia.
      apply Hopp. lia.
    + by replace (row + Z.of_nat (j + 1) * dRow) with (row + dRow + Z.of_nat j * dRow) by lia;
         replace (col + Z.of_nat (j + 1) * dCol) with (col + dCol + Z.of_nat j * dCol) by lia.
    + by replace (row + Z.of_nat (j + 1) * dRow) with (row + dRow + Z.of_nat j * dRow) by lia;
         replace (col + Z.of_nat (j + 1) * dCol) with (col + dCol + Z.of_nat j * dCol) by lia.
  - intros (_ & dRow & dCol & k & Hd & Hk & Hopp & Hin & Hown).
    exists (dRow, dCol). split; [by apply list_elem_of_In, DIRECTIONS_spec|].
    cbn [fst snd].
    assert (Hf : scanFinds board color dRow dCol (row + dRow) (col + dCol) false k).
    { split; [|split; [|split]].
      - intros i Hi.
        replace (row + dRow + Z.of_nat i * dRow) with (row + Z.of_nat (S i) * dRow) by lia.
        replace (col + dCol + Z.of_nat i * dCol) with (col + Z.of_nat (S i) * dCol) by lia.
        apply Hopp. lia.
      - by replace (row + dRow + Z.of_nat k * dRow) with (row + Z.of_nat (k + 1) * dRow) by lia;
           replace (col + dCol + Z.of_nat k * dCol) with (col + Z.of_nat (k + 1) * dCol) by lia.
      - by replace (row + dRow + Z.of_nat k * dRow) with (row + Z.of_nat (k + 1) * dRow) by lia;
           replace (col + dCol + Z.of_nat k * dCol) with (col + Z.of_nat (k + 1) * dCol) by lia.
      - right. lia. }
    apply scanLine_true. exists k. split; [|done].
    pose proof (scanFinds_short _ _ _ _ _ _ _ _ Hd Hf). unfold LOOP_FUEL. lia.
Qed.

Lemma elem_of_allCells m :
  m ∈ allCells ↔ inBoard m.(row) m.(col) = true.
Proof.
  unfold allCells, range8. rewrite inBoard_spec. split.
  - intros (r & Hc & Hr)%list_elem_of_bind.
    apply list_elem_of_bind in Hc as (c & Hm & Hc).
    apply elem_of_seqZ in Hr, Hc. apply list_elem_of_singleton in Hm as ->.
    unfold BOARD_SIZE in *. cbn [row col]. lia.
  - intros [Hr Hc]. destruct m as [r c]. cbn [row col] in *.
    apply list_elem_of_bind. exists r. split; [|apply elem_of_seqZ; unfold BOARD_SIZE; lia].
    apply list_elem_of_bind. exists c. split; [|apply elem_of_seqZ; unfold BOARD_SIZE; lia].
    by apply list_elem_of_singleton.
Qed.

Lemma NoDup_allCells : NoDup allCells.
Proof. apply (bool_decide_unpack _). vm_compute. done. Qed.

Lemma elem_of_getValidMoves board color m :
  m ∈ getValidMoves board color
  ↔ inBoard m.(row) m.(col) = true
    ∧ isValidMove board color m.(row) m.(col) = true.
Proof.
  unfold getValidMoves. rewrite list_elem_of_filter, elem_of_allCells. tauto.
Qed.

(** ** The cells of a well-shaped board *)

Lemma length8_inv {A} (l : list A) :
  length l = 8%nat → ∃ a0 a1 a2 a3 a4 a5 a6 a7, l = [a0; a1; a2; a3; a4; a5; a6; a7].
Proof.
  intros H. do 8 (destruct l as [|? l]; [done|]). destruct l; [|done].
  by eexists _, _, _, _, _, _, _, _.
Qed.

(** The nested loops over [r] and [c] visit the cells in the order of
    [board.flat()]. *)
Lemma cells_concat {A} (d : A) (g : list (list A)) :
  wf_grid g →
  map (λ pos, gridAt d g pos.(row) pos.(col)) allCells = concat g.
Proof.
  intros [Hlen Hrows].
  destruct (length8_inv _ Hlen) as (r0 & r1 & r2 & r3 & r4 & r5 & r6 & r7 & ->).
  repeat match goal with
         | H : Forall _ (_ :: _) |- _ =>
             apply Forall_cons_1 in H as [?%length8_inv ?]
         end.
  repeat match goal with
         | H : ∃ _, _ |- _ => destruct H as [? H]
         end.
  subst. reflexivity.
Qed.

Lemma board_cells (board : Board) :
  wf_board board →
  map (λ pos, cellAt board pos.(row) pos.(col)) allCells = concat board.
Proof. apply cells_concat. Qed.

Lemma countZ_nonneg p cells : 0 ≤ countZ p cells.
Proof. induction cells as [|c cells IH]; simpl; [done|]. destruct (p c); lia. Qed.

Lemma countCells_fold color (cells : list Disk) n :
  foldl (λ n (cell : Disk),
           if bool_decide (cell = None)
           then mkCounts (n.(emptyCount) + 1) n.(myDisks) n.(oppDisks)
           else if bool_decide (cell = color)
           then mkCounts n.(emptyCount) (n.(myDisks) + 1) n.(oppDisks)
           else mkCounts n.(emptyCount) n.(myDisks) (n.(oppDisks) + 1))
        n cells
  = mkCounts (n.(emptyCount) + emptyCells cells)
             (n.(myDisks) + disksOf color cells)
             (n.(oppDisks) + disksAgainst color cells).
Proof.
  unfold emptyCells, disksOf, disksAgainst.
  revert n. induction cells as [|cell cells IH]; intros n.
  { destruct n. cbn. f_equal; lia. }
  cbn [foldl countZ]. rewrite IH. unfold isEmpty, isDiskOf, isDiskAgainst.
  destruct (decide (cell = None)) as [Hn|Hn].
  { rewrite !(bool_decide_eq_true_2 _ Hn).
    rewrite !(bool_decide_eq_false_2 (cell ≠ None)) by tauto.
    cbn. f_equal; lia. }
  rewrite !(bool_decide_eq_false_2 _ Hn), !(bool_decide_eq_true_2 (cell ≠ None) Hn).
  destruct (decide (cell = color)) as [Hc|Hc].
  - rewrite !(bool_decide_eq_true_2 _ Hc).
    rewrite !(bool_decide_eq_false_2 (cell ≠ color)) by tauto.
    cbn. f_equal; lia.
  - rewrite !(bool_decide_eq_false_2 _ Hc), !(bool_decide_eq_true_2 (cell ≠ color) Hc).
    cbn. f_equal; lia.
Qed.

Lemma countCells_spec board color :
  wf_board board →
  countCells board color
  = mkCounts (emptyCells (concat board)) (disksOf color (concat board))
             (disksAgainst color (concat board)).
Proof.
  intros Hwf. unfold countCells.
  rewrite <- (board_cells board Hwf).
  pose proof (countCells_fold color
                (map (λ pos, cellAt board pos.(row) pos.(col)) allCells)
                (mkCounts 0 0 0)) as H.
  cbn [emptyCount myDisks oppDisks] in H. rewrite !Z.add_0_l in H.
  rewrite <- H. by rewrite foldl_fmap.
Qed.

Lemma countEmpty_spec board : countEmpty board = emptyCells (concat board).
Proof.
  unfold countEmpty, emptyCells. induction (concat board) as [|c l IH]; [done|].
  rewrite filter_cons. cbn [countZ]. unfold isEmpty at 1.
  destruct (decide (c = None)) as [Hn|Hn].
  - rewrite (bool_decide_eq_true_2 _ Hn). cbn [length].
    rewrite Nat2Z.inj_succ, IH. lia.
  - rewrite (bool_decide_eq_false_2 _ Hn), IH. lia.
Qed.

Lemma countScore_fold (cells : list Disk) acc :
  foldl (λ (acc : Z * Z) (cell : Disk),
           let acc := if bool_decide (cell = Some Black)
                      then (acc.1 + 1, acc.2) else acc in
           if bool_decide (cell = Some White)
           then (acc.1, acc.2 + 1) else acc)
        acc cells
  = (acc.1 + disksOf (Some Black) cells, acc.2 + disksOf (Some White) cells).
Proof.
  unfold disksOf. revert acc.
  induction cells as [|cell cells IH]; intros [x y].
  { simpl. f_equal; lia. }
  cbn [foldl countZ]. rewrite IH.
  destruct cell as [[]|]; simpl; f_equal; lia.
Qed.

Lemma countScore_spec board :
  countScore board
  = (disksOf (Some Black) (concat board), disksOf (Some White) (concat board)).
Proof. unfold countScore. by rewrite countScore_fold. Qed.

Lemma cells_partition (cells : list Disk) :
  emptyCells cells + disksOf (Some Black) cells + disksOf (Some White) cells
  = Z.of_nat (length cells).
Proof.
  unfold emptyCells, disksOf. induction cells as [|cell cells IH]; [done|].
  cbn [countZ length]. rewrite Nat2Z.inj_succ.
  destruct cell as [[]|]; simpl; lia.
Qed.

Lemma disksAgainst_Black (cells : list Disk) :
  disksAgainst (Some Black) cells = disksOf (Some White) cells.
Proof.
  unfold disksAgainst, disksOf. induction cells as [|cell cells IH]; [done|].
  cbn [countZ]. rewrite IH. by destruct cell as [[]|].
Qed.

Lemma wf_concat_length {A} (g : list (list A)) :
  wf_grid g → length (concat g) = 64%nat.
Proof.
  intros [Hlen Hrows].
  destruct (length8_inv _ Hlen) as (r0 & r1 & r2 & r3 & r4 & r5 & r6 & r7 & ->).
  repeat match goal with
         | H : Forall _ (_ :: _) |- _ => apply Forall_cons_1 in H as [? ?]
         end.
  simpl. rewrite !length_app. simpl. lia.
Qed.

(** ** The end of the game in [evaluateBoard] *)

Lemma evaluateBoard_full board color learnedWeights :
  wf_board board → countEmpty board = 0 →
  evaluateBoard board color learnedWeights
  = inject_Z ((disksOf color (concat board)
               - disksAgainst color (concat board)) * 10000).
Proof.
  intros Hwf Hfull. unfold evaluateBoard.
  rewrite countCells_spec by done. cbn [emptyCount myDisks oppDisks].
  rewrite <- countEmpty_spec, Hfull. done.
Qed.

Lemma evaluateBoard_40_24 board learnedWeights :
  wf_board board → countScore board = (40, 24) →
  evaluateBoard board (Some Black) learnedWeights = 160000%Q.
Proof.
  intros Hwf Hscore. rewrite countScore_spec in Hscore.
  injection Hscore as Hb Hw.
  pose proof (cells_partition (concat board)) as Hpart.
  rewrite wf_concat_length in Hpart by done.
  rewrite evaluateBoard_full; [|done|rewrite countEmpty_spec; lia].
  by rewrite disksAgainst_Black, Hb, Hw.
Qed.

(** ** The three terms of [evaluateBoard] on a board that is not full *)

(** The two tests of the loops, [cell === color] and [cell === opponent],
    tell the disks of a colour from the disks of the other one. *)
Lemma own_test color (cell : Disk) :
  color ≠ None → bool_decide (cell = color) = isDiskOf color cell.
Proof. intros Hc. by destruct color as [[]|], cell as [[]|]. Qed.

Lemma opponent_test color (cell : Disk) :
  color ≠ None →
  bool_decide (cell = opponentOf color) = isDiskAgainst color cell.
Proof. intros Hc. by destruct color as [[]|], cell as [[]|]. Qed.

Lemma own_not_against color (cell : Disk) :
  isDiskOf color cell = true → isDiskAgainst color cell = false.
Proof. by destruct color as [[]|], cell as [[]|]. Qed.

(** One step of the corner loop. *)
Lemma cornerStep_spec color (cell : Disk) (score : Q) :
  color ≠ None →
  ((if bool_decide (cell = color) then score + 2000
    else if bool_decide (cell = opponentOf color) then score - 2000
    else score)
   == score + 2000 * inject_Z ((if isDiskOf color cell then 1 else 0)
                               - (if isDiskAgainst color cell then 1 else 0)))%Q.
Proof.
  intros Hc. rewrite own_test, opponent_test by done.
  destruct (isDiskOf color cell) eqn:Hown.
  - rewrite own_not_against by done. change (inject_Z (1 - 0)) with 1%Q. lra.
  - destruct (isDiskAgainst color cell).
    + change (inject_Z (0 - 1)) with (-1)%Q. lra.
    + change (inject_Z (0 - 0)) with 0%Q. lra.
Qed.

Lemma cornerScore_spec board color (score : Q) :
  color ≠ None →
  (cornerScore board color score
   == score + inject_Z (2000 * cornerDiff board color))%Q.
Proof.
  intros Hc.
  unfold cornerScore, cornerDiff, cornerCells, corners, disksOf, disksAgainst.
  cbn [foldl fst snd countZ].
  rewrite !cornerStep_spec by done.
  rewrite inject_Z_mult.
  generalize (isDiskOf color (cellAt board 0 0)),
    (isDiskOf color (cellAt board 0 7)), (isDiskOf color (cellAt board 7 0)),
    (isDiskOf color (cellAt board 7 7)), (isDiskAgainst color (cellAt board 0 0)),
    (isDiskAgainst color (cellAt board 0 7)),
    (isDiskAgainst color (cellAt board 7 0)),
    (isDiskAgainst color (cellAt board 7 7)).
  intros o1 o2 o3 o4 a1 a2 a3 a4.
  assert (H : ((if o1 then 1 else 0) + ((if o2 then 1 else 0)
                + ((if o3 then 1 else 0) + ((if o4 then 1 else 0) + 0)))
               - ((if a1 then 1 else 0) + ((if a2 then 1 else 0)
                  + ((if a3 then 1 else 0) + ((if a4 then 1 else 0) + 0)))))
              = ((if o1 then 1 else 0) - (if a1 then 1 else 0))
                + ((if o2 then 1 else 0) - (if a2 then 1 else 0))
                + ((if o3 then 1 else 0) - (if a3 then 1 else 0))
                + ((if o4 then 1 else 0) - (if a4 then 1 else 0))) by lia.
  rewrite H, !inject_Z_plus. change (inject_Z 2000) with 2000%Q. lra.
Qed.

Lemma cornerDiff_bound board color : -4 ≤ cornerDiff board color ≤ 4.
Proof.
  unfold cornerDiff, cornerCells, disksOf, disksAgainst. cbn [countZ].
  repeat match goal with
         | |- context [if ?b then _ else _] => destruct b
         end; lia.
Qed.

Section PositionFold.
Context (board : Board) (color : Disk) (learnedWeights : list (list Q)).
Hypothesis color_not_null : color ≠ None.

(** One step of the loops over the weights. *)
Lemma positionStep_spec (score : Q) (pos : Coordinate) :
  (positionStep board color learnedWeights score pos
   == score + signedWeight color (cellAt board pos.(row) pos.(col))
                           (weightAt learnedWeights pos.(row) pos.(col)))%Q.
Proof.
  unfold positionStep, signedWeight. cbv zeta.
  rewrite own_test, opponent_test by done.
  destruct (isDiskOf color _); [lra|]. destruct (isDiskAgainst color _); lra.
Qed.

Lemma position_fold_shift (cells : list Coordinate) (score : Q) :
  (foldl (positionStep board color learnedWeights) score cells
   == score
      + foldr (λ (pos : Coordinate) (sum : Q),
                 (signedWeight color (cellAt board pos.(row) pos.(col))
                               (weightAt learnedWeights pos.(row) pos.(col))
                  + sum)%Q)
              0%Q cells)%Q.
Proof.
  revert score. induction cells as [|pos cells IH]; intros score.
  { simpl. lra. }
  cbn [foldl foldr]. rewrite IH, positionStep_spec. lra.
Qed.

Lemma position_fold_bound (cells : list Coordinate) :
  weightsInRange learnedWeights →
  Forall onBoard cells →
  (- (600 * inject_Z (Z.of_nat (length cells)))
   <= foldr (λ (pos : Coordinate) (sum : Q),
               (signedWeight color (cellAt board pos.(row) pos.(col))
                             (weightAt learnedWeights pos.(row) pos.(col))
                + sum)%Q)
            0%Q cells
   <= 600 * inject_Z (Z.of_nat (length cells)))%Q.
Proof.
  intros Hw Hall. induction Hall as [|pos cells Hpos Hall IH].
  { cbn [foldr length]. change (inject_Z (Z.of_nat 0)) with 0%Q. lra. }
  cbn [foldr length]. rewrite Nat2Z.inj_succ. unfold Z.succ.
  rewrite inject_Z_plus.
  pose proof (Hw _ _ Hpos) as Hb.
  assert (Hs : (-600 <= signedWeight color (cellAt board pos.(row) pos.(col))
                          (weightAt learnedWeights pos.(row) pos.(col))
                <= 600)%Q).
  { unfold signedWeight. destruct (isDiskOf color _); [lra|].
    destruct (isDiskAgainst color _); lra. }
  change (inject_Z 1) with 1%Q. lra.
Qed.
End PositionFold.

Lemma positionScore_shift board color learnedWeights (score : Q) :
  color ≠ None →
  (positionScore board color learnedWeights score
   == score + positionSum board color learnedWeights)%Q.
Proof. intros Hc. by apply position_fold_shift. Qed.

Lemma positionSum_bound board color learnedWeights :
  weightsInRange learnedWeights →
  (-38400 <= positionSum board color learnedWeights <= 38400)%Q.
Proof.
  intros Hw.
  pose proof (position_fold_bound board color learnedWeights allCells Hw) as H.
  unfold positionSum.
  assert (Hall : Forall onBoard allCells).
  { apply list.Forall_forall. intros pos Hpos. by apply elem_of_allCells. }
  specialize (H Hall).
  change (inject_Z (Z.of_nat (length allCells))) with 64%Q in H.
  destruct H as [H1 H2]. split.
  - eapply Qle_trans; [|exact H1]. lra.
  - eapply Qle_trans; [exact H2|]. lra.
Qed.

(** The score of a board that is not full is the sum of the three terms. *)
Lemma evaluateBoard_terms board color learnedWeights :
  wf_board board → color ≠ None → countEmpty board ≠ 0 →
  (evaluateBoard board color learnedWeights
   == inject_Z (2000 * cornerDiff board color)
      + inject_Z (50 * mobilityDiff board color)
      + positionSum board color learnedWeights)%Q.
Proof.
  intros Hwf Hc Hne. unfold evaluateBoard.
  rewrite countCells_spec by done. cbn [emptyCount].
  rewrite <- countEmpty_spec.
  destruct (countEmpty board =? 0) eqn:He; [lia|].
  rewrite positionScore_shift by done. unfold mobilityScore.
  rewrite cornerScore_spec by done. fold (mobilityDiff board color).
  replace (mobilityDiff board color * 50) with (50 * mobilityDiff board color) by lia.
  lra.
Qed.

(** ** The stable sort *)

Section SortFacts.
Context {X : Type} (before : X → X → bool).
Hypothesis before_total : ∀ a b, before a b = true ∨ before b a = true.
Hypothesis before_trans :
  ∀ a b c, before a b = true → before b c = true → before a c = true.

Lemma insertSorted_perm x l : insertSorted before x l ≡ₚ x :: l.
Proof.
  induction l as [|y l IH]; cbn [insertSorted]; [done|].
  destruct (before x y); [done|]. rewrite IH. apply Permutation_swap.
Qed.

Lemma stableSort_perm l : stableSort before l ≡ₚ l.
Proof.
  induction l as [|x l IH]; [done|]. cbn [stableSort foldr].
  fold (stableSort before l). by rewrite insertSorted_perm, IH.
Qed.



End SortFacts.

(** ** Pruning *)
















(** ** The order on search values *)

Lemma ext_le_refl a : ext_le a a = true.
Proof. destruct a; simpl; try done. apply Qle_bool_iff. lra. Qed.

Lemma ext_le_trans a b c :
  ext_le a b = true → ext_le b c = true → ext_le a c = true.
Proof.
  destruct a, b, c; simpl; try done.
  rewrite !Qle_bool_iff. lra.
Qed.

Lemma ext_le_total a b : ext_le a b = false → ext_le b a = true.
Proof.
  destruct a, b; simpl; try done.
  intros H. apply Qle_bool_iff.
  destruct (Qlt_le_dec q0 q) as [Hlt|Hle]; [lra|].
  apply Qle_bool_iff in Hle. congruence.
Qed.

Lemma ext_eq_le a b : ext_eq a b = true → ext_le a b = true ∧ ext_le b a = true.
Proof. unfold ext_eq. by intros ?%andb_true_iff. Qed.

Lemma ext_max_fin a q : a ≠ PosInf → isFin (ext_max a (Fin q)).
Proof.
  intros Ha. unfold ext_max.
  destruct a as [|x|]; [|destruct (ext_le (Fin x) (Fin q))|done]; by eexists.
Qed.

Lemma ext_min_fin a q : a ≠ NegInf → isFin (ext_min a (Fin q)).
Proof.
  intros Ha. unfold ext_min.
  destruct a as [|x|]; [done|destruct (ext_le (Fin x) (Fin q))|]; by eexists.
Qed.

(** ** [minimax] returns a number *)

Lemma maxLoop_fin search board myColor beta moves maxEval alpha :
  (∀ b x y, isFin (search b x y)) →
  maxEval ≠ PosInf → (moves ≠ [] ∨ isFin maxEval) →
  isFin (maxLoop search board myColor beta moves maxEval alpha).
Proof.
  intros Hs. revert maxEval alpha.
  induction moves as [|move rest IH]; intros maxEval alpha Hne Hor; cbn [maxLoop].
  { by destruct Hor. }
  destruct (Hs (applyMove board myColor (row move) (col move)) alpha beta) as [q Hq].
  rewrite Hq. pose proof (ext_max_fin maxEval q Hne) as Hfin.
  case_match; [done|]. apply IH; [|by right].
  destruct Hfin as [q' ->]. done.
Qed.

Lemma minLoop_fin search board opponent alpha moves minEval beta :
  (∀ b x y, isFin (search b x y)) →
  minEval ≠ NegInf → (moves ≠ [] ∨ isFin minEval) →
  isFin (minLoop search board opponent alpha moves minEval beta).
Proof.
  intros Hs. revert minEval beta.
  induction moves as [|move rest IH]; intros minEval beta Hne Hor; cbn [minLoop].
  { by destruct Hor. }
  destruct (Hs (applyMove board opponent (row move) (col move)) alpha beta) as [q Hq].
  rewrite Hq. pose proof (ext_min_fin minEval q Hne) as Hfin.
  case_match; [done|]. apply IH; [|by right].
  destruct Hfin as [q' ->]. done.
Qed.

Lemma minimax_fin depth board alpha beta maximizingPlayer myColor learnedWeights :
  isFin (minimax depth board alpha beta maximizingPlayer myColor learnedWeights).
Proof.
  revert board alpha beta maximizingPlayer.
  induction depth as [|depth IH]; intros board alpha beta mp; cbn [minimax].
  { by eexists. }
  cbv zeta. case_bool_decide as Hlen.
  { case_bool_decide; [by eexists|apply IH]. }
  assert (Hne : stableSort (orderBefore learnedWeights)
                  (getValidMoves board (if mp then myColor else opponentOf myColor)) ≠ []).
  { intros Hnil. apply Hlen.
    by rewrite <- (stableSort_perm (orderBefore learnedWeights)), Hnil. }
  destruct mp.
  - apply maxLoop_fin; [intros; apply IH|done|by left].
  - apply minLoop_fin; [intros; apply IH|done|by left].
Qed.

(** ** The root loop *)

Lemma ext_gt_le a b : ext_gt a b = true → ext_le b a = true.
Proof. unfold ext_gt. intros H%negb_true_iff. by apply ext_le_total. Qed.

(** Whatever the draws, the loop ends on the starting move or on a
    candidate, and no candidate scores more than the move it ends on. *)
Lemma rootLoop_max scoreOf rand candidateMoves bestMove maxScore calls :
  ext_le maxScore (scoreOf bestMove) = true →
  let result := rootLoop scoreOf rand candidateMoves bestMove maxScore calls in
  (result = bestMove ∨ result ∈ candidateMoves)
  ∧ ext_le maxScore (scoreOf result) = true
  ∧ ∀ m, m ∈ candidateMoves → ext_le (scoreOf m) (scoreOf result) = true.
Proof.
  revert bestMove maxScore calls.
  induction candidateMoves as [|move rest IH]; intros best maxScore calls Hinv;
    cbn [rootLoop].
  { split; [by left|]. split; [done|]. intros m Hm. by apply elem_of_nil in Hm. }
  cbv zeta.
  assert (Hstep : ∀ best' max' calls',
            ext_le max' (scoreOf best') = true →
            ext_le maxScore max' = true →
            ext_le (scoreOf move) max' = true →
            (best' = best ∨ best' = move) →
            let result := rootLoop scoreOf rand rest best' max' calls' in
            (result = best ∨ result ∈ move :: rest)
            ∧ ext_le maxScore (scoreOf result) = true
            ∧ ∀ m, m ∈ move :: rest → ext_le (scoreOf m) (scoreOf result) = true).
  { intros best' max' calls' Hinv' Hmax Hmove Hbest'.
    destruct (IH best' max' calls' Hinv') as (Hres & Hle & Hall).
    split; [|split].
    - destruct Hres as [->|Hin]; [|right; by right].
      destruct Hbest' as [->| ->]; [by left|right; by left].
    - by eapply ext_le_trans.
    - intros m [->|Hm]%elem_of_cons; [|by apply Hall].
      eapply ext_le_trans; [exact Hmove|exact Hle]. }
  destruct (ext_gt (scoreOf move) maxScore) eqn:Hgt.
  { apply Hstep; auto using ext_le_refl, ext_gt_le. }
  assert (Hle : ext_le (scoreOf move) maxScore = true).
  { unfold ext_gt in Hgt. by apply negb_false_iff in Hgt. }
  destruct (ext_eq (scoreOf move) maxScore) eqn:Heq.
  - apply ext_eq_le in Heq as [_ Hge].
    destruct (Qgt_bool _ _); apply Hstep; auto using ext_le_refl.
  - apply Hstep; auto using ext_le_refl.
Qed.

(** From the initial [-Infinity], the first candidate is taken: the loop
    ends on a candidate. *)
Lemma rootLoop_candidate scoreOf rand candidateMoves bestMove calls :
  (∀ m, isFin (scoreOf m)) → candidateMoves ≠ [] →
  rootLoop scoreOf rand candidateMoves bestMove NegInf calls ∈ candidateMoves.
Proof.
  intros Hfin Hne. destruct candidateMoves as [|move rest]; [done|].
  cbn [rootLoop]. cbv zeta. destruct (Hfin move) as [q Hq]. rewrite Hq.
  cbn [ext_gt ext_le negb]. rewrite <- Hq.
  destruct (rootLoop_max scoreOf rand rest move (scoreOf move) calls
              (ext_le_refl _)) as ([->|Hin] & _ & _); [by left|by right].
Qed.

Lemma someMove_spec moves r c :
  someMove moves r c = true ↔ mkCoord r c ∈ moves.
Proof.
  unfold someMove. rewrite existsb_exists. split.
  - intros ([r' c'] & Hin%list_elem_of_In & Heq). cbn [row col] in Heq.
    apply andb_true_iff in Heq as [->%Z.eqb_eq ->%Z.eqb_eq]. done.
  - intros Hin. exists (mkCoord r c). split; [by apply list_elem_of_In|].
    cbn [row col]. by rewrite !Z.eqb_refl.
Qed.

Lemma candidatesOf_subset board validMoves depth :
  candidatesOf board validMoves depth ⊆ validMoves.
Proof.
  unfold candidatesOf. case_match; [|done].
  intros m Hm. by apply list_elem_of_filter in Hm as [_ ?].
Qed.

Lemma candidatesOf_nonempty board validMoves depth :
  validMoves ≠ [] → candidatesOf board validMoves depth ≠ [].
Proof.
  intros Hne. unfold candidatesOf.
  destruct (_ && _) eqn:Hc; [|done].
  apply andb_true_iff in Hc as [Hlen _]. apply Nat.ltb_lt in Hlen.
  intros Hnil. rewrite Hnil in Hlen. simpl in Hlen. lia.
Qed.

Lemma getBestMove_unfold rand board first rest data :
  getBestMove rand board (first :: rest) data
  = match rememberedMove board (first :: rest) data with
    | Some move => Some move
    | None =>
      let depth := searchDepth (countEmpty board) in
      Some (rootLoop (rootScore board (inferColor board first) depth
                                data.(weights)) rand
                     (candidatesOf board (first :: rest) depth) first NegInf 0)
    end.
Proof. reflexivity. Qed.

Lemma rememberedMove_valid board validMoves data move :
  rememberedMove board validMoves data = Some move → move ∈ validMoves.
Proof.
  unfold rememberedMove. cbv zeta. destruct (memGet _ _) as [memEntry|]; [|done].
  destruct (someMove _ _ _) eqn:Hsome; [|done].
  destruct (_ || _); [|done]. cbn [andb]. intros [= <-].
  by apply someMove_spec.
Qed.

Lemma rootScore_fin board aiColor depth learnedWeights move :
  isFin (rootScore board aiColor depth learnedWeights move).
Proof. apply minimax_fin. Qed.

Lemma getBestMove_valid rand board validMoves data :
  validMoves ≠ [] →
  ∃ move, getBestMove rand board validMoves data = Some move
          ∧ move ∈ validMoves.
Proof.
  intros Hne. destruct validMoves as [|first rest]; [done|].
  rewrite getBestMove_unfold.
  destruct (rememberedMove _ _ _) as [move|] eqn:Hmem.
  - exists move. split; [done|]. by eapply rememberedMove_valid.
  - eexists. split; [done|]. cbv zeta.
    eapply candidatesOf_subset. apply rootLoop_candidate.
    + intros m. apply rootScore_fin.
    + by apply candidatesOf_nonempty.
Qed.

(** The searched move is a candidate of maximal score, whatever the draws. *)
Lemma getBestMove_maximal rand board validMoves data :
  validMoves ≠ [] → rememberedMove board validMoves data = None →
  let depth := searchDepth (countEmpty board) in
  let candidateMoves := candidatesOf board validMoves depth in
  ∃ aiColor move,
    getBestMove rand board validMoves data = Some move
    ∧ move ∈ candidateMoves
    ∧ ∀ m, m ∈ candidateMoves →
           ext_le (rootScore board aiColor depth data.(weights) m)
                  (rootScore board aiColor depth data.(weights) move) = true.
Proof.
  intros Hne Hmem depth candidateMoves.
  destruct validMoves as [|first rest]; [done|].
  rewrite getBestMove_unfold, Hmem. fold depth. cbv zeta. fold candidateMoves.
  exists (inferColor board first). eexists. split; [done|]. split.
  - apply rootLoop_candidate; [intros m; apply rootScore_fin|].
    by apply candidatesOf_nonempty.
  - apply rootLoop_max. done.
Qed.

(** ** Ties at the root *)

Lemma rootLoop_all_tied scoreOf rand later current maxScore calls :
  (∀ m, m ∈ later → ext_eq (scoreOf m) maxScore = true) →
  rootLoop scoreOf rand later current maxScore calls
  = pickTie rand later current calls.
Proof.
  revert current calls.
  induction later as [|move rest IH]; intros current calls Hall; [done|].
  cbn [rootLoop pickTie]. cbv zeta.
  assert (Heq : ext_eq (scoreOf move) maxScore = true) by (apply Hall; left).
  assert (Hgt : ext_gt (scoreOf move) maxScore = false).
  { unfold ext_gt. apply ext_eq_le in Heq as [-> _]. done. }
  rewrite Hgt, Heq.
  destruct (Qgt_bool _ _); apply IH; intros m Hm; apply Hall; by right.
Qed.

Lemma rootLoop_tied scoreOf rand first later bestMove :
  isFin (scoreOf first) →
  (∀ m, m ∈ later → ext_eq (scoreOf m) (scoreOf first) = true) →
  rootLoop scoreOf rand (first :: later) bestMove NegInf 0
  = pickTie rand later first 0.
Proof.
  intros [q Hq] Hall. cbn [rootLoop]. cbv zeta. rewrite Hq.
  cbn [ext_gt ext_le negb]. rewrite <- Hq. by apply rootLoop_all_tied.
Qed.

(** The last tied candidate is the choice as soon as its own draw exceeds
    0.5, whatever the other draws and however many candidates tie. *)
Lemma pickTie_last rand later last current calls :
  Qgt_bool (rand (calls + length later)%nat) (1 # 2) = true →
  pickTie rand (later ++ [last]) current calls = last.
Proof.
  revert current calls. induction later as [|m later IH]; intros current calls H.
  - cbn [app pickTie]. cbn [length] in H. rewrite Nat.add_0_r in H. by rewrite H.
  - cbn [app pickTie]. apply IH. cbn [length] in H.
    by replace (S calls + length later)%nat with (calls + S (length later))%nat by lia.
Qed.

(** The first is the choice only if no draw exceeds 0.5. *)
Lemma pickTie_first rand later current calls :
  NoDup (current :: later) →
  pickTie rand later current calls = current →
  ∀ i, (i < length later)%nat → Qgt_bool (rand (calls + i)%nat) (1 # 2) = false.
Proof.
  revert current calls. induction later as [|m later IH]; intros current calls Hnd Hpick i Hi.
  { simpl in Hi. lia. }
  cbn [pickTie] in Hpick.
  assert (Hin : ∀ cur c, pickTie rand later cur c = cur ∨ pickTie rand later cur c ∈ later).
  { clear. induction later as [|x later IH]; intros cur c; [by left|].
    cbn [pickTie]. destruct (Qgt_bool _ _).
    - destruct (IH x (S c)) as [->|?]; right; [left|by right].
    - destruct (IH cur (S c)) as [->|?]; [by left|right; by right]. }
  apply NoDup_cons in Hnd as [Hcur Hnd].
  apply not_elem_of_cons in Hcur as [Hne Hcur].
  destruct (Qgt_bool (rand calls) (1 # 2)) eqn:Hd.
  { exfalso. destruct (Hin m (S calls)) as [Heq|Hmem].
    - rewrite Heq in Hpick. done.
    - rewrite Hpick in Hmem. done. }
  destruct i as [|i]; [by rewrite Nat.add_0_r|].
  replace (calls + S i)%nat with (S calls + i)%nat by lia.
  apply (IH current (S calls)); [|done|cbn [length] in Hi; lia].
  apply NoDup_cons in Hnd as [_ Hnd]. by apply NoDup_cons.
Qed.

Lemma pickTie_elem rand later current calls :
  pickTie rand later current calls ∈ current :: later.
Proof.
  revert current calls. induction later as [|x later IH]; intros cur c.
  { left. }
  cbn [pickTie]. destruct (Qgt_bool _ _).
  - right. apply IH.
  - pose proof (IH cur (S c)) as Hin.
    apply elem_of_cons in Hin as [Heq|Hin].
    + rewrite Heq. left.
    + right. by right.
Qed.

Lemma pickTie_ext rand rand' later current calls calls' :
  (∀ i, (i < length later)%nat → rand (calls + i)%nat = rand' (calls' + i)%nat) →
  pickTie rand later current calls = pickTie rand' later current calls'.
Proof.
  revert current calls calls'.
  induction later as [|m later IH]; intros current calls calls' H; [done|].
  cbn [pickTie]. pose proof (H 0%nat) as H0. rewrite !Nat.add_0_r in H0.
  rewrite H0 by (cbn [length]; lia). apply IH. intros i Hi.
  replace (S calls + i)%nat with (calls + S i)%nat by lia.
  replace (S calls' + i)%nat with (calls' + S i)%nat by lia.
  apply H. cbn [length]. lia.
Qed.

Lemma pickTie_drawsFrom offset rand base later current :
  pickTie (drawsFrom offset (length later) rand base) later current offset
  = pickTie rand later current 0.
Proof.
  apply pickTie_ext. intros i Hi. unfold drawsFrom.
  replace (offset <=? offset + i)%nat with true by (symmetry; apply Nat.leb_le; lia).
  replace (offset + i <? offset + length later)%nat with true
    by (symmetry; apply Nat.ltb_lt; lia).
  cbn [andb]. f_equal. lia.
Qed.

(** After the maximum is reached only the candidates that tie it draw. *)
Lemma rootLoop_reached scoreOf rand post current maxScore calls :
  (∀ m, m ∈ post → ext_le (scoreOf m) maxScore = true) →
  rootLoop scoreOf rand post current maxScore calls
  = pickTie rand (filter (λ m, ext_le maxScore (scoreOf m) = true) post)
            current calls.
Proof.
  revert current calls.
  induction post as [|m post IH]; intros current calls Hle; [done|].
  cbn [rootLoop]. cbv zeta.
  assert (Hm : ext_le (scoreOf m) maxScore = true) by (apply Hle; left).
  assert (Hpost : ∀ m', m' ∈ post → ext_le (scoreOf m') maxScore = true)
    by (intros m' Hm'; apply Hle; by right).
  unfold ext_gt, ext_eq. rewrite Hm. cbn [negb andb].
  rewrite filter_cons.
  destruct (ext_le maxScore (scoreOf m)) eqn:Hge.
  - rewrite decide_True by done. cbn [pickTie].
    destruct (Qgt_bool _ _); by apply IH.
  - rewrite decide_False by done. by apply IH.
Qed.

(** Before the maximum is reached the draws change nothing that lasts:
    the loop comes to the first maximal candidate with a lower running
    maximum, takes it, and has made [drawsMade] draws by then. *)
Lemma rootLoop_before scoreOf rand pre best post bestMove maxScore calls :
  ext_le (scoreOf best) maxScore = false →
  (∀ m, m ∈ pre → ext_le (scoreOf best) (scoreOf m) = false) →
  rootLoop scoreOf rand (pre ++ best :: post) bestMove maxScore calls
  = rootLoop scoreOf rand post best (scoreOf best)
             (calls + drawsMade scoreOf pre maxScore).
Proof.
  revert bestMove maxScore calls.
  induction pre as [|m pre IH]; intros bestMove maxScore calls Hmax Hpre.
  { cbn [app rootLoop drawsMade]. cbv zeta. unfold ext_gt. rewrite Hmax.
    cbn [negb]. by rewrite Nat.add_0_r. }
  assert (Hm : ext_le (scoreOf best) (scoreOf m) = false) by (apply Hpre; left).
  assert (Hpre' : ∀ m', m' ∈ pre → ext_le (scoreOf best) (scoreOf m') = false)
    by (intros m' Hm'; apply Hpre; by right).
  cbn [app rootLoop drawsMade]. cbv zeta.
  destruct (ext_gt (scoreOf m) maxScore); [by apply IH|].
  destruct (ext_eq (scoreOf m) maxScore).
  - replace (calls + S (drawsMade scoreOf pre maxScore))%nat
      with (S calls + drawsMade scoreOf pre maxScore)%nat by lia.
    destruct (Qgt_bool _ _); by apply IH.
  - by apply IH.
Qed.

Lemma filter_first {A} (P : A → Prop) `{∀ x, Decision (P x)} (l : list A) x xs :
  filter P l = x :: xs →
  ∃ pre post, l = pre ++ x :: post ∧ Forall (λ y, ¬ P y) pre ∧ P x
              ∧ filter P post = xs.
Proof.
  induction l as [|y l IH]; [done|]. rewrite filter_cons.
  destruct (decide (P y)) as [Hy|Hy].
  - intros [= -> <-]. by exists [], l.
  - intros (pre & post & -> & Hpre & Hx & Hpost)%IH.
    exists (y :: pre), post. split; [done|]. split; [by constructor|]. done.
Qed.

(** The mechanism of the root loop: the first candidate of maximal score
    is taken when the loop reaches it, and the later ones replace the
    choice on their own draws, which are consecutive. *)
Lemma rootLoop_mechanism scoreOf candidateMoves bestMove :
  (∀ m, isFin (scoreOf m)) → candidateMoves ≠ [] →
  ∃ best later offset,
    maximalOf scoreOf candidateMoves = best :: later
    ∧ ∀ rand,
        rootLoop scoreOf rand candidateMoves bestMove NegInf 0
        = pickTie rand later best offset.
Proof.
  intros Hfin Hne.
  set (P := λ m, Forall (λ m', ext_le (scoreOf m') (scoreOf m) = true)
                        candidateMoves).
  assert (Hsome : ∃ m, m ∈ maximalOf scoreOf candidateMoves).
  { exists (rootLoop scoreOf (λ _, 0%Q) candidateMoves bestMove NegInf 0).
    apply list_elem_of_filter. split.
    - apply list.Forall_forall. intros m Hm.
      destruct candidateMoves as [|c0 rest]; [done|].
      revert m Hm. cbn [rootLoop]. cbv zeta. destruct (Hfin c0) as [q Hq].
      rewrite Hq. cbn [ext_gt ext_le negb]. rewrite <- Hq.
      destruct (rootLoop_max scoreOf (λ _, 0%Q) rest c0 (scoreOf c0) 0%nat
                  (ext_le_refl _)) as (_ & Hc0 & Hrest).
      intros m [->|Hm]%elem_of_cons; [done|by apply Hrest].
    - by apply rootLoop_candidate. }
  destruct (maximalOf scoreOf candidateMoves) as [|best later] eqn:Hmax.
  { destruct Hsome as [m Hm]. by apply elem_of_nil in Hm. }
  clear Hsome. unfold maximalOf in Hmax. fold P in Hmax.
  destruct (filter_first P candidateMoves best later Hmax)
    as (pre & post & Hsplit & Hpre & Hbest & Hpost).
  assert (Hin : best ∈ candidateMoves).
  { rewrite Hsplit. apply elem_of_app. right. left. }
  assert (Hiff : ∀ m, P m ↔ ext_le (scoreOf best) (scoreOf m) = true).
  { intros m. split.
    - intros Hm. unfold P in Hm. rewrite list.Forall_forall in Hm. by apply Hm.
    - intros Hm. unfold P in *. rewrite list.Forall_forall in Hbest |- *.
      intros m' Hm'. eapply ext_le_trans; [by apply Hbest|done]. }
  exists best, later, (drawsMade scoreOf pre NegInf). split; [done|].
  intros rand. rewrite Hsplit.
  rewrite rootLoop_before.
  - rewrite rootLoop_reached.
    + rewrite Nat.add_0_l. f_equal. rewrite <- Hpost.
      apply list_filter_iff. intros m. by rewrite Hiff.
    + intros m Hm. unfold P in Hbest. rewrite list.Forall_forall in Hbest.
      apply Hbest. rewrite Hsplit. apply elem_of_app. right. by right.
  - by destruct (Hfin best) as [q ->].
  - intros m Hm. rewrite list.Forall_forall in Hpre.
    destruct (ext_le (scoreOf best) (scoreOf m)) eqn:Hle; [|done].
    exfalso. by apply (Hpre m Hm), Hiff.
Qed.

(** ** The outcomes of the draws *)

Lemma randOf_cons b bs i : randOf (b :: bs) (S i) = randOf bs i.
Proof. reflexivity. Qed.

Lemma randOf_head b bs : Qgt_bool (randOf (b :: bs) 0) (1 # 2) = b.
Proof. by destruct b. Qed.

Lemma pickTie_cons_draw b bs m rest current :
  pickTie (randOf (b :: bs)) (m :: rest) current 0
  = pickTie (randOf bs) rest (if b then m else current) 0.
Proof.
  cbn [pickTie]. rewrite randOf_head. apply pickTie_ext. intros i _.
  by rewrite Nat.add_0_l.
Qed.

Lemma filter_outcomes (P : list bool → Prop) `{∀ bs, Decision (P bs)}
    (L : list (list bool)) :
  length (filter P (bs ← L; [true :: bs; false :: bs]))
  = (length (filter (λ bs, P (true :: bs)) L)
     + length (filter (λ bs, P (false :: bs)) L))%nat.
Proof.
  induction L as [|bs L IH]; [done|].
  rewrite bind_cons. cbn [app]. rewrite !filter_cons.
  destruct (decide (P (true :: bs))), (decide (P (false :: bs)));
    cbn [length]; rewrite IH; lia.
Qed.

Lemma tieCount_cons m rest current x :
  tieCount (m :: rest) current x
  = (tieCount rest m x + tieCount rest current x)%nat.
Proof.
  unfold tieCount. cbn [length boolLists]. rewrite filter_outcomes.
  f_equal; f_equal; apply list_filter_iff; intros bs;
    by rewrite pickTie_cons_draw.
Qed.

Lemma tieCount_other later current x :
  x ∉ current :: later → tieCount later current x = 0%nat.
Proof.
  intros Hx. unfold tieCount.
  induction (boolLists (length later)) as [|bs L IH]; [done|].
  rewrite filter_cons_False; [done|].
  intros Heq. apply Hx. rewrite <- Heq. apply pickTie_elem.
Qed.

Lemma tieCount_first later current :
  NoDup (current :: later) → tieCount later current current = 1%nat.
Proof.
  revert current. induction later as [|m later IH]; intros current Hnd.
  { unfold tieCount. cbn [length boolLists pickTie]. rewrite filter_cons.
    by rewrite decide_True. }
  rewrite tieCount_cons.
  apply NoDup_cons in Hnd as [Hcur Hnd].
  apply not_elem_of_cons in Hcur as [Hne Hcur].
  apply NoDup_cons in Hnd as [Hm Hnd].
  rewrite tieCount_other, IH; [done|by apply NoDup_cons|].
  intros [->|Hin]%elem_of_cons; done.
Qed.

Lemma tieCount_later later current j x :
  NoDup (current :: later) → later !! j = Some x →
  tieCount later current x = (2 ^ j)%nat.
Proof.
  revert current j. induction later as [|m later IH]; intros current j Hnd Hj.
  { done. }
  rewrite tieCount_cons.
  apply NoDup_cons in Hnd as [Hcur Hnd].
  apply not_elem_of_cons in Hcur as [Hne Hcur].
  pose proof Hnd as Hnd'. apply NoDup_cons in Hnd' as [Hm Hlater].
  destruct j as [|j]; cbn [lookup list_lookup] in Hj.
  - injection Hj as <-. rewrite tieCount_first by done.
    rewrite tieCount_other; [done|].
    intros [->|Hin]%elem_of_cons; done.
  - rewrite (IH m j), (IH current j); [|by apply NoDup_cons|done|done|done].
    cbn [Nat.pow]. lia.
Qed.

(** The choice among the maximal candidates, counted over the outcomes of
    the draws that decide it. *)
Lemma returnCount_ties (f : (nat → Q) → option Coordinate) later best x :
  (∀ draws, f draws = Some (pickTie draws later best 0)) →
  returnCount (length later) f x = tieCount later best x.
Proof.
  intros Hf. unfold returnCount, tieCount. f_equal.
  apply list_filter_iff. intros bs. rewrite Hf. split; [by intros [= ->]|].
  by intros ->.
Qed.

(** ** The search depth *)

Lemma searchDepth_spec e :
  (e ≤ 12 → searchDepth e = 12%nat)
  ∧ (12 < e ≤ 16 → searchDepth e = 6%nat)
  ∧ (16 < e → searchDepth e = 4%nat).
Proof.
  unfold searchDepth. repeat split; intros H.
  - by replace (e <=? 12) with true by lia.
  - replace (e <=? 12) with false by lia. by replace (e <=? 16) with true by lia.
  - replace (e <=? 12) with false by lia. by replace (e <=? 16) with false by lia.
Qed.

(** ** [trainBrain]: the weight updates on values *)

Lemma Qgt_bool_spec x y : Qgt_bool x y = true ↔ (y < x)%Q.
Proof.
  unfold Qgt_bool. rewrite negb_true_iff. split.
  - intros H. destruct (Qlt_le_dec y x) as [|Hle]; [done|].
    apply Qle_bool_iff in Hle. congruence.
  - intros H. destruct (Qle_bool x y) eqn:E; [|done].
    apply Qle_bool_iff in E. lra.
Qed.

Lemma Qlt_bool_spec x y : Qlt_bool x y = true ↔ (x < y)%Q.
Proof. apply Qgt_bool_spec. Qed.

Lemma clamp_range x : (-600 <= clamp x <= 600)%Q.
Proof.
  unfold clamp. destruct (Qgt_bool x 600) eqn:Hg; [lra|].
  destruct (Qlt_bool x (-600)) eqn:Hl; [lra|].
  assert (¬ (600 < x)%Q) by (rewrite <- Qgt_bool_spec; congruence).
  assert (¬ (x < -600)%Q) by (rewrite <- Qlt_bool_spec; congruence).
  lra.
Qed.

Lemma clamp_id x : (-600 <= x <= 600)%Q → clamp x = x.
Proof.
  intros H. unfold clamp.
  destruct (Qgt_bool x 600) eqn:Hg; [apply Qgt_bool_spec in Hg; lra|].
  destruct (Qlt_bool x (-600)) eqn:Hl; [apply Qlt_bool_spec in Hl; lra|done].
Qed.

Lemma bumpStep_wf winner w turn : wf_grid w → wf_grid (bumpStep winner w turn).
Proof. intros H. unfold bumpStep. cbv zeta. case_bool_decide; by apply gridSet_wf. Qed.

Lemma clampStep_wf w pos : wf_grid w → wf_grid (clampStep w pos).
Proof.
  intros H. unfold clampStep. cbv zeta.
  repeat case_match; repeat apply gridSet_wf; done.
Qed.

Lemma bumpStep_at winner w turn r c :
  wf_grid w → turnOnBoard turn → inBoard r c = true →
  (weightAt (bumpStep winner w turn) r c
   == weightAt w r c
      + (1 # 2) * inject_Z (winnerMovesAt winner [turn] r c)
      - (1 # 4) * inject_Z (otherMovesAt winner [turn] r c))%Q.
Proof.
  intros Hwf Hturn Hin. unfold bumpStep, weightAt. cbv zeta.
  cbn [winnerMovesAt otherMovesAt]. rewrite !Z.add_0_r.
  apply inBoard_spec in Hin as Hrc.
  destruct (decide (move turn = mkCoord r c)) as [Heq|Hne].
  - rewrite !(bool_decide_eq_true_2 _ Heq). rewrite Heq. cbn [row col andb].
    destruct (decide (color turn = winner)) as [Hc|Hc].
    + rewrite !(bool_decide_eq_true_2 _ Hc).
      rewrite !(bool_decide_eq_false_2 (color turn ≠ winner)) by tauto.
      rewrite gridAt_gridSet_eq by done. change (inject_Z 1) with 1%Q.
      change (inject_Z 0) with 0%Q. lra.
    + rewrite !(bool_decide_eq_false_2 _ Hc).
      rewrite !(bool_decide_eq_true_2 (color turn ≠ winner)) by done.
      rewrite gridAt_gridSet_eq by done. change (inject_Z 1) with 1%Q.
      change (inject_Z 0) with 0%Q. lra.
  - rewrite !(bool_decide_eq_false_2 _ Hne). cbn [andb].
    change (inject_Z 0) with 0%Q.
    assert (Hpos : (row (move turn), col (move turn)) ≠ (r, c)).
    { intros [= Hr Hc]. apply Hne. destruct (move turn). simpl in *. congruence. }
    case_bool_decide; rewrite gridAt_gridSet_ne by (done || lia); lra.
Qed.

Lemma bump_all winner gameHistory :
  ∀ w r c,
    wf_grid w → Forall turnOnBoard gameHistory → inBoard r c = true →
    (weightAt (foldl (bumpStep winner) w gameHistory) r c
     == weightAt w r c
        + (1 # 2) * inject_Z (winnerMovesAt winner gameHistory r c)
        - (1 # 4) * inject_Z (otherMovesAt winner gameHistory r c))%Q.
Proof.
  induction gameHistory as [|turn rest IH]; intros w r c Hwf Hall Hin.
  { cbn [foldl winnerMovesAt otherMovesAt]. change (inject_Z 0) with 0%Q. lra. }
  apply Forall_cons_1 in Hall as [Hturn Hall].
  cbn [foldl]. rewrite IH by (done || by apply bumpStep_wf).
  rewrite bumpStep_at by done.
  cbn [winnerMovesAt otherMovesAt]. rewrite !Z.add_0_r, !inject_Z_plus. lra.
Qed.

Lemma clampStep_at w pos :
  wf_grid w → onBoard pos →
  weightAt (clampStep w pos) pos.(row) pos.(col)
  = clamp (weightAt w pos.(row) pos.(col)).
Proof.
  intros Hwf Hin. unfold clampStep, clamp, weightAt. cbv zeta.
  destruct (Qgt_bool _ 600) eqn:Hg.
  - rewrite gridAt_gridSet_eq by done.
    change (Qlt_bool 600 (-600)) with false. cbn iota.
    by rewrite gridAt_gridSet_eq.
  - destruct (Qlt_bool _ (-600)) eqn:Hl; [|done].
    by rewrite gridAt_gridSet_eq.
Qed.

Lemma clampStep_other w pos r c :
  (pos.(row), pos.(col)) ≠ (r, c) → 0 ≤ r → 0 ≤ c →
  weightAt (clampStep w pos) r c = weightAt w r c.
Proof.
  intros Hne Hr Hc. unfold clampStep, weightAt. cbv zeta.
  repeat case_match; rewrite ?gridAt_gridSet_ne by done; done.
Qed.

Lemma clamp_all cells :
  ∀ w r c,
    wf_grid w → NoDup cells → Forall onBoard cells → inBoard r c = true →
    weightAt (foldl clampStep w cells) r c
    = if bool_decide (mkCoord r c ∈ cells) then clamp (weightAt w r c)
      else weightAt w r c.
Proof.
  induction cells as [|pos cells IH]; intros w r c Hwf Hnd Hall Hin.
  { by rewrite bool_decide_eq_false_2 by apply not_elem_of_nil. }
  apply NoDup_cons in Hnd as [Hpos Hnd].
  apply Forall_cons_1 in Hall as [Hon Hall].
  cbn [foldl]. rewrite IH by (done || by apply clampStep_wf).
  apply inBoard_spec in Hin as Hrc.
  destruct (decide (pos = mkCoord r c)) as [->|Hne].
  - rewrite (bool_decide_eq_false_2 _ Hpos).
    rewrite bool_decide_eq_true_2 by left.
    exact (clampStep_at w (mkCoord r c) Hwf Hon).
  - assert (Hne' : (row pos, col pos) ≠ (r, c)).
    { intros [= Hr Hc]. apply Hne. destruct pos. simpl in *. congruence. }
    rewrite clampStep_other by (done || lia).
    destruct (decide (mkCoord r c ∈ cells)) as [Hm|Hm].
    + rewrite !bool_decide_eq_true_2; [done|by right|done].
    + rewrite !bool_decide_eq_false_2; [done| |done].
      intros [?|?]%elem_of_cons; congruence.
Qed.

(** The weights after the two loops, cell by cell. *)
Lemma trained_weights winner gameHistory w r c :
  wf_grid w → Forall turnOnBoard gameHistory → inBoard r c = true →
  let w' := foldl clampStep (foldl (bumpStep winner) w gameHistory) allCells in
  (weightAt w' r c
   == clamp (weightAt w r c
             + (1 # 2) * inject_Z (winnerMovesAt winner gameHistory r c)
             - (1 # 4) * inject_Z (otherMovesAt winner gameHistory r c)))%Q
  ∧ (-600 <= weightAt w' r c <= 600)%Q.
Proof.
  intros Hwf Hall Hin. cbv zeta.
  assert (Hwf' : wf_grid (foldl (bumpStep winner) w gameHistory)).
  { clear Hall. revert w Hwf. induction gameHistory as [|t rest IH]; intros w Hwf; [done|].
    cbn [foldl]. apply IH. by apply bumpStep_wf. }
  assert (Hcells : Forall onBoard allCells).
  { apply list.Forall_forall. intros pos Hpos. by apply elem_of_allCells. }
  rewrite clamp_all by (done || apply NoDup_allCells).
  rewrite bool_decide_eq_true_2 by by apply elem_of_allCells.
  split; [|apply clamp_range].
  pose proof (bump_all winner gameHistory w r c Hwf Hall Hin) as Hb.
  set (x := weightAt (foldl (bumpStep winner) w gameHistory) r c) in *.
  set (y := (weightAt w r c + _ - _)%Q) in *.
  clearbody x y. unfold clamp.
  assert (Hg : Qgt_bool x 600 = Qgt_bool y 600).
  { unfold Qgt_bool. by rewrite Hb. }
  assert (Hl : Qlt_bool x (-600) = Qlt_bool y (-600)).
  { unfold Qlt_bool. by rewrite Hb. }
  rewrite Hg, Hl. repeat case_match; done || reflexivity.
Qed.

(** ** [trainBrainM] works on a copy *)

(** A loop whose body turns the value of a private grid by [step] turns it
    by the fold of [step]. *)
Lemma forEachS_private {A X} (body : X → M A unit)
    (step : list (list A) → X → list (list A)) (P : X → Prop)
    (s0 : store A) (g : loc) (ls : list loc) :
  (∀ x s b, P x → private s0 s g ls b → wf_grid b →
            ∃ s', body x s = Done () s' ∧ private s0 s' g ls (step b x)) →
  (∀ x b, wf_grid b → wf_grid (step b x)) →
  ∀ xs s b, Forall P xs → private s0 s g ls b → wf_grid b →
            ∃ s', forEachS body xs s = Done () s'
                  ∧ private s0 s' g ls (foldl step b xs).
Proof.
  intros Hbody Hwf xs. induction xs as [|x xs IH]; intros s b Hall Hp Hb.
  { by exists s. }
  apply Forall_cons_1 in Hall as [Hx Hall].
  destruct (Hbody x s b Hx Hp Hb) as (s1 & Hrun & Hp1).
  destruct (IH s1 (step b x) Hall Hp1 (Hwf _ _ Hb)) as (s' & Hrun' & Hp').
  exists s'. split; [|done]. cbn [forEachS foldl]. by erewrite bind_Done.
Qed.

Lemma addHalf_private s0 s g ls (w : list (list Q)) r c :
  private s0 s g ls w → wf_grid w → inBoard r c = true →
  ∃ s', addHalf g r c s = Done () s'
        ∧ private s0 s' g ls (gridSet w r c (weightAt w r c + (1 # 2))%Q).
Proof.
  intros Hp Hwf Hin. unfold addHalf.
  rewrite (bind_Done _ _ _ _ _ (readCell_private 0%Q _ _ _ _ _ r c Hp Hwf Hin)).
  by apply writeCell_private.
Qed.

Lemma subQuarter_private s0 s g ls (w : list (list Q)) r c :
  private s0 s g ls w → wf_grid w → inBoard r c = true →
  ∃ s', subQuarter g r c s = Done () s'
        ∧ private s0 s' g ls (gridSet w r c (weightAt w r c - (1 # 4))%Q).
Proof.
  intros Hp Hwf Hin. unfold subQuarter.
  rewrite (bind_Done _ _ _ _ _ (readCell_private 0%Q _ _ _ _ _ r c Hp Hwf Hin)).
  by apply writeCell_private.
Qed.

Lemma clampCell_private s0 s g ls (w : list (list Q)) pos :
  private s0 s g ls w → wf_grid w → onBoard pos →
  ∃ s', clampCell g pos.(row) pos.(col) s = Done () s'
        ∧ private s0 s' g ls (clampStep w pos).
Proof.
  intros Hp Hwf Hin. unfold clampCell, clampStep. cbv zeta.
  assert (H1 : ∃ s1,
    (let* x := readCell g (row pos) (col pos) in
     if Qgt_bool x 600 then writeCell g (row pos) (col pos) 600%Q else ret ()) s
    = Done () s1
    ∧ private s0 s1 g ls
        (if Qgt_bool (weightAt w (row pos) (col pos)) 600
         then gridSet w (row pos) (col pos) 600%Q else w)).
  { rewrite (bind_Done _ _ _ _ _
               (readCell_private 0%Q _ _ _ _ _ _ _ Hp Hwf Hin)).
    fold (weightAt w (row pos) (col pos)).
    destruct (Qgt_bool _ _); [by apply writeCell_private|by exists s]. }
  destruct H1 as (s1 & Hrun1 & Hp1).
  set (w1 := if Qgt_bool _ _ then _ else w) in *.
  assert (Hwf1 : wf_grid w1).
  { unfold w1. destruct (Qgt_bool _ _); [by apply gridSet_wf|done]. }
  rewrite (bind_Done _ _ _ _ _ Hrun1).
  rewrite (bind_Done _ _ _ _ _
             (readCell_private 0%Q _ _ _ _ _ _ _ Hp1 Hwf1 Hin)).
  fold (weightAt w1 (row pos) (col pos)).
  destruct (Qlt_bool _ _); [by apply writeCell_private|by exists s1].
Qed.

(** [trainBrainM] with a winner: it returns; the weights of the result are
    a grid of rows created by the call, holding the input weights after
    the update loop and the clamping loop; the store of before is intact. *)
Lemma trainBrainM_spec now s currentData gameHistory winner
    (w : list (list Q)) :
  gridVal s currentData.(weights) = Some w → wf_grid w →
  Forall turnOnBoard gameHistory → winner ≠ None →
  ∃ newData ls s',
    trainBrainM now currentData gameHistory winner s = Done newData s'
    ∧ private s s' newData.(weights) ls
        (foldl clampStep (foldl (bumpStep winner) w gameHistory) allCells).
Proof.
  intros Hval Hwf Hall Hwin.
  destruct (copyGrid_spec _ _ _ Hval) as (g & ls & s1 & Hcopy & Hp1).
  destruct (forEachS_private
              (λ turn : Turn,
                 if bool_decide (turn.(color) = winner)
                 then addHalf g turn.(move).(row) turn.(move).(col)
                 else subQuarter g turn.(move).(row) turn.(move).(col))
              (bumpStep winner) turnOnBoard s g ls) with
    (xs := gameHistory) (s := s1) (b := w) as (s2 & Hrun2 & Hp2); try done.
  { intros turn s' b Hturn Hp Hb. unfold bumpStep. cbv zeta.
    case_bool_decide; [by apply addHalf_private|by apply subQuarter_private]. }
  { intros turn b. apply bumpStep_wf. }
  assert (Hwf2 : wf_grid (foldl (bumpStep winner) w gameHistory)).
  { clear -Hwf. revert w Hwf. induction gameHistory as [|t rest IH]; intros w Hwf; [done|].
    cbn [foldl]. apply IH. by apply bumpStep_wf. }
  destruct (forEachS_private
              (λ pos : Coordinate, clampCell g pos.(row) pos.(col))
              clampStep onBoard s g ls) with
    (xs := allCells) (s := s2) (b := foldl (bumpStep winner) w gameHistory)
    as (s3 & Hrun3 & Hp3); try done.
  { intros pos s' b Hpos Hp Hb. by apply clampCell_private. }
  { intros pos b. apply clampStep_wf. }
  { apply list.Forall_forall. intros pos Hpos. by apply elem_of_allCells. }
  eexists _, ls, s3. split.
  - unfold trainBrainM. rewrite (bind_Done _ _ _ _ _ Hcopy).
    rewrite bool_decide_eq_false_2 by done.
    rewrite (bind_Done _ _ _ _ _ Hrun2), (bind_Done _ _ _ _ _ Hrun3).
    reflexivity.
  - exact Hp3.
Qed.

(** Without a winner the copy is returned as it is. *)
Lemma trainBrainM_draw now s currentData gameHistory (w : list (list Q)) :
  gridVal s currentData.(weights) = Some w →
  ∃ newData ls s',
    trainBrainM now currentData gameHistory None s = Done newData s'
    ∧ private s s' newData.(weights) ls w.
Proof.
  intros Hval.
  destruct (copyGrid_spec _ _ _ Hval) as (g & ls & s1 & Hcopy & Hp1).
  eexists _, ls, s1. split.
  - unfold trainBrainM. by rewrite (bind_Done _ _ _ _ _ Hcopy).
  - exact Hp1.
Qed.

(** ** Checks by computation *)

Lemma weightsInRangeb_sound learnedWeights :
  weightsInRangeb learnedWeights = true → weightsInRange learnedWeights.
Proof.
  unfold weightsInRangeb. rewrite forallb_forall. intros H r c Hin.
  specialize (H (mkCoord r c)). cbn [row col] in H.
  rewrite andb_true_iff, !Qle_bool_iff in H. apply H.
  apply list_elem_of_In. by apply elem_of_allCells.
Qed.

Lemma wf_check {A} (g : list (list A)) :
  bool_decide (length g = 8%nat)
  && forallb (λ line, bool_decide (length line = 8%nat)) g = true →
  wf_grid g.
Proof.
  intros [H1 H2]%andb_true_iff. split; [by apply bool_decide_eq_true in H1|].
  apply list.Forall_forall. intros line Hl. rewrite forallb_forall in H2.
  apply list_elem_of_In in Hl. by apply H2, bool_decide_eq_true in Hl.
Qed.

(** ** [flipLine] never runs out of fuel *)

Lemma flipLine_steps n :
  ∀ fuel fuel' board color dRow dCol r c flips,
    inBoard (r + Z.of_nat n * dRow) (c + Z.of_nat n * dCol) = false →
    (n < fuel)%nat → (n < fuel')%nat →
    flipLine fuel board color dRow dCol r c flips
    = flipLine fuel' board color dRow dCol r c flips.
Proof.
  induction n as [|n IH]; intros fuel fuel' board color dRow dCol r c flips Hout Hf Hf'.
  - rewrite !Z.mul_0_l, !Z.add_0_r in Hout.
    destruct fuel as [|fuel]; [lia|]. destruct fuel' as [|fuel']; [lia|].
    cbn [flipLine]. by rewrite Hout.
  - destruct fuel as [|fuel]; [lia|]. destruct fuel' as [|fuel']; [lia|].
    cbn [flipLine]. destruct (inBoard r c); [|done].
    destruct (bool_decide _); [done|]. destruct (bool_decide _); [|done].
    apply IH; [|lia|lia].
    by replace (r + dRow + Z.of_nat n * dRow) with (r + Z.of_nat (S n) * dRow) by lia;
       replace (c + dCol + Z.of_nat n * dCol) with (c + Z.of_nat (S n) * dCol) by lia.
Qed.

Lemma flipLine_fuel fuel board color dRow dCol r c flips :
  isDirection dRow dCol → (LOOP_FUEL ≤ fuel)%nat →
  flipLine fuel board color dRow dCol r c flips
  = flipLine LOOP_FUEL board color dRow dCol r c flips.
Proof.
  intros Hd Hfuel. unfold LOOP_FUEL in *.
  destruct (inBoard r c) eqn:Hin.
  - apply (flipLine_steps 8); [|lia|lia].
    destruct (inBoard (r + Z.of_nat 8 * dRow) (c + Z.of_nat 8 * dCol)) eqn:Hout; [|done].
    pose proof (run_short _ _ _ _ _ Hd Hin Hout). lia.
  - apply (flipLine_steps 0); [|lia|lia].
    by rewrite !Z.mul_0_l, !Z.add_0_r.
Qed.

(** ** The disk stays where [applyMove] puts it *)

Lemma flipAll_keeps (b : Board) color flips r c :
  wf_board b → inBoard r c = true → cellAt b r c = color →
  Forall onBoard flips →
  cellAt (foldl (λ b pos, gridSet b pos.(row) pos.(col) color) b flips) r c
  = color.
Proof.
  intros Hwf Hin Hcell Hall. revert b Hwf Hcell.
  induction Hall as [|pos flips Hpos Hall IH]; intros b Hwf Hcell; [done|].
  cbn [foldl]. apply IH; [by apply gridSet_wf|].
  apply inBoard_spec in Hin as Hrc. unfold cellAt.
  destruct (decide ((row pos, col pos) = (r, c))) as [[= -> ->]|Hne].
  - by apply gridAt_gridSet_eq.
  - rewrite gridAt_gridSet_ne by (done || lia). done.
Qed.

Lemma flipLine_keeps fuel (b : Board) color dRow dCol r c flips row col :
  wf_board b → inBoard row col = true → cellAt b row col = color →
  Forall onBoard flips →
  cellAt (flipLine fuel b color dRow dCol r c flips) row col = color.
Proof.
  intros Hwf Hin Hcell. revert r c flips.
  induction fuel as [|fuel IH]; intros r c flips Hall; cbn [flipLine]; [done|].
  destruct (inBoard r c) eqn:Hrc; [|done].
  destruct (bool_decide _); [done|]. destruct (bool_decide _).
  - apply IH. apply Forall_app. split; [done|]. by constructor.
  - destruct (0 <? length flips)%nat; [|done]. by apply flipAll_keeps.
Qed.

Lemma applyMove_placed (b : Board) color row col :
  wf_board b → inBoard row col = true →
  cellAt (applyMove b color row col) row col = color.
Proof.
  intros Hwf Hin. unfold applyMove.
  assert (Hwf' : wf_board (gridSet b row col color)) by by apply gridSet_wf.
  assert (Hcell : cellAt (gridSet b row col color) row col = color)
    by by apply gridAt_gridSet_eq.
  revert Hwf' Hcell. generalize (gridSet b row col color). generalize DIRECTIONS.
  induction l as [|d ds IH]; intros nb Hnb Hcell; cbn [foldl]; [done|].
  apply IH; [by apply flipLine_wf|]. by apply flipLine_keeps.
Qed.

(** ** The positions and stores used below *)

Lemma initialStore_holds :
  gridVal initialStore.2 initialStore.1 = Some createInitialBoard.
Proof. vm_compute. reflexivity. Qed.

Lemma createInitialBoard_wf : wf_board createInitialBoard.
Proof. apply wf_check. vm_compute. reflexivity. Qed.

(** The one way [applyMove] fails has nothing to do with legality: a row
    outside the grid makes the write throw, after the copy was made; the
    board it was given is intact then too. *)
Lemma applyMove_row_outside :
  ∃ s', applyMoveM initialStore.1 (Some Black) 8 0 initialStore.2
        = TypeError s'
        ∧ gridVal s' initialStore.1 = Some createInitialBoard.
Proof.
  let v := eval vm_compute in
           (applyMoveM initialStore.1 (Some Black) 8 0 initialStore.2) in
  match v with
  | TypeError ?s => exists s
  end.
  split; vm_compute; reflexivity.
Qed.


Lemma openingMoves_eq :
  openingMoves = [mkCoord 2 3; mkCoord 3 2; mkCoord 4 5; mkCoord 5 4].
Proof. vm_compute. reflexivity. Qed.

Lemma inject_Z_pos_scale k z : 0 < k → 1 ≤ z → (inject_Z k <= inject_Z (k * z))%Q.
Proof. intros Hk Hz. rewrite <- Zle_Qle. nia. Qed.

Lemma inject_Z_neg_scale k z : 0 < k → z ≤ -1 → (inject_Z (k * z) <= - inject_Z k)%Q.
Proof.
  intros Hk Hz. rewrite <- inject_Z_opp, <- Zle_Qle. nia.
Qed.

Lemma INITIAL_WEIGHTS_wf : wf_grid INITIAL_WEIGHTS.
Proof. apply wf_check. vm_compute. reflexivity. Qed.

Lemma weights_600_wf : wf_grid weights_600.
Proof. apply wf_check. vm_compute. reflexivity. Qed.

Lemma INITIAL_WEIGHTS_inRange : weightsInRange INITIAL_WEIGHTS.
Proof. apply weightsInRangeb_sound. vm_compute. reflexivity. Qed.

Lemma weights_600_inRange : weightsInRange weights_600.
Proof. apply weightsInRangeb_sound. vm_compute. reflexivity. Qed.

(** The position with the corner taken comes from legal play; for White
    its three terms are 2000 for the corner, 250 for five moves more than
    Black has, and 125 for the weights. *)
Lemma board_corner_taken_terms :
  legalPlay createInitialBoard (Some Black) plies_corner_taken = true
  ∧ cornerDiff board_corner_taken (Some White) = 1
  ∧ mobilityDiff board_corner_taken (Some White) = 5
  ∧ positionSum board_corner_taken (Some White) INITIAL_WEIGHTS = 125%Q
  ∧ evaluateBoard board_corner_taken (Some White) INITIAL_WEIGHTS = 2375%Q.
Proof. do 4 (split; [vm_compute; reflexivity|]). vm_compute. reflexivity. Qed.

Lemma board_corner_taken_wf : wf_board board_corner_taken.
Proof. apply wf_check. vm_compute. reflexivity. Qed.

(** The position with two best moves comes from legal play; Black is to
    move, no move is filtered out, and the search gives -88 to (3,2) and
    (5,4), -302 to (2,1) and (6,5). *)
Lemma board_two_best_scores :
  legalPlay createInitialBoard (Some Black) plies_two_best = true
  ∧ getValidMoves board_two_best (Some Black) = moves_two_best
  ∧ inferColor board_two_best (mkCoord 2 1) = Some Black
  ∧ candidatesOf board_two_best moves_two_best
                 (searchDepth (countEmpty board_two_best)) = moves_two_best
  ∧ map (rootScore board_two_best (Some Black)
                   (searchDepth (countEmpty board_two_best)) INITIAL_WEIGHTS)
        moves_two_best
    = [Fin (-302); Fin (-88); Fin (-88); Fin (-302)].
Proof. do 4 (split; [vm_compute; reflexivity|]). vm_compute. reflexivity. Qed.

Lemma board_two_best_wf : wf_board board_two_best.
Proof. apply wf_check. vm_compute. reflexivity. Qed.

(** The scores of the three positions that separate the tiers. *)
Lemma tiers_values :
  evaluateBoard board_corner_traded (Some Black) INITIAL_WEIGHTS = (-300)%Q
  ∧ cornerDiff board_corner_traded (Some Black) = 1
  ∧ evaluateBoard board_63_0 (Some Black) weights_600 = 43800%Q
  ∧ evaluateBoard board_33_31 (Some Black) weights_600 = 20000%Q.
Proof. repeat split; vm_compute; reflexivity. Qed.

Lemma weightStore_holds : gridVal weightStore.2 weightStore.1 = Some INITIAL_WEIGHTS.
Proof. vm_compute. reflexivity. Qed.

(** The weights the three moves give: 5 + 0.5 + 0.5 on (2,3), 20 - 0.25
    on (2,2). *)
Lemma trainBrain_history3 :
  ∃ newData s' w',
    trainBrainM (λ _, 0) brainRef history3 (Some Black) weightStore.2
    = Done newData s'
    ∧ gridVal s' newData.(weights) = Some w'
    ∧ (weightAt w' 2 3 == 6)%Q
    ∧ (weightAt w' 2 2 == 79 # 4)%Q
    ∧ gridVal s' brainRef.(weights) = Some INITIAL_WEIGHTS.
Proof.
  let v := eval vm_compute in
           (trainBrainM (λ _, 0) brainRef history3 (Some Black) weightStore.2) in
  match v with
  | Done ?d ?s =>
      let w := eval vm_compute in (gridVal s d.(weights)) in
      match w with
      | Some ?w' => exists d, s, w'
      end
  end.
  repeat split; vm_compute; reflexivity.
Qed.

Lemma flipAll_cell (b : Board) color flips r c :
  wf_board b → Forall onBoard flips → inBoard r c = true →
  cellAt (foldl (λ b pos, gridSet b pos.(row) pos.(col) color) b flips) r c
  = if bool_decide (mkCoord r c ∈ flips) then color else cellAt b r c.
Proof.
  intros Hwf Hall Hin. revert b Hwf.
  induction Hall as [|pos flips Hpos Hall IH]; intros b Hwf.
  { cbn [foldl]. rewrite bool_decide_eq_false_2; [done|]. apply not_elem_of_nil. }
  cbn [foldl]. rewrite IH by by apply gridSet_wf.
  apply inBoard_spec in Hin as Hrc.
  destruct (decide (mkCoord r c ∈ flips)) as [Hel|Hel].
  { rewrite !bool_decide_eq_true_2; [done| |done]. by right. }
  rewrite (bool_decide_eq_false_2 _ Hel).
  destruct (decide (pos = mkCoord r c)) as [->|Hne].
  - rewrite bool_decide_eq_true_2 by left. cbn [row col].
    by apply gridAt_gridSet_eq.
  - rewrite bool_decide_eq_false_2.
    2:{ intros [Heq|?]%elem_of_cons; [|done]. by subst pos. }
    unfold cellAt. apply gridAt_gridSet_ne; [|lia|lia].
    destruct pos as [pr pc]. cbn [row col].
    intros [= -> ->]. done.
Qed.

Lemma lineCells_S dRow dCol r c j :
  lineCells dRow dCol r c (S j)
  = mkCoord r c :: lineCells dRow dCol (r + dRow) (c + dCol) j.
Proof.
  unfold lineCells. cbn [seq map]. f_equal.
  { f_equal; lia. }
  rewrite <- seq_shift, map_map. apply map_ext. intros i. f_equal; lia.
Qed.

Lemma elem_of_lineCells dRow dCol r c j r' c' :
  mkCoord r' c' ∈ lineCells dRow dCol r c j
  ↔ ∃ i : nat, (i < j)%nat ∧ r' = r + Z.of_nat i * dRow
               ∧ c' = c + Z.of_nat i * dCol.
Proof.
  unfold lineCells. rewrite list_elem_of_fmap. split.
  - intros (i & [= -> ->] & Hi%elem_of_seq). exists i. split; [lia|done].
  - intros (i & Hi & -> & ->). exists i. split; [done|]. apply elem_of_seq. lia.
Qed.

(** A scan that has already seen an opponent disk: [j] more of them, then
    a disk of the mover. *)
Lemma scanFinds_S board color dRow dCol r c j :
  scanFinds board color dRow dCol r c true (S j)
  ↔ inBoard r c = true ∧ opponentDisk color (cellAt board r c)
    ∧ scanFinds board color dRow dCol (r + dRow) (c + dCol) true j.
Proof.
  unfold scanFinds. split.
  - intros (Hopp & Hin & Hown & _).
    destruct (Hopp 0%nat) as [Hi Ho]; [lia|].
    rewrite !Z.mul_0_l, !Z.add_0_r in Hi, Ho.
    split; [done|]. split; [done|].
    split; [|split; [|split; [|by left]]].
    + intros i Hi'.
      replace (r + dRow + Z.of_nat i * dRow) with (r + Z.of_nat (S i) * dRow) by lia.
      replace (c + dCol + Z.of_nat i * dCol) with (c + Z.of_nat (S i) * dCol) by lia.
      apply Hopp. lia.
    + by replace (r + dRow + Z.of_nat j * dRow) with (r + Z.of_nat (S j) * dRow) by lia;
         replace (c + dCol + Z.of_nat j * dCol) with (c + Z.of_nat (S j) * dCol) by lia.
    + by replace (r + dRow + Z.of_nat j * dRow) with (r + Z.of_nat (S j) * dRow) by lia;
         replace (c + dCol + Z.of_nat j * dCol) with (c + Z.of_nat (S j) * dCol) by lia.
  - intros (Hi & Ho & Hopp & Hin & Hown & _).
    split; [|split; [|split; [|by left]]].
    + intros [|i] Hi'.
      { by rewrite !Z.mul_0_l, !Z.add_0_r. }
      replace (r + Z.of_nat (S i) * dRow) with (r + dRow + Z.of_nat i * dRow) by lia.
      replace (c + Z.of_nat (S i) * dCol) with (c + dCol + Z.of_nat i * dCol) by lia.
      apply Hopp. lia.
    + by replace (r + Z.of_nat (S j) * dRow) with (r + dRow + Z.of_nat j * dRow) by lia;
         replace (c + Z.of_nat (S j) * dCol) with (c + dCol + Z.of_nat j * dCol) by lia.
    + by replace (r + Z.of_nat (S j) * dRow) with (r + dRow + Z.of_nat j * dRow) by lia;
         replace (c + Z.of_nat (S j) * dCol) with (c + dCol + Z.of_nat j * dCol) by lia.
Qed.

Lemma scanFinds_0 board color dRow dCol r c :
  scanFinds board color dRow dCol r c true 0
  ↔ inBoard r c = true ∧ ownDisk color (cellAt board r c).
Proof.
  unfold scanFinds. rewrite !Z.mul_0_l, !Z.add_0_r. split.
  - intros (_ & ? & ? & _). done.
  - intros [? ?]. split; [intros i Hi; lia|]. split; [done|]. split; [done|by left].
Qed.

(** The run a scan finds is turned over, together with the disks collected
    before. *)
Lemma flipLine_run fuel (nb : Board) color dRow dCol r c flips j :
  scanFinds nb color dRow dCol r c true j → (j < fuel)%nat →
  flipLine fuel nb color dRow dCol r c flips
  = foldl (λ b pos, gridSet b pos.(row) pos.(col) color) nb
          (flips ++ lineCells dRow dCol r c j).
Proof.
  revert fuel r c flips.
  induction j as [|j IH]; intros fuel r c flips Hrun Hfuel;
    (destruct fuel as [|fuel]; [lia|]); cbn [flipLine].
  - apply scanFinds_0 in Hrun as [Hin [Hn Hc]]. rewrite Hin.
    rewrite (bool_decide_eq_false_2 _ Hn).
    rewrite bool_decide_eq_false_2 by (intros ?; done).
    unfold lineCells. cbn [seq map]. rewrite app_nil_r.
    destruct flips; done.
  - apply scanFinds_S in Hrun as (Hin & [Hn Hc] & Hrun). rewrite Hin.
    rewrite (bool_decide_eq_false_2 _ Hn), (bool_decide_eq_true_2 _ Hc).
    rewrite (IH fuel _ _ _ Hrun) by lia.
    by rewrite lineCells_S, <- app_assoc.
Qed.

(** Where the scan finds no disk of the mover, nothing is turned over. *)
Lemma flipLine_norun fuel (nb : Board) color dRow dCol r c flips :
  scanLine fuel nb color dRow dCol r c true = false →
  flipLine fuel nb color dRow dCol r c flips = nb.
Proof.
  revert r c flips. induction fuel as [|fuel IH]; intros r c flips;
    cbn [scanLine flipLine]; [done|].
  destruct (inBoard r c); [|done].
  destruct (bool_decide (cellAt nb r c = None)); [done|].
  destruct (bool_decide (cellAt nb r c ≠ color)); [apply IH|done].
Qed.

Lemma capturingRun_scanFinds board color row col dRow dCol k :
  capturingRun board color row col dRow dCol k
  ↔ (1 ≤ k)%nat
    ∧ scanFinds board color dRow dCol (row + dRow) (col + dCol) true k.
Proof.
  unfold capturingRun, scanFinds. split.
  - intros (Hk & Hopp & Hin & Hown). split; [done|].
    split; [|split; [|split; [|by left]]].
    + intros i Hi.
      replace (row + dRow + Z.of_nat i * dRow) with (row + Z.of_nat (S i) * dRow) by lia.
      replace (col + dCol + Z.of_nat i * dCol) with (col + Z.of_nat (S i) * dCol) by lia.
      apply Hopp. lia.
    + by replace (row + dRow + Z.of_nat k * dRow) with (row + Z.of_nat (k + 1) * dRow) by lia;
         replace (col + dCol + Z.of_nat k * dCol) with (col + Z.of_nat (k + 1) * dCol) by lia.
    + by replace (row + dRow + Z.of_nat k * dRow) with (row + Z.of_nat (k + 1) * dRow) by lia;
         replace (col + dCol + Z.of_nat k * dCol) with (col + Z.of_nat (k + 1) * dCol) by lia.
  - intros (Hk & Hopp & Hin & Hown & _). split; [done|]. split; [|split].
    + intros [|i] Hi; [lia|].
      replace (row + Z.of_nat (S i) * dRow) with (row + dRow + Z.of_nat i * dRow) by lia.
      replace (col + Z.of_nat (S i) * dCol) with (col + dCol + Z.of_nat i * dCol) by lia.
      apply Hopp. lia.
    + by replace (row + Z.of_nat (k + 1) * dRow) with (row + dRow + Z.of_nat k * dRow) by lia;
         replace (col + Z.of_nat (k + 1) * dCol) with (col + dCol + Z.of_nat k * dCol) by lia.
    + by replace (row + Z.of_nat (k + 1) * dRow) with (row + dRow + Z.of_nat k * dRow) by lia;
         replace (col + Z.of_nat (k + 1) * dCol) with (col + dCol + Z.of_nat k * dCol) by lia.
Qed.

(** The run a scan finds has one length only. *)
Lemma scanFinds_unique board color dRow dCol r c j j' :
  scanFinds board color dRow dCol r c true j →
  scanFinds board color dRow dCol r c true j' → j = j'.
Proof.
  intros (Hopp & _ & [_ Hown] & _) (Hopp' & _ & [_ Hown'] & _).
  destruct (decide (j < j')%nat) as [Hlt|?].
  { destruct (Hopp' j Hlt) as [_ [_ Hne]]. done. }
  destruct (decide (j' < j)%nat) as [Hlt|?]; [|lia].
  destruct (Hopp j' Hlt) as [_ [_ Hne]]. done.
Qed.

Lemma gridAt_outside {A} (d : A) (g : list (list A)) r c :
  wf_grid g → inBoard r c = false → gridAt d g r c = d.
Proof.
  intros [Hl Hrows] Hout. unfold gridAt.
  destruct ((0 <=? r) && (0 <=? c)) eqn:Hpos; [|done].
  apply andb_true_iff in Hpos as [Hp1%Z.leb_le Hp2%Z.leb_le].
  destruct (g !! Z.to_nat r) as [line|] eqn:E; [|done].
  assert (length line = 8%nat) as Hlen.
  { eapply list.Forall_forall in Hrows; [exact Hrows|].
    by eapply list_elem_of_lookup_2. }
  apply lookup_lt_Some in E.
  apply not_true_iff_false in Hout. rewrite inBoard_spec in Hout.
  rewrite lookup_ge_None_2; [done|]. lia.
Qed.

(** One direction of [applyMove]: the cells of the run the new disk closes
    in this direction take the mover's colour; every other cell stays. *)
Lemma flipLine_dir_cell (nb : Board) color row col dRow dCol r c :
  wf_board nb → isDirection dRow dCol → inBoard r c = true →
  let cell' :=
    cellAt (flipLine LOOP_FUEL nb color dRow dCol (row + dRow) (col + dCol) [])
           r c in
  (capturedIn nb color row col dRow dCol r c → cell' = color)
  ∧ (¬ capturedIn nb color row col dRow dCol r c → cell' = cellAt nb r c).
Proof.
  intros Hwf Hd Hin cell'. subst cell'.
  destruct (scanLine LOOP_FUEL nb color dRow dCol (row + dRow) (col + dCol) true)
    eqn:Hscan.
  - apply scanLine_true in Hscan as (j & Hj & Hrun).
    rewrite (flipLine_run _ _ _ _ _ _ _ _ j Hrun Hj). cbn [app].
    rewrite flipAll_cell; [|done| |done].
    2:{ apply list.Forall_forall. intros [r' c'] (i & Hi & -> & ->)%elem_of_lineCells.
        destruct Hrun as (Hopp & _). by destruct (Hopp i Hi). }
    split.
    + intros (k & i & Hk & Hi & -> & ->).
      apply capturingRun_scanFinds in Hk as [Hk1 Hk].
      pose proof (scanFinds_unique _ _ _ _ _ _ _ _ Hk Hrun) as ->.
      rewrite bool_decide_eq_true_2; [done|].
      apply elem_of_lineCells. destruct i as [|i]; [lia|].
      exists i. split; [lia|]. split; lia.
    + intros Hnot. rewrite bool_decide_eq_false_2; [done|].
      intros (i & Hi & -> & ->)%elem_of_lineCells. apply Hnot.
      exists j, (S i). split; [|split; [lia|split; lia]].
      apply capturingRun_scanFinds. split; [lia|done].
  - rewrite flipLine_norun by done. split; [|done].
    intros (k & i & Hk & _). apply capturingRun_scanFinds in Hk as [Hk1 Hk].
    assert (scanLine LOOP_FUEL nb color dRow dCol (row + dRow) (col + dCol) true
            = true) as Ht; [|congruence].
    apply scanLine_true. exists k. split; [|done].
    pose proof (scanFinds_short _ _ _ _ _ _ _ _ Hd Hk). unfold LOOP_FUEL. lia.
Qed.

(** Two boards that agree along a direction from [(row, col)] have the same
    runs there. *)
Lemma capturingRun_agree (b1 b2 : Board) color row col dRow dCol k :
  (∀ i : nat, (1 ≤ i)%nat →
     cellAt b1 (row + Z.of_nat i * dRow) (col + Z.of_nat i * dCol)
     = cellAt b2 (row + Z.of_nat i * dRow) (col + Z.of_nat i * dCol)) →
  capturingRun b1 color row col dRow dCol k →
  capturingRun b2 color row col dRow dCol k.
Proof.
  intros Hagree (Hk & Hopp & Hin & Hown). split; [done|]. split; [|split; [done|]].
  - intros i Hi. rewrite <- Hagree by lia. by apply Hopp.
  - rewrite <- Hagree by lia. done.
Qed.

Lemma capturedIn_agree (b1 b2 : Board) color row col dRow dCol r c :
  (∀ i : nat, (1 ≤ i)%nat →
     cellAt b1 (row + Z.of_nat i * dRow) (col + Z.of_nat i * dCol)
     = cellAt b2 (row + Z.of_nat i * dRow) (col + Z.of_nat i * dCol)) →
  capturedIn b1 color row col dRow dCol r c
  ↔ capturedIn b2 color row col dRow dCol r c.
Proof.
  intros Hagree. split; intros (k & i & Hk & Hrest); exists k, i; (split; [|done]).
  - by eapply capturingRun_agree.
  - eapply capturingRun_agree; [|done]. intros. symmetry. by apply Hagree.
Qed.

(** The eight rays from a cell meet nowhere. *)
Lemma rays_disjoint dRow dCol dRow' dCol' (i j : nat) :
  isDirection dRow dCol → isDirection dRow' dCol' →
  (1 ≤ i)%nat → (1 ≤ j)%nat →
  Z.of_nat i * dRow = Z.of_nat j * dRow' →
  Z.of_nat i * dCol = Z.of_nat j * dCol' →
  (dRow, dCol) = (dRow', dCol').
Proof.
  intros (Hr & Hc & Hne) (Hr' & Hc' & Hne') Hi Hj Hrow Hcol.
  assert (dRow = -1 ∨ dRow = 0 ∨ dRow = 1) as Hr1 by lia.
  assert (dCol = -1 ∨ dCol = 0 ∨ dCol = 1) as Hc1 by lia.
  assert (dRow' = -1 ∨ dRow' = 0 ∨ dRow' = 1) as Hr2 by lia.
  assert (dCol' = -1 ∨ dCol' = 0 ∨ dCol' = 1) as Hc2 by lia.
  destruct Hr1 as [-> | [-> | ->]], Hc1 as [-> | [-> | ->]],
           Hr2 as [-> | [-> | ->]], Hc2 as [-> | [-> | ->]];
    try done; lia.
Qed.

Lemma capturedIn_onBoard board color row col dRow dCol r c :
  capturedIn board color row col dRow dCol r c → inBoard r c = true.
Proof. intros (k & i & (_ & Hopp & _) & Hi & -> & ->). by destruct (Hopp i Hi). Qed.

Lemma flipDirs_keeps color row col (dirs : list (Z * Z)) (nb : Board) r c :
  wf_board nb → inBoard r c = true → cellAt nb r c = color →
  cellAt (foldl (λ nb (d : Z * Z),
                   flipLine LOOP_FUEL nb color d.1 d.2
                            (row + d.1) (col + d.2) []) nb dirs) r c
  = color.
Proof.
  revert nb. induction dirs as [|d dirs IH]; intros nb Hwf Hin Hcell;
    cbn [foldl]; [done|].
  apply IH; [by apply flipLine_wf|done|]. by apply flipLine_keeps.
Qed.

(** The loop of [applyMove] over a list of distinct directions. *)
Lemma flipDirs_cell color row col (dirs : list (Z * Z)) :
  NoDup dirs → Forall (λ d, isDirection d.1 d.2) dirs →
  ∀ (nb : Board) r c,
    wf_board nb → inBoard r c = true →
    let cell' :=
      cellAt (foldl (λ nb (d : Z * Z),
                       flipLine LOOP_FUEL nb color d.1 d.2
                                (row + d.1) (col + d.2) []) nb dirs) r c in
    ((∃ d, d ∈ dirs ∧ capturedIn nb color row col d.1 d.2 r c) → cell' = color)
    ∧ ((∀ d, d ∈ dirs → ¬ capturedIn nb color row col d.1 d.2 r c) →
       cell' = cellAt nb r c).
Proof.
  intros Hnd Hall. induction Hall as [|d dirs Hd Hall IH];
    intros nb r c Hwf Hin cell'; subst cell'; cbn [foldl].
  { split; [|done]. intros (d & Hel & _). by apply elem_of_nil in Hel. }
  apply NoDup_cons in Hnd as [Hnotin Hnd].
  set (nb1 := flipLine LOOP_FUEL nb color d.1 d.2 (row + d.1) (col + d.2) []).
  assert (Hwf1 : wf_board nb1) by by apply flipLine_wf.
  assert (Hsame : ∀ d', d' ∈ dirs → ∀ r' c',
             capturedIn nb1 color row col d'.1 d'.2 r' c'
             ↔ capturedIn nb color row col d'.1 d'.2 r' c').
  { intros d' Hel r' c'. apply capturedIn_agree. intros i Hi.
    destruct (inBoard (row + Z.of_nat i * d'.1) (col + Z.of_nat i * d'.2)) eqn:Hin'.
    2:{ unfold cellAt. by rewrite !gridAt_outside. }
    destruct (flipLine_dir_cell nb color row col d.1 d.2 _ _ Hwf Hd Hin') as [_ Hkeep].
    apply Hkeep. intros (k & i' & _ & Hi' & Hrow & Hcol).
    apply Hnotin. 
    assert ((d'.1, d'.2) = (d.1, d.2)) as Heq.
    { apply (rays_disjoint _ _ _ _ i i'); try done; try lia.
      eapply list.Forall_forall in Hall; [exact Hall|done]. }
    destruct d, d'. cbn [fst snd] in Heq. by injection Heq as <- <-. }
  destruct (IH Hnd nb1 r c Hwf1 Hin) as [IHyes IHno].
  destruct (flipLine_dir_cell nb color row col d.1 d.2 r c Hwf Hd Hin) as [Hyes Hno].
  fold nb1 in Hyes, Hno.
  split.
  - intros (d0 & [->|Hel]%elem_of_cons & Hcap).
    + apply flipDirs_keeps; [done|done|]. by apply Hyes.
    + apply IHyes. exists d0. split; [done|]. by apply Hsame.
  - intros Hnone. rewrite IHno.
    + apply Hno. apply Hnone. by left.
    + intros d' Hel Hcap. apply (Hnone d'); [by right|]. by apply Hsame.
Qed.

(** The cells the move turns over are opponent disks, and the mover has a
    colour. *)
Lemma captured_opponent board color row col r c :
  captured board color row col r c →
  opponentDisk color (cellAt board r c) ∧ color ≠ None
  ∧ inBoard r c = true ∧ (r, c) ≠ (row, col).
Proof.
  intros (dRow & dCol & Hd & k & i & (Hk & Hopp & _ & Hown) & Hi & -> & ->).
  destruct (Hopp i Hi) as [Hin Ho]. split; [done|]. split.
  { destruct Hown as [Hn Hc]. by rewrite <- Hc. }
  split; [done|]. destruct Hd as (? & ? & ?). intros [= ? ?]. nia.
Qed.

Lemma NoDup_DIRECTIONS : NoDup DIRECTIONS.
Proof. apply (bool_decide_unpack _). vm_compute. done. Qed.

Lemma DIRECTIONS_all : Forall (λ d : Z * Z, isDirection d.1 d.2) DIRECTIONS.
Proof.
  apply list.Forall_forall. intros [dRow dCol] Hel. by apply DIRECTIONS_spec.
Qed.

(** The cells of [applyMove]'s result, one by one. *)
Lemma applyMove_cell board color row col r c :
  wf_board board → inBoard row col = true → inBoard r c = true →
  let cell' := cellAt (applyMove board color row col) r c in
  (r = row ∧ c = col → cell' = color)
  ∧ (captured board color row col r c → cell' = color)
  ∧ (¬ (r = row ∧ c = col) → ¬ captured board color row col r c →
     cell' = cellAt board r c).
Proof.
  intros Hwf Hdest Hin cell'. subst cell'.
  split. { intros [-> ->]. by apply applyMove_placed. }
  unfold applyMove.
  set (nb := gridSet board row col color).
  assert (Hwf' : wf_board nb) by by apply gridSet_wf.
  assert (Hsame : ∀ dRow dCol, isDirection dRow dCol → ∀ r' c',
             capturedIn nb color row col dRow dCol r' c'
             ↔ capturedIn board color row col dRow dCol r' c').
  { intros dRow dCol (? & ? & ?) r' c'. apply capturedIn_agree. intros i Hi.
    unfold cellAt.
    destruct (inBoard (row + Z.of_nat i * dRow) (col + Z.of_nat i * dCol))
      eqn:Hin'.
    - apply inBoard_spec in Hin'. unfold nb.
      apply gridAt_gridSet_ne; [|lia|lia]. intros [= ? ?]. nia.
    - by rewrite !gridAt_outside. }
  destruct (flipDirs_cell color row col DIRECTIONS NoDup_DIRECTIONS
              DIRECTIONS_all nb r c Hwf' Hin) as [Hyes Hno].
  split.
  - intros (dRow & dCol & Hd & Hcap). apply Hyes.
    exists (dRow, dCol). split; [by apply DIRECTIONS_spec|]. by apply Hsame.
  - intros Hne Hnot. rewrite Hno.
    + unfold cellAt, nb. apply inBoard_spec in Hin.
      apply gridAt_gridSet_ne; [|lia|lia]. intros [= -> ->]. by apply Hne.
    + intros [dRow dCol] Hel%DIRECTIONS_spec Hcap. apply Hnot.
      exists dRow, dCol. split; [done|]. by apply Hsame.
Qed.

(** [applyMove] only ever writes the mover's colour. *)
Lemma flipLine_cases fuel (nb : Board) color dRow dCol r c flips r' c' :
  wf_board nb → Forall onBoard flips → inBoard r' c' = true →
  cellAt (flipLine fuel nb color dRow dCol r c flips) r' c' = color
  ∨ cellAt (flipLine fuel nb color dRow dCol r c flips) r' c' = cellAt nb r' c'.
Proof.
  intros Hwf Hall Hin. revert r c flips Hall.
  induction fuel as [|fuel IH]; intros r c flips Hall; cbn [flipLine]; [by right|].
  destruct (inBoard r c) eqn:Hrc; [|by right].
  destruct (bool_decide _); [by right|]. destruct (bool_decide _).
  - apply IH. apply Forall_app. split; [done|]. by constructor.
  - destruct (0 <? length flips)%nat; [|by right].
    rewrite flipAll_cell by done. destruct (bool_decide _); [by left|by right].
Qed.

Lemma applyMove_cases board color row col r c :
  wf_board board → inBoard r c = true →
  cellAt (applyMove board color row col) r c = color
  ∨ cellAt (applyMove board color row col) r c = cellAt board r c.
Proof.
  intros Hwf Hin. unfold applyMove.
  assert (Hwf' : wf_board (gridSet board row col color)) by by apply gridSet_wf.
  assert (Hnb : cellAt (gridSet board row col color) r c = color
                ∨ cellAt (gridSet board row col color) r c = cellAt board r c).
  { destruct (decide ((row, col) = (r, c))) as [[= -> ->]|Hne].
    - left. by apply gridAt_gridSet_eq.
    - right. apply inBoard_spec in Hin. by apply gridAt_gridSet_ne; [|lia|lia]. }
  revert Hwf' Hnb. generalize (gridSet board row col color). generalize DIRECTIONS.
  induction l as [|d ds IH]; intros nb Hnb Hcell; cbn [foldl]; [done|].
  apply IH; [by apply flipLine_wf|].
  destruct (flipLine_cases LOOP_FUEL nb color d.1 d.2 (row + d.1) (col + d.2) []
              r c Hnb) as [H|H]; [constructor|done|by left|].
  rewrite H. done.
Qed.

Lemma sumOver_le {X} (f g : X → Z) l :
  (∀ x, x ∈ l → f x ≤ g x) → sumOver f l ≤ sumOver g l.
Proof.
  induction l as [|x l IH]; intros H; cbn [sumOver]; [done|].
  pose proof (H x (list_elem_of_here _ _)).
  assert (sumOver f l ≤ sumOver g l) by (apply IH; intros; apply H; by right).
  lia.
Qed.

Lemma sumOver_lt {X} (f g : X → Z) l x0 :
  (∀ x, x ∈ l → f x ≤ g x) → x0 ∈ l → f x0 < g x0 →
  sumOver f l < sumOver g l.
Proof.
  induction l as [|x l IH]; intros H Hel Hlt; cbn [sumOver].
  { by apply elem_of_nil in Hel. }
  pose proof (H x (list_elem_of_here _ _)).
  assert (sumOver f l ≤ sumOver g l)
    by (apply sumOver_le; intros; apply H; by right).
  apply elem_of_cons in Hel as [->|Hel]; [lia|].
  assert (sumOver f l < sumOver g l) by (apply IH; [intros; apply H; by right|done|done]).
  lia.
Qed.

Lemma sumOver_ext {X} (f g : X → Z) l :
  (∀ x, x ∈ l → f x = g x) → sumOver f l = sumOver g l.
Proof.
  induction l as [|x l IH]; intros H; cbn [sumOver]; [done|].
  rewrite (H x) by left. rewrite IH; [done|]. intros; apply H; by right.
Qed.

Lemma sumOver_change {X} (f g : X → Z) l x0 :
  NoDup l → x0 ∈ l → (∀ x, x ∈ l → x ≠ x0 → f x = g x) →
  sumOver f l = sumOver g l + (f x0 - g x0).
Proof.
  induction l as [|x l IH]; intros Hnd Hel H; cbn [sumOver].
  { by apply elem_of_nil in Hel. }
  apply NoDup_cons in Hnd as [Hnotin Hnd].
  apply elem_of_cons in Hel as [->|Hel].
  - rewrite (sumOver_ext f g l); [lia|].
    intros y Hy. apply H; [by right|]. intros ->. done.
  - rewrite IH; [|done|done|intros; apply H; [by right|done]].
    rewrite (H x); [lia|by left|]. intros ->. done.
Qed.

(** Counting over [board.flat()] is summing over the cells. *)
Lemma countZ_cells p (board : Board) :
  wf_board board →
  countZ p (concat board)
  = sumOver (λ pos, if p (cellOf board pos) then 1 else 0) allCells.
Proof.
  intros Hwf. rewrite <- (board_cells board Hwf). unfold cellOf.
  induction allCells as [|pos l IH]; [done|].
  cbn [map countZ sumOver]. by rewrite IH.
Qed.

Lemma cells_partition_color color (cells : list Disk) :
  emptyCells cells + disksOf color cells + disksAgainst color cells
  = Z.of_nat (length cells).
Proof.
  unfold emptyCells, disksOf, disksAgainst.
  induction cells as [|cell cells IH]; [done|].
  cbn [countZ length]. rewrite Nat2Z.inj_succ.
  unfold isEmpty at 1, isDiskOf at 1, isDiskAgainst at 1.
  destruct (decide (cell = None)) as [Hn|Hn].
  { rewrite (bool_decide_eq_true_2 _ Hn).
    rewrite !(bool_decide_eq_false_2 (cell ≠ None)) by tauto. simpl. lia. }
  rewrite (bool_decide_eq_false_2 _ Hn), !(bool_decide_eq_true_2 (cell ≠ None) Hn).
  destruct (decide (cell = color)) as [Hc|Hc].
  - rewrite (bool_decide_eq_true_2 _ Hc).
    rewrite (bool_decide_eq_false_2 (cell ≠ color)) by tauto. simpl. lia.
  - rewrite (bool_decide_eq_false_2 _ Hc), (bool_decide_eq_true_2 (cell ≠ color) Hc).
    simpl. lia.
Qed.

Lemma cellOf_mk board r c : cellOf board (mkCoord r c) = cellAt board r c.
Proof. reflexivity. Qed.

(** What a legal move does to the counts: one cell less is empty, and at
    least one disk changes sides. *)
Lemma legal_move_counts board color row col :
  wf_board board → inBoard row col = true →
  isValidMove board color row col = true →
  let after := concat (applyMove board color row col) in
  let before := concat board in
  emptyCells after = emptyCells before - 1
  ∧ disksAgainst color after < disksAgainst color before
  ∧ disksOf color after + disksAgainst color after
    = disksOf color before + disksAgainst color before + 1.
Proof.
  intros Hwf Hdest Hlegal after before. subst after before.
  pose proof (applyMove_wf board color row col Hwf) as Hwf'.
  apply isValidMove_spec in Hlegal as (Hempty & dRow & dCol & k & Hd & Hrun).
  assert (Hcolor : color ≠ None).
  { destruct Hrun as (_ & _ & _ & [Hn Hc]). by rewrite <- Hc. }
  assert (Hcap : captured board color row col (row + Z.of_nat 1 * dRow)
                          (col + Z.of_nat 1 * dCol)).
  { exists dRow, dCol. split; [done|]. exists k, 1%nat.
    split; [done|]. destruct Hrun as (Hk & _). split; [lia|done]. }
  assert (Hempties : emptyCells (concat (applyMove board color row col))
                     = emptyCells (concat board) - 1).
  { unfold emptyCells. rewrite !countZ_cells by done.
    rewrite (sumOver_change _
               (λ pos, if isEmpty (cellOf board pos) then 1 else 0)
               allCells (mkCoord row col) NoDup_allCells).
    - rewrite !cellOf_mk.
      rewrite applyMove_placed by done. rewrite Hempty.
      unfold isEmpty. rewrite bool_decide_eq_false_2 by done.
      rewrite bool_decide_eq_true_2 by done. lia.
    - by apply elem_of_allCells.
    - intros [r c] Hin%elem_of_allCells Hne. rewrite !cellOf_mk.
      destruct (applyMove_cell board color row col r c Hwf Hdest Hin)
        as (_ & _ & Hkeep).
      unfold isEmpty.
      destruct (decide (cellAt board r c = None)) as [Hn|Hn].
      + rewrite Hkeep; [done| |].
        * intros [-> ->]. done.
        * intros [[Ho _] _]%captured_opponent. done.
      + rewrite (bool_decide_eq_false_2 _ Hn).
        rewrite bool_decide_eq_false_2; [done|].
        destruct (applyMove_cases board color row col r c Hwf Hin) as [->| ->]; done. }
  assert (Hless : disksAgainst color (concat (applyMove board color row col))
                  < disksAgainst color (concat board)).
  { unfold disksAgainst. rewrite !countZ_cells by done.
    apply captured_opponent in Hcap as Hc1. destruct Hc1 as ([Ho1 Ho2] & _ & Hin1 & _).
    apply (sumOver_lt _ _ _ (mkCoord (row + Z.of_nat 1 * dRow)
                                     (col + Z.of_nat 1 * dCol))).
    - intros [r c] Hin%elem_of_allCells. rewrite !cellOf_mk.
      destruct (applyMove_cases board color row col r c Hwf Hin) as [->| ->]; [|done].
      unfold isDiskAgainst at 1.
      rewrite (bool_decide_eq_false_2 (color ≠ color)) by tauto.
      rewrite andb_false_r. by destruct (isDiskAgainst _ _).
    - by apply elem_of_allCells.
    - rewrite !cellOf_mk.
      destruct (applyMove_cell board color row col _ _ Hwf Hdest Hin1)
        as (_ & Hflip & _).
      rewrite (Hflip Hcap). unfold isDiskAgainst.
      rewrite (bool_decide_eq_false_2 (color ≠ color)) by tauto.
      rewrite andb_false_r.
      rewrite (bool_decide_eq_true_2 _ Ho1), (bool_decide_eq_true_2 _ Ho2). done. }
  split; [done|]. split; [done|].
  pose proof (cells_partition_color color (concat board)) as H1.
  pose proof (cells_partition_color color (concat (applyMove board color row col))) as H2.
  rewrite !wf_concat_length in H1, H2 by done. lia.
Qed.


(** A board without an empty cell has a disk on every cell. *)
Lemma full_board_cells board r c :
  wf_board board → countEmpty board = 0 → inBoard r c = true →
  cellAt board r c ≠ None.
Proof.
  intros Hwf Hfull Hin Hn.
  rewrite countEmpty_spec in Hfull. unfold emptyCells in Hfull.
  rewrite countZ_cells in Hfull by done.
  assert (sumOver (λ _ : Coordinate, 0) allCells
          < sumOver (λ pos, if isEmpty (cellOf board pos) then 1 else 0) allCells).
  { apply (sumOver_lt _ _ _ (mkCoord r c)).
    - intros pos _. by destruct (isEmpty _).
    - by apply elem_of_allCells.
    - rewrite cellOf_mk, Hn. done. }
  assert (sumOver (λ _ : Coordinate, 0) allCells = 0) as H0.
  { clear. induction allCells as [|x l IH]; [done|]. cbn [sumOver]. lia. }
  lia.
Qed.

Lemma allCells_sorted : StronglySorted rowMajor allCells.
Proof. apply (bool_decide_unpack _). vm_compute. done. Qed.

Lemma StronglySorted_filter {X} (R : relation X) (P : X → Prop)
    `{∀ x, Decision (P x)} (l : list X) :
  StronglySorted R l → StronglySorted R (filter P l).
Proof.
  induction 1 as [|x l Hl IH Hx]; [constructor|].
  rewrite filter_cons. destruct (decide (P x)); [|done].
  constructor; [done|]. apply list.Forall_forall.
  intros y [_ Hy]%list_elem_of_filter.
  by eapply list.Forall_forall in Hx.
Qed.

(** No ray holds a disk of the null colour: nothing is legal for it. *)
Lemma legalDestination_null board row col :
  ¬ legalDestination board None row col.
Proof. intros (_ & dRow & dCol & k & _ & _ & _ & _ & [Hn Hc]). done. Qed.

(** A property checked on the 64 cells holds on every cell of the grid. *)
Lemma allCells_forall (P : Coordinate → Prop) :
  Forall P allCells → ∀ r c, inBoard r c = true → P (mkCoord r c).
Proof.
  intros Hall r c Hin. eapply list.Forall_forall in Hall; [exact Hall|].
  by apply elem_of_allCells.
Qed.

(** * The properties of the specification *)

(** ** C1 *)

(** C1, as the code has it.  [applyMove] does not look at [legalMoves] and
    rejects nothing: for every board of the 8 x 8 shape, every colour and
    every cell of the grid, legal destination or not, it returns a new
    board of the same shape in which the cell holds the disk, every disk
    of a run of the other colour that the new disk closes is turned over,
    and every other cell is as it was; on an empty cell that is not a
    legal destination nothing but the cell changes.  The board it was
    given still holds what it held. *)
Theorem applyMove_accepts_every_cell s board (b : Board) color row col :
  gridVal s board = Some b → wf_board b → inBoard row col = true →
  ∃ newBoard s' b',
    applyMoveM board color row col s = Done newBoard s'
    ∧ gridVal s' newBoard = Some b'
    ∧ b' = applyMove b color row col
    ∧ wf_board b'
    ∧ cellAt b' row col = color
    ∧ (∀ r c, inBoard r c = true → captured b color row col r c →
              cellAt b' r c = color)
    ∧ (∀ r c, inBoard r c = true → ¬ (r = row ∧ c = col) →
              ¬ captured b color row col r c → cellAt b' r c = cellAt b r c)
    ∧ (cellAt b row col = None → ¬ legalDestination b color row col →
       ∀ r c, inBoard r c = true → ¬ (r = row ∧ c = col) →
              cellAt b' r c = cellAt b r c)
    ∧ gridVal s' board = Some b.
Proof.
  intros Hval Hwf Hin.
  destruct (applyMoveM_spec s board b color row col Hval Hwf Hin)
    as (newBoard & ls & s' & Hrun & Hp).
  exists newBoard, s', (applyMove b color row col).
  split; [done|]. split; [by eapply private_gridVal|]. split; [done|].
  split; [by apply applyMove_wf|].
  split; [by apply applyMove_placed|].
  split; [|split; [|split]].
  - intros r c Hrc Hcap.
    by destruct (applyMove_cell b color row col r c Hwf Hin Hrc) as (_ & H & _); auto.
  - intros r c Hrc Hne Hcap.
    by destruct (applyMove_cell b color row col r c Hwf Hin Hrc) as (_ & _ & H); auto.
  - intros Hempty Hillegal r c Hrc Hne.
    destruct (applyMove_cell b color row col r c Hwf Hin Hrc) as (_ & _ & H).
    apply H; [done|].
    intros (dRow & dCol & Hd & k & i & Hk & _). apply Hillegal.
    split; [done|]. by exists dRow, dCol, k.
  - eapply gridVal_preserved; [|exact Hval]. by destruct Hp.
Qed.

(** The theorem at the corner (0,0) of the opening position, which is not
    a legal move for Black, and at (2,3), which is one and turns the disk
    on (3,3) over. *)
Lemma applyMove_accepts_every_cell_witness :
  (∃ newBoard s' b',
     applyMoveM initialStore.1 (Some Black) 0 0 initialStore.2
     = Done newBoard s'
     ∧ gridVal s' newBoard = Some b'
     ∧ b' = applyMove createInitialBoard (Some Black) 0 0
     ∧ wf_board b'
     ∧ cellAt b' 0 0 = Some Black
     ∧ (∀ r c, inBoard r c = true →
               captured createInitialBoard (Some Black) 0 0 r c →
               cellAt b' r c = Some Black)
     ∧ (∀ r c, inBoard r c = true → ¬ (r = 0 ∧ c = 0) →
               ¬ captured createInitialBoard (Some Black) 0 0 r c →
               cellAt b' r c = cellAt createInitialBoard r c)
     ∧ (cellAt createInitialBoard 0 0 = None →
        ¬ legalDestination createInitialBoard (Some Black) 0 0 →
        ∀ r c, inBoard r c = true → ¬ (r = 0 ∧ c = 0) →
               cellAt b' r c = cellAt createInitialBoard r c)
     ∧ gridVal s' initialStore.1 = Some createInitialBoard)
  ∧ (∃ newBoard s' b',
       applyMoveM initialStore.1 (Some Black) 2 3 initialStore.2
       = Done newBoard s'
       ∧ gridVal s' newBoard = Some b'
       ∧ b' = applyMove createInitialBoard (Some Black) 2 3
       ∧ wf_board b'
       ∧ cellAt b' 2 3 = Some Black
       ∧ (∀ r c, inBoard r c = true →
                 captured createInitialBoard (Some Black) 2 3 r c →
                 cellAt b' r c = Some Black)
       ∧ (∀ r c, inBoard r c = true → ¬ (r = 2 ∧ c = 3) →
                 ¬ captured createInitialBoard (Some Black) 2 3 r c →
                 cellAt b' r c = cellAt createInitialBoard r c)
       ∧ (cellAt createInitialBoard 2 3 = None →
          ¬ legalDestination createInitialBoard (Some Black) 2 3 →
          ∀ r c, inBoard r c = true → ¬ (r = 2 ∧ c = 3) →
                 cellAt b' r c = cellAt createInitialBoard r c)
       ∧ gridVal s' initialStore.1 = Some createInitialBoard).
Proof.
  split.
  - apply (applyMove_accepts_every_cell initialStore.2 initialStore.1
             createInitialBoard (Some Black) 0 0).
    + exact initialStore_holds.
    + exact createInitialBoard_wf.
    + reflexivity.
  - apply (applyMove_accepts_every_cell initialStore.2 initialStore.1
             createInitialBoard (Some Black) 2 3).
    + exact initialStore_holds.
    + exact createInitialBoard_wf.
    + reflexivity.
Defined.

(** C1 as stated fails: (0,0) is not among Black's legal moves on the
    opening position, and [applyMove] returns a board all the same, the
    opening position with a black disk on (0,0). *)
Lemma applyMove_illegal_not_rejected :
  (mkCoord 0 0 ∉ getValidMoves createInitialBoard (Some Black))
  ∧ gridVal initialStore.2 initialStore.1 = Some createInitialBoard
  ∧ ∃ newBoard s',
      applyMoveM initialStore.1 (Some Black) 0 0 initialStore.2
      = Done newBoard s'
      ∧ gridVal s' newBoard
        = Some (gridSet createInitialBoard 0 0 (Some Black)).
Proof.
  split; [|split].
  - intros [_ H]%elem_of_getValidMoves. vm_compute in H. discriminate.
  - exact initialStore_holds.
  - let v := eval vm_compute in
             (applyMoveM initialStore.1 (Some Black) 0 0 initialStore.2) in
    match v with
    | Done ?g ?s => exists g, s
    end.
    split; vm_compute; reflexivity.
Qed.

(** ** C2 *)




(** ** C3 *)

(** C3, as the code has it.  The depth of [getBestMove] depends on the
    number [e] of empty cells only: 12 when [e <= 12] (the constant, at
    least [e], not [e] itself), 6 when [12 < e <= 16], 4 otherwise; and
    this is the depth the root search runs with. *)
Theorem searchDepth_schedule rand board first rest data :
  let e := countEmpty board in
  let depth := searchDepth e in
  ((e ≤ 12 ∧ depth = 12%nat ∧ e ≤ Z.of_nat depth)
   ∨ (12 < e ≤ 16 ∧ depth = 6%nat)
   ∨ (16 < e ∧ depth = 4%nat))
  ∧ (getBestMove rand board (first :: rest) data
     = match rememberedMove board (first :: rest) data with
       | Some move => Some move
       | None =>
         Some (rootLoop (rootScore board (inferColor board first) depth
                                   data.(weights)) rand
                        (candidatesOf board (first :: rest) depth)
                        first NegInf 0)
       end).
Proof.
  intros e depth. split; [|apply getBestMove_unfold].
  destruct (searchDepth_spec e) as (H1 & H2 & H3). unfold depth.
  destruct (decide (e ≤ 12)) as [He|He].
  { left. rewrite (H1 He). split; [done|]. split; [done|]. lia. }
  destruct (decide (e ≤ 16)) as [He'|He'].
  { right. left. rewrite H2 by lia. split; [lia|done]. }
  right. right. rewrite H3 by lia. split; [lia|done].
Qed.

(** C3 as stated fails: with 5 empty cells the depth is 12, not 5. *)
Lemma searchDepth_is_not_empties :
  wf_board board_5_empty
  ∧ countEmpty board_5_empty = 5
  ∧ searchDepth (countEmpty board_5_empty) = 12%nat
  ∧ Z.of_nat (searchDepth (countEmpty board_5_empty))
    ≠ countEmpty board_5_empty.
Proof.
  split; [apply wf_check; vm_compute; reflexivity|].
  split; [vm_compute; reflexivity|]. split; [vm_compute; reflexivity|].
  vm_compute. discriminate.
Qed.

(** ** C4 *)

(** C4, as the code has it.  For a board and a weight matrix of the 8 x 8
    shape, when the memory gives no move, [getBestMove] returns, for every
    outcome of the draws, a candidate whose search score no candidate
    exceeds: never one of strictly lower score.  Among the candidates of
    maximal score the choice is made by the draws and is not uniform: the
    first of them is taken when the loop reaches it, and each later one
    replaces the current choice exactly when its own draw exceeds 0.5, the
    draws being consecutive; candidates of lower score in between change
    nothing.  Hence, over the outcomes of the draws that decide, the first
    maximal candidate is returned in one outcome and the one that comes
    [j] places after it in [2^(j-1)] outcomes, whatever the other draws
    are. *)
Theorem root_choice_maximal rand board first rest data :
  wf_board board → Forall onBoard (first :: rest) →
  wf_grid data.(weights) →
  rememberedMove board (first :: rest) data = None →
  let depth := searchDepth (countEmpty board) in
  let scoreOf :=
    rootScore board (inferColor board first) depth data.(weights) in
  let candidateMoves := candidatesOf board (first :: rest) depth in
  ∃ move best later offset,
    getBestMove rand board (first :: rest) data = Some move
    ∧ move ∈ candidateMoves
    ∧ (∀ m, m ∈ candidateMoves → ext_le (scoreOf m) (scoreOf move) = true)
    ∧ maximalOf scoreOf candidateMoves = best :: later
    ∧ (∀ rand', getBestMove rand' board (first :: rest) data
                = Some (pickTie rand' later best offset))
    ∧ (NoDup candidateMoves → ∀ base,
       let outcomes :=
         returnCount (length later)
           (λ draws, getBestMove (drawsFrom offset (length later) draws base)
                                 board (first :: rest) data) in
       outcomes best = 1%nat
       ∧ ∀ j m, later !! j = Some m → outcomes m = (2 ^ j)%nat).
Proof.
  intros _ _ _ Hmem depth scoreOf candidateMoves.
  assert (Hfin : ∀ m, isFin (scoreOf m)) by (intros m; apply rootScore_fin).
  assert (Hne : candidateMoves ≠ []) by by apply candidatesOf_nonempty.
  destruct (rootLoop_mechanism scoreOf candidateMoves first Hfin Hne)
    as (best & later & offset & Hmax & Hpick).
  assert (Hrun : ∀ rand', getBestMove rand' board (first :: rest) data
                          = Some (pickTie rand' later best offset)).
  { intros rand'. rewrite getBestMove_unfold, Hmem. fold depth. cbv zeta.
    fold scoreOf candidateMoves. by rewrite Hpick. }
  exists (pickTie rand later best offset), best, later, offset.
  split; [apply Hrun|]. rewrite <- Hpick.
  split; [by apply rootLoop_candidate|].
  split; [by apply rootLoop_max|].
  split; [done|]. split; [exact Hrun|].
  intros Hnd base outcomes.
  assert (Hties : NoDup (best :: later)).
  { rewrite <- Hmax. by apply NoDup_filter. }
  assert (Hcount : ∀ x, outcomes x = tieCount later best x).
  { intros x. apply returnCount_ties. intros draws.
    by rewrite Hrun, pickTie_drawsFrom. }
  split.
  - rewrite Hcount. by apply tieCount_first.
  - intros j m Hj. rewrite Hcount. by eapply tieCount_later.
Qed.

(** The theorem for Black after four plies of legal play, with the initial
    brain: of Black's four moves, (3,2) and (5,4) have the best search
    score, -88, and (2,1) and (6,5) the lower score -302. *)
Lemma root_choice_maximal_witness :
  let scoreOf :=
    rootScore board_two_best (inferColor board_two_best (mkCoord 2 1))
              (searchDepth (countEmpty board_two_best)) brain0.(weights) in
  let candidateMoves :=
    candidatesOf board_two_best moves_two_best
                 (searchDepth (countEmpty board_two_best)) in
  ∃ move best later offset,
    getBestMove (λ _, 1%Q) board_two_best moves_two_best brain0 = Some move
    ∧ move ∈ candidateMoves
    ∧ (∀ m, m ∈ candidateMoves → ext_le (scoreOf m) (scoreOf move) = true)
    ∧ maximalOf scoreOf candidateMoves = best :: later
    ∧ (∀ rand', getBestMove rand' board_two_best moves_two_best brain0
                = Some (pickTie rand' later best offset))
    ∧ (NoDup candidateMoves → ∀ base,
       let outcomes :=
         returnCount (length later)
           (λ draws, getBestMove (drawsFrom offset (length later) draws base)
                                 board_two_best moves_two_best brain0) in
       outcomes best = 1%nat
       ∧ ∀ j m, later !! j = Some m → outcomes m = (2 ^ j)%nat).
Proof.
  apply (root_choice_maximal (λ _, 1%Q) board_two_best (mkCoord 2 1)
           [mkCoord 3 2; mkCoord 5 4; mkCoord 6 5] brain0).
  - exact board_two_best_wf.
  - repeat constructor.
  - exact INITIAL_WEIGHTS_wf.
  - reflexivity.
Defined.

(** C4 as stated fails: on the opening position the four root moves have
    the same search score, and of the 8 equally likely outcomes of the three
    draws one returns the first move, one the second, two the third and
    four the last: the choice among the ties is not uniform. *)
Lemma root_tie_break_not_uniform :
  map (rootScore createInitialBoard (Some Black) 4 INITIAL_WEIGHTS) openingMoves
  = [Fin (-35); Fin (-35); Fin (-35); Fin (-35)]
  ∧ map (returnCount 3 (λ rand, getBestMove rand createInitialBoard
                                            openingMoves brain0))
        openingMoves
    = [1; 1; 2; 4]%nat.
Proof. split; vm_compute; reflexivity. Qed.

(** ** C5 *)

(** C5, as the code has it.  The tiers are ordered per unit, not in total.
    For a board and a weight matrix of the 8 x 8 shape, a colour and a
    board that is not full, the score is exactly
    [2000 * (myCorners - oppCorners) + 50 * (myMoves - oppMoves)] plus the
    positional sum, the corners and the weights counted by the disks that
    stand on them; with weights in [-600, 600] the positional sum lies in
    [-38400, 38400], so it can exceed the corner term, which is at most
    8000 in magnitude.  Corner control decides the sign of the score when
    mobility and position together stay below 2000 in magnitude. *)
Theorem evaluateBoard_tiers board color learnedWeights :
  wf_board board → wf_grid learnedWeights → color ≠ None →
  countEmpty board ≠ 0 → weightsInRange learnedWeights →
  let cornerTerm := inject_Z (2000 * cornerDiff board color) in
  let lowerTerms := (inject_Z (50 * mobilityDiff board color)
                     + positionSum board color learnedWeights)%Q in
  (evaluateBoard board color learnedWeights == cornerTerm + lowerTerms)%Q
  ∧ -4 ≤ cornerDiff board color ≤ 4
  ∧ (-38400 <= positionSum board color learnedWeights <= 38400)%Q
  ∧ ((-2000 < lowerTerms < 2000)%Q →
     (0 < cornerDiff board color →
      (0 < evaluateBoard board color learnedWeights)%Q)
     ∧ (cornerDiff board color < 0 →
        (evaluateBoard board color learnedWeights < 0)%Q)).
Proof.
  intros Hwf _ Hcolor Hne Hw cornerTerm lowerTerms.
  pose proof (evaluateBoard_terms board color learnedWeights Hwf Hcolor Hne)
    as Heq.
  pose proof (inject_Z_pos_scale 2000 (cornerDiff board color)) as Hpos.
  pose proof (inject_Z_neg_scale 2000 (cornerDiff board color)) as Hneg.
  change (inject_Z 2000) with 2000%Q in Hpos, Hneg.
  fold cornerTerm in Heq, Hpos, Hneg. unfold lowerTerms.
  generalize dependent cornerTerm. intros cornerTerm Heq Hpos Hneg.
  set (m := inject_Z (50 * mobilityDiff board color)) in *. clearbody m.
  split; [lra|]. split; [apply cornerDiff_bound|].
  split; [by apply positionSum_bound|].
  intros Hlow. split; intros Hc.
  - specialize (Hpos ltac:(lia) ltac:(lia)). lra.
  - specialize (Hneg ltac:(lia) ltac:(lia)). lra.
Qed.

(** The theorem for White after six plies of legal play, White holding the
    corner (7,7), with the initial weights: the corner term is 2000, the
    mobility term 250, the positional sum 125 and the score 2375. *)
Lemma evaluateBoard_tiers_witness :
  let cornerTerm :=
    inject_Z (2000 * cornerDiff board_corner_taken (Some White)) in
  let lowerTerms :=
    (inject_Z (50 * mobilityDiff board_corner_taken (Some White))
     + positionSum board_corner_taken (Some White) INITIAL_WEIGHTS)%Q in
  (evaluateBoard board_corner_taken (Some White) INITIAL_WEIGHTS
   == cornerTerm + lowerTerms)%Q
  ∧ -4 ≤ cornerDiff board_corner_taken (Some White) ≤ 4
  ∧ (-38400 <= positionSum board_corner_taken (Some White) INITIAL_WEIGHTS
     <= 38400)%Q
  ∧ ((-2000 < lowerTerms < 2000)%Q →
     (0 < cornerDiff board_corner_taken (Some White) →
      (0 < evaluateBoard board_corner_taken (Some White) INITIAL_WEIGHTS)%Q)
     ∧ (cornerDiff board_corner_taken (Some White) < 0 →
        (evaluateBoard board_corner_taken (Some White) INITIAL_WEIGHTS < 0)%Q)).
Proof.
  apply (evaluateBoard_tiers board_corner_taken (Some White) INITIAL_WEIGHTS).
  - exact board_corner_taken_wf.
  - exact INITIAL_WEIGHTS_wf.
  - discriminate.
  - vm_compute. discriminate.
  - exact INITIAL_WEIGHTS_inRange.
Defined.

(** C5 as stated fails, in both of its parts.  With the initial weights,
    Black holding the corner (0,0) together with the X- and C-squares has a
    corner term of 2000 and a positional sum of -2300: the score is -300.
    With every weight at 600, a board in play with 63 black disks scores
    43800, more than the 20000 of a full board won 33 to 31. *)
Lemma tiers_do_not_dominate : ¬ cornerTierClaim ∧ ¬ endgameTierClaim.
Proof.
  split.
  - intros H.
    specialize (H board_corner_traded (Some Black) INITIAL_WEIGHTS).
    assert (Hlt : ¬ (Qabs (inject_Z (50 * mobilityDiff board_corner_traded (Some Black))
                      + positionSum board_corner_traded (Some Black) INITIAL_WEIGHTS)
                < Qabs (inject_Z (2000 * cornerDiff board_corner_traded (Some Black))))%Q).
    { vm_compute. intros Hc. discriminate Hc. }
    apply Hlt, H.
    + apply wf_check. vm_compute. reflexivity.
    + exact INITIAL_WEIGHTS_wf.
    + discriminate.
    + vm_compute. discriminate.
    + exact INITIAL_WEIGHTS_inRange.
    + vm_compute. discriminate.
  - intros H.
    specialize (H board_33_31 board_63_0 (Some Black) weights_600).
    assert (Hlt : ¬ (Qabs (evaluateBoard board_63_0 (Some Black) weights_600)
                < Qabs (evaluateBoard board_33_31 (Some Black) weights_600))%Q).
    { vm_compute. intros Hc. discriminate Hc. }
    apply Hlt, H.
    + apply wf_check. vm_compute. reflexivity.
    + vm_compute. reflexivity.
    + apply wf_check. vm_compute. reflexivity.
    + vm_compute. discriminate.
    + exact weights_600_wf.
    + discriminate.
    + exact weights_600_inRange.
    + vm_compute. discriminate.
Qed.

(** ** C6 *)

(** C6.  With a winner, a weight matrix of the 8 x 8 shape and a history
    of moves on the board, [trainBrain] returns; the weights of its result
    are a grid created by the call (not the input matrix, and sharing no
    row with it), and the input matrix holds what it held.  Each cell of
    the result is the input cell plus 0.5 for every move of the history on
    that cell made by the winner, minus 0.25 for every other move on it,
    clamped into [-600, 600]. *)
Theorem trainBrain_weights now s currentData gameHistory winner
    (w : list (list Q)) :
  gridVal s currentData.(weights) = Some w → wf_grid w →
  Forall turnOnBoard gameHistory → winner ≠ None →
  ∃ newData ls s' w',
    trainBrainM now currentData gameHistory winner s = Done newData s'
    ∧ private s s' newData.(weights) ls w'
    ∧ gridVal s' newData.(weights) = Some w'
    ∧ gridVal s' currentData.(weights) = Some w
    ∧ newData.(weights) ≠ currentData.(weights)
    ∧ ∀ r c, inBoard r c = true →
        (weightAt w' r c
         == clamp (weightAt w r c
                   + (1 # 2) * inject_Z (winnerMovesAt winner gameHistory r c)
                   - (1 # 4) * inject_Z (otherMovesAt winner gameHistory r c)))%Q
        ∧ (-600 <= weightAt w' r c <= 600)%Q.
Proof.
  intros Hval Hwf Hall Hwin.
  destruct (trainBrainM_spec now s currentData gameHistory winner w
              Hval Hwf Hall Hwin) as (newData & ls & s' & Hrun & Hp).
  exists newData, ls, s'. eexists. split; [exact Hrun|].
  split; [exact Hp|]. split; [by eapply private_gridVal|].
  split; [eapply gridVal_preserved; [|exact Hval]; by destruct Hp|].
  split.
  - intros Heq. apply gridVal_Some in Hval as (? & Hg & _).
    rewrite <- Heq, (priv_gfresh _ _ _ _ _ Hp) in Hg. done.
  - intros r c Hin. by apply trained_weights.
Qed.

(** The theorem on the initial weights and three moves of a game Black won. *)
Lemma trainBrain_weights_witness :
  ∃ newData ls s' w',
    trainBrainM (λ _, 0) brainRef history3 (Some Black) weightStore.2
    = Done newData s'
    ∧ private weightStore.2 s' newData.(weights) ls w'
    ∧ gridVal s' newData.(weights) = Some w'
    ∧ gridVal s' brainRef.(weights) = Some INITIAL_WEIGHTS
    ∧ newData.(weights) ≠ brainRef.(weights)
    ∧ ∀ r c, inBoard r c = true →
        (weightAt w' r c
         == clamp (weightAt INITIAL_WEIGHTS r c
                   + (1 # 2) * inject_Z (winnerMovesAt (Some Black) history3 r c)
                   - (1 # 4) * inject_Z (otherMovesAt (Some Black) history3 r c)))%Q
        ∧ (-600 <= weightAt w' r c <= 600)%Q.
Proof.
  apply (trainBrain_weights (λ _, 0) weightStore.2 brainRef history3
           (Some Black) INITIAL_WEIGHTS).
  - exact weightStore_holds.
  - apply wf_check. vm_compute. reflexivity.
  - repeat constructor.
  - discriminate.
Defined.

(** ** C7 *)

(** C7.  On a board of the 8 x 8 shape and a cell of the grid,
    [isValidMove] answers [true] exactly when the cell is empty and, in one
    of the 8 directions, a run of one or more disks of the other colour
    starts next to the cell and ends, still on the board and with no empty
    cell in between, on a disk of the mover's colour; [getValidMoves]
    lists exactly these cells, each once. *)
Theorem legal_moves_characterised board color :
  wf_board board →
  (∀ row col, inBoard row col = true →
     (isValidMove board color row col = true
      ↔ legalDestination board color row col))
  ∧ (∀ m, m ∈ getValidMoves board color
          ↔ onBoard m ∧ legalDestination board color m.(row) m.(col))
  ∧ NoDup (getValidMoves board color).
Proof.
  intros _. split; [|split].
  - intros row col _. apply isValidMove_spec.
  - intros m. rewrite elem_of_getValidMoves, isValidMove_spec. done.
  - unfold getValidMoves. apply NoDup_filter, NoDup_allCells.
Qed.

Lemma legal_moves_characterised_witness :
  (∀ row col, inBoard row col = true →
     (isValidMove createInitialBoard (Some Black) row col = true
      ↔ legalDestination createInitialBoard (Some Black) row col))
  ∧ (∀ m, m ∈ getValidMoves createInitialBoard (Some Black)
          ↔ onBoard m
            ∧ legalDestination createInitialBoard (Some Black) m.(row) m.(col))
  ∧ NoDup (getValidMoves createInitialBoard (Some Black)).
Proof.
  apply (legal_moves_characterised createInitialBoard (Some Black)).
  exact createInitialBoard_wf.
Defined.

(** ** C8 *)

(** C8.  On a board with no empty cell [evaluateBoard] is
    [(myDisks - oppDisks) * 10000] for every weight matrix, whatever the
    corners and the mobility; with 40 black and 24 white disks it is
    160000 for Black. *)
Theorem evaluateBoard_endgame board color learnedWeights :
  wf_board board → countEmpty board = 0 →
  evaluateBoard board color learnedWeights
  = inject_Z ((disksOf color (concat board)
               - disksAgainst color (concat board)) * 10000)
  ∧ (countScore board = (40, 24) →
     evaluateBoard board (Some Black) learnedWeights = 160000%Q).
Proof.
  intros Hwf Hfull. split; [by apply evaluateBoard_full|].
  intros Hscore. by apply evaluateBoard_40_24.
Qed.

Lemma evaluateBoard_endgame_witness :
  evaluateBoard board_40_24 (Some Black) weights_600
  = inject_Z ((disksOf (Some Black) (concat board_40_24)
               - disksAgainst (Some Black) (concat board_40_24)) * 10000)
  ∧ (countScore board_40_24 = (40, 24) →
     evaluateBoard board_40_24 (Some Black) weights_600 = 160000%Q).
Proof.
  apply (evaluateBoard_endgame board_40_24 (Some Black) weights_600).
  - apply wf_check. vm_compute. reflexivity.
  - vm_compute. reflexivity.
Defined.

(** ** C9 *)

(** C9.  [applyMove] is pure.  Called on a reference [board1] to a board of
    value [b], it returns a reference to a grid that did not exist before
    the call, made of rows that did not exist either (no alias of the input
    or of anything else), while every object of the store before the call,
    the input board among them, keeps its contents.  Called again on a copy
    [board2] of the same value, in any store, it returns a board of the same
    value. *)
Theorem applyMove_pure s1 s2 board1 board2 (b : Board) color row col :
  gridVal s1 board1 = Some b → gridVal s2 board2 = Some b →
  wf_board b → inBoard row col = true →
  ∃ new1 ls1 s1' new2 ls2 s2' b',
    applyMoveM board1 color row col s1 = Done new1 s1'
    ∧ applyMoveM board2 color row col s2 = Done new2 s2'
    ∧ private s1 s1' new1 ls1 b' ∧ private s2 s2' new2 ls2 b'
    ∧ gridVal s1' board1 = Some b ∧ gridVal s2' board2 = Some b
    ∧ new1 ≠ board1 ∧ new2 ≠ board2
    ∧ gridVal s1' new1 = Some b' ∧ gridVal s2' new2 = Some b'.
Proof.
  intros Hval1 Hval2 Hwf Hin.
  destruct (applyMoveM_spec s1 board1 b color row col Hval1 Hwf Hin)
    as (new1 & ls1 & s1' & Hrun1 & Hp1).
  destruct (applyMoveM_spec s2 board2 b color row col Hval2 Hwf Hin)
    as (new2 & ls2 & s2' & Hrun2 & Hp2).
  exists new1, ls1, s1', new2, ls2, s2', (applyMove b color row col).
  assert (Hfresh : ∀ s s' board new ls b',
            gridVal s board = Some b → private s s' new ls b' → new ≠ board).
  { intros s s' board new ls b' Hval Hp ->.
    apply gridVal_Some in Hval as (? & Hg & _).
    rewrite (priv_gfresh _ _ _ _ _ Hp) in Hg. done. }
  split; [done|]. split; [done|]. split; [done|]. split; [done|].
  split; [eapply gridVal_preserved; [|exact Hval1]; by destruct Hp1|].
  split; [eapply gridVal_preserved; [|exact Hval2]; by destruct Hp2|].
  split; [by eapply Hfresh|]. split; [by eapply Hfresh|].
  split; by eapply private_gridVal.
Qed.

(** The theorem on the opening position, Black to (2,3), the second call
    on the same board. *)
Lemma applyMove_pure_witness :
  ∃ new1 ls1 s1' new2 ls2 s2' b',
    applyMoveM initialStore.1 (Some Black) 2 3 initialStore.2 = Done new1 s1'
    ∧ applyMoveM initialStore.1 (Some Black) 2 3 initialStore.2 = Done new2 s2'
    ∧ private initialStore.2 s1' new1 ls1 b'
    ∧ private initialStore.2 s2' new2 ls2 b'
    ∧ gridVal s1' initialStore.1 = Some createInitialBoard
    ∧ gridVal s2' initialStore.1 = Some createInitialBoard
    ∧ new1 ≠ initialStore.1 ∧ new2 ≠ initialStore.1
    ∧ gridVal s1' new1 = Some b' ∧ gridVal s2' new2 = Some b'.
Proof.
  apply (applyMove_pure initialStore.2 initialStore.2 initialStore.1
           initialStore.1 createInitialBoard (Some Black) 2 3).
  - exact initialStore_holds.
  - exact initialStore_holds.
  - exact createInitialBoard_wf.
  - reflexivity.
Defined.

(** ** C10 *)

(** C10.  With a board and a weight matrix of the 8 x 8 shape and a
    non-empty list of moves on the board, [getBestMove] returns one of the
    supplied moves: the remembered move, which is only returned when it is
    one of them, or else a move of the candidates, which are the supplied
    moves or those of them the risk filter keeps. *)
Theorem getBestMove_in_validMoves rand board validMoves data :
  wf_board board → Forall onBoard validMoves → wf_grid data.(weights) →
  validMoves ≠ [] →
  ∃ move,
    getBestMove rand board validMoves data = Some move
    ∧ move ∈ validMoves
    ∧ (rememberedMove board validMoves data = Some move
       ∨ (rememberedMove board validMoves data = None
          ∧ move ∈ candidatesOf board validMoves
                     (searchDepth (countEmpty board)))).
Proof.
  intros _ _ _ Hne.
  destruct (getBestMove_valid rand board validMoves data Hne) as (move & Hrun & Hin).
  exists move. split; [done|]. split; [done|].
  destruct (rememberedMove board validMoves data) as [m|] eqn:Hmem.
  - left. destruct validMoves as [|first rest]; [done|].
    rewrite getBestMove_unfold, Hmem in Hrun. done.
  - right. split; [done|].
    destruct (getBestMove_maximal rand board validMoves data Hne Hmem)
      as (aiColor & move' & Hrun' & Hin' & _).
    rewrite Hrun in Hrun'. by injection Hrun' as <-.
Qed.

Lemma getBestMove_in_validMoves_witness :
  ∃ move,
    getBestMove (λ _, 0%Q) createInitialBoard openingMoves brain0 = Some move
    ∧ move ∈ openingMoves
    ∧ (rememberedMove createInitialBoard openingMoves brain0 = Some move
       ∨ (rememberedMove createInitialBoard openingMoves brain0 = None
          ∧ move ∈ candidatesOf createInitialBoard openingMoves
                     (searchDepth (countEmpty createInitialBoard)))).
Proof.
  apply (getBestMove_in_validMoves (λ _, 0%Q) createInitialBoard
           openingMoves brain0).
  - exact createInitialBoard_wf.
  - apply list.Forall_forall. intros m [Hm _]%elem_of_getValidMoves. exact Hm.
  - exact INITIAL_WEIGHTS_wf.
  - vm_compute. discriminate.
Defined.

(** * Further properties of the code *)

(** ** gameLogic.ts: [applyMove] *)

(** X2.  A disk put on an empty cell turns disks over exactly when the
    move is legal.  A legal move turns over [n >= 1] disks: the mover gains
    [1 + n] disks, the other side loses [n], and one cell less is empty.  A
    move that is not legal changes the cell it is put on and nothing else. *)
Theorem move_turns_over_iff_legal board color row col :
  wf_board board → inBoard row col = true → cellAt board row col = None →
  (isValidMove board color row col = true →
   ∃ n, 1 ≤ n
        ∧ disksOf color (concat (applyMove board color row col))
          = disksOf color (concat board) + 1 + n
        ∧ disksAgainst color (concat (applyMove board color row col))
          = disksAgainst color (concat board) - n
        ∧ countEmpty (applyMove board color row col) = countEmpty board - 1)
  ∧ (isValidMove board color row col = false →
     ∀ r c, inBoard r c = true → ¬ (r = row ∧ c = col) →
            cellAt (applyMove board color row col) r c = cellAt board r c).
Proof.
  intros Hwf Hin Hempty. split.
  - intros Hlegal.
    destruct (legal_move_counts board color row col Hwf Hin Hlegal)
      as (Hless & Hlt & Hsum).
    exists (disksAgainst color (concat board)
            - disksAgainst color (concat (applyMove board color row col))).
    rewrite !countEmpty_spec. repeat split; lia.
  - intros Hillegal r c Hrc Hne.
    destruct (applyMove_cell board color row col r c Hwf Hin Hrc)
      as (_ & _ & Hkeep).
    apply Hkeep; [done|]. intros (dRow & dCol & Hd & k & i & Hrun & _).
    assert (isValidMove board color row col = true) as Ht; [|congruence].
    apply isValidMove_spec. split; [done|]. by exists dRow, dCol, k.
Qed.

Lemma move_turns_over_iff_legal_witness :
  (isValidMove createInitialBoard (Some Black) 2 3 = true →
   ∃ n, 1 ≤ n
        ∧ disksOf (Some Black)
            (concat (applyMove createInitialBoard (Some Black) 2 3))
          = disksOf (Some Black) (concat createInitialBoard) + 1 + n
        ∧ disksAgainst (Some Black)
            (concat (applyMove createInitialBoard (Some Black) 2 3))
          = disksAgainst (Some Black) (concat createInitialBoard) - n
        ∧ countEmpty (applyMove createInitialBoard (Some Black) 2 3)
          = countEmpty createInitialBoard - 1)
  ∧ (isValidMove createInitialBoard (Some Black) 2 3 = false →
     ∀ r c, inBoard r c = true → ¬ (r = 2 ∧ c = 3) →
            cellAt (applyMove createInitialBoard (Some Black) 2 3) r c
            = cellAt createInitialBoard r c).
Proof.
  apply (move_turns_over_iff_legal createInitialBoard (Some Black) 2 3).
  - exact createInitialBoard_wf.
  - reflexivity.
  - reflexivity.
Defined.

(** ** gameLogic.ts: [countScore], [checkGameOver], [getValidMoves] *)

(** X3.  On a well-shaped board the two counts of [countScore] and the
    number of empty cells add up to the 64 cells. *)
Theorem countScore_accounts board :
  wf_board board →
  0 ≤ (countScore board).1 ∧ 0 ≤ (countScore board).2
  ∧ (countScore board).1 + (countScore board).2 + countEmpty board = 64.
Proof.
  intros Hwf. rewrite countScore_spec, countEmpty_spec. cbn [fst snd].
  pose proof (cells_partition (concat board)) as Hsum.
  rewrite wf_concat_length in Hsum by done.
  unfold disksOf. pose proof (countZ_nonneg (isDiskOf (Some Black)) (concat board)).
  pose proof (countZ_nonneg (isDiskOf (Some White)) (concat board)).
  unfold disksOf in Hsum. lia.
Qed.

Lemma countScore_accounts_witness :
  0 ≤ (countScore createInitialBoard).1 ∧ 0 ≤ (countScore createInitialBoard).2
  ∧ (countScore createInitialBoard).1 + (countScore createInitialBoard).2
    + countEmpty createInitialBoard = 64.
Proof. apply (countScore_accounts createInitialBoard). exact createInitialBoard_wf. Defined.

(** X4.  [checkGameOver] holds exactly when no cell of the grid is a legal
    destination for any colour.  It holds on every full board, and on every
    board on which one of the two colours has no disk. *)
Theorem checkGameOver_no_legal_move board :
  wf_board board →
  (checkGameOver board = true
   ↔ ∀ color row col, inBoard row col = true →
                      ¬ legalDestination board color row col)
  ∧ (countEmpty board = 0 → checkGameOver board = true)
  ∧ (∀ color, color ≠ None →
       (∀ r c, inBoard r c = true → cellAt board r c ≠ color) →
       checkGameOver board = true).
Proof.
  intros Hwf.
  assert (Hiff : checkGameOver board = true
                 ↔ ∀ color row col, inBoard row col = true →
                                    ¬ legalDestination board color row col).
  { unfold checkGameOver. rewrite andb_true_iff, !bool_decide_eq_true.
    rewrite !length_zero_iff_nil. split.
    - intros [Hb Hw] color r c Hin Hlegal.
      destruct color as [[]|].
      + assert (mkCoord r c ∈ getValidMoves board (Some Black)) as Hel.
        { apply elem_of_getValidMoves. split; [done|]. by apply isValidMove_spec. }
        rewrite Hb in Hel. by apply elem_of_nil in Hel.
      + assert (mkCoord r c ∈ getValidMoves board (Some White)) as Hel.
        { apply elem_of_getValidMoves. split; [done|]. by apply isValidMove_spec. }
        rewrite Hw in Hel. by apply elem_of_nil in Hel.
      + by apply legalDestination_null in Hlegal.
    - intros Hnone. split; apply elem_of_nil_inv; intros [r c] Hel;
        apply elem_of_getValidMoves in Hel as [Hin Hv%isValidMove_spec];
        by apply (Hnone _ _ _ Hin Hv). }
  split; [done|]. split.
  - intros Hfull. apply Hiff. intros color r c Hin [Hempty _].
    by apply (full_board_cells board r c).
  - intros color Hcolor Hnone. apply Hiff.
    intros mover r c Hin (_ & dRow & dCol & k & _ & Hk & Hopp & Hin' & [Hn Hown]).
    destruct (decide (mover = color)) as [->|Hne].
    + by apply (Hnone _ _ Hin').
    + destruct (Hopp 1%nat) as [Hin1 [Hn1 Ho1]]; [lia|].
      apply (Hnone _ _ Hin1).
      destruct (cellAt board (r + Z.of_nat 1 * dRow) (c + Z.of_nat 1 * dCol))
        as [[]|], mover as [[]|], color as [[]|]; try done.
      all: by rewrite <- Hown in Hn.
Qed.

Lemma checkGameOver_no_legal_move_witness :
  checkGameOver board_40_24 = true ∧ checkGameOver board_63_0 = true.
Proof.
  split.
  - apply (checkGameOver_no_legal_move board_40_24).
    + apply wf_check. vm_compute. reflexivity.
    + vm_compute. reflexivity.
  - apply (checkGameOver_no_legal_move board_63_0) with (color := Some White).
    + apply wf_check. vm_compute. reflexivity.
    + discriminate.
    + apply (allCells_forall (λ pos, cellOf board_63_0 pos ≠ Some White)).
      apply (bool_decide_unpack _). vm_compute. reflexivity.
Defined.

(** X5.  [getValidMoves] lists its moves in the order of its loops, rows
    first and columns within a row, so that [validMoves[0]] is the first
    legal cell in reading order; every move it lists is on an empty cell of
    the grid; for the null colour it lists nothing. *)
Theorem getValidMoves_row_major board color :
  wf_board board →
  StronglySorted rowMajor (getValidMoves board color)
  ∧ Forall (λ m, onBoard m ∧ cellOf board m = None) (getValidMoves board color)
  ∧ getValidMoves board None = [].
Proof.
  intros _. split; [|split].
  - unfold getValidMoves. apply StronglySorted_filter, allCells_sorted.
  - apply list.Forall_forall. intros m [Hin Hv]%elem_of_getValidMoves.
    split; [done|]. by apply isValidMove_spec in Hv as [Hn _].
  - apply elem_of_nil_inv. intros m [_ Hv%isValidMove_spec]%elem_of_getValidMoves.
    by apply legalDestination_null in Hv.
Qed.

Lemma getValidMoves_row_major_witness :
  StronglySorted rowMajor (getValidMoves createInitialBoard (Some White))
  ∧ Forall (λ m, onBoard m ∧ cellOf createInitialBoard m = None)
           (getValidMoves createInitialBoard (Some White))
  ∧ getValidMoves createInitialBoard None = [].
Proof.
  apply (getValidMoves_row_major createInitialBoard (Some White)).
  exact createInitialBoard_wf.
Defined.
